(** * MiyaShell: the Steam KeyValues core

    A shallow embedding of [backend/steam_library.py] and
    [backend/steam_downloads.py]: the KeyValues tokenizer and tree parser,
    the library locator, the manifest extractor, the reconciler
    ([merge_games]) and the download-progress projection; and of the
    report of [backend/storage_report.py].

    Conventions.
    - A Python [str] is a [string]; an [ascii] is read as a code point
      below 256.  Comparison of strings is lexicographic by code point,
      as in Python.
    - A Python [int] is a [Z]; [int] and [str] convert no more than 4300
      digits.
    - A Python [float] is an IEEE 754 binary64 number, a [spec_float] of
      the Standard Library with 53 bits of precision; the conversion of
      an [int] and the division round to the nearest float, ties to even.
    - The interpreter lets calls nest only as deep as its stack has room
      for; the recursive parser takes the room it has as a parameter.
    - A [dict] is an association list in insertion order with unique keys:
      assignment to an existing key keeps the key's position.
    - [Game] objects live in a store and dictionaries hold references to
      them, because [merge_games] assigns to a field of an object that its
      argument also refers to.
    - Functions of the interpreter whose tables are not part of the
      repository ([str.casefold], the [unicode_escape] codec, [repr] of a
      non-empty dict) and the file system are parameters. *)

From Stdlib Require Import ZArith String Ascii List Sorted Permutation Lia.
From Stdlib Require Import DecimalString DecimalPos Wf_nat SpecFloat.
From stdpp Require Import gmap strings list.

Local Open Scope string_scope.
Local Open Scope Z_scope.
Local Open Scope list_scope.

(** The elements of [l] that are not in [seen], each at its first
    occurrence. *)
Fixpoint first_occurrences {A : Type} `{EqDecision A} (seen l : list A) : list A :=
  match l with
  | [] => []
  | k :: l' =>
      if bool_decide (k ∈ seen) then first_occurrences seen l'
      else k :: first_occurrences (seen ++ [k]) l'
  end.

(** ** Built-ins of the interpreter *)

Module Py.

(** [c.isspace()] for a code point below 256. *)
Definition isspace (c : ascii) : bool :=
  let n := nat_of_ascii c in
  ((9 <=? n)%nat && (n <=? 13)%nat) || ((28 <=? n)%nat && (n <=? 32)%nat)
  || (n =? 133)%nat || (n =? 160)%nat.

Fixpoint lstrip (s : string) : string :=
  match s with
  | String c s' => if isspace c then lstrip s' else s
  | EmptyString => EmptyString
  end.

Fixpoint rstrip (s : string) : string :=
  match s with
  | String c s' =>
      match rstrip s' with
      | EmptyString => if isspace c then EmptyString else String c EmptyString
      | r => String c r
      end
  | EmptyString => EmptyString
  end.

(** [s.strip()] *)
Definition strip (s : string) : string := rstrip (lstrip s).

(** [s.startswith(p)] *)
Definition startswith (s p : string) : bool := String.prefix p s.

(** [str(n)] and the [{n}] of an f-string, for an [int]: the decimal text
    of [n].  The interpreter writes no more than [int_max_str_digits]
    digits (below); the numbers of which this code takes the text come
    from [int] or from a JSON document, and have no more. *)
Definition str_of_int (n : Z) : string := NilZero.string_of_int (Z.to_int n).

(** The white space that [int(s)] skips around the literal: the C-locale
    blanks, and the two non-ASCII blanks below 256, which [int] first
    rewrites to a space.  The separators 28..31, which [strip] removes,
    are not skipped by [int]. *)
Definition int_blank (c : ascii) : bool :=
  let n := nat_of_ascii c in
  ((9 <=? n)%nat && (n <=? 13)%nat) || (n =? 32)%nat
  || (n =? 133)%nat || (n =? 160)%nat.

Definition digit_of (c : ascii) : option Z :=
  let n := nat_of_ascii c in
  if ((48 <=? n)%nat && (n <=? 57)%nat)%bool then Some (Z.of_nat n - 48) else None.

Fixpoint lstrip_blank (s : string) : string :=
  match s with
  | String c s' => if int_blank c then lstrip_blank s' else s
  | EmptyString => EmptyString
  end.

(** Digits of a base-10 literal after its first digit: a single underscore
    may separate two digits; only blanks may follow the literal. *)
Fixpoint int_digits (acc : Z) (s : string) : option Z :=
  match s with
  | EmptyString => Some acc
  | String c s' =>
      match digit_of c with
      | Some d => int_digits (10 * acc + d) s'
      | None =>
          if Ascii.eqb c "_" then
            match s' with
            | String c' s'' =>
                match digit_of c' with
                | Some d => int_digits (10 * acc + d) s''
                | None => None
                end
            | EmptyString => None
            end
          else if int_blank c then
            (if String.eqb (lstrip_blank s') EmptyString then Some acc else None)
          else None
      end
  end.

Definition int_unsigned (s : string) : option Z :=
  match s with
  | String c s' =>
      match digit_of c with
      | Some d => int_digits d s'
      | None => None
      end
  | EmptyString => None
  end.

(** The value of a base-10 literal with blanks around it and a sign
    before it; [None] when [s] is no such literal. *)
Definition int_literal (s : string) : option Z :=
  match lstrip_blank s with
  | String "+" s' => int_unsigned s'
  | String "-" s' => Z.opp <$> int_unsigned s'
  | s' => int_unsigned s'
  end.

(** [sys.get_int_max_str_digits()], as the interpreter sets it: [int] and
    [str] convert no more than that many digits. *)
Definition int_max_str_digits : N := 4300.

(** The number of digits in [s]; leading zeros count. *)
Fixpoint count_digits (s : string) : N :=
  match s with
  | EmptyString => 0
  | String c s' =>
      match digit_of c with
      | Some _ => N.succ (count_digits s')
      | None => count_digits s'
      end
  end.

(** [int(s)] for a string [s]; [None] stands for [ValueError]: [s] is no
    literal, or it has more digits than the interpreter converts. *)
Definition int_of_str (s : string) : option Z :=
  if (int_max_str_digits <? count_digits s)%N then None else int_literal s.

End Py.

(** ** Floats of the interpreter *)

Module PyFloat.

Definition prec : Z := 53.
Definition emax : Z := 1024.

(** [0.0] and [1.0] *)
Definition zero : spec_float := S754_zero false.
Definition one : spec_float := S754_finite false 4503599627370496 (-52).

(** [float(n)] for an [int] [n], and the conversion of an [int] that is
    divided by a [float]: the nearest float, ties to even.  [None] stands
    for [OverflowError]: the nearest float would be an infinity. *)
Definition of_int (n : Z) : option spec_float :=
  match binary_normalize prec emax n 0 false with
  | S754_infinity _ => None
  | x => Some x
  end.

(** [x / y], for a divisor that is not zero *)
Definition div (x y : spec_float) : spec_float := SFdiv prec emax x y.

(** [min(a, b)] and [max(a, b)]: the first argument, unless the second is
    less than it, or greater. *)
Definition min (a b : spec_float) : spec_float := if SFltb b a then b else a.
Definition max (a b : spec_float) : spec_float := if SFltb a b then b else a.

Definition is_nan (x : spec_float) : bool :=
  match x with S754_nan => true | _ => false end.

(** The place of a float that is no NaN in the order of [<]: first its
    sign and kind, then its exponent, then its mantissa. *)
Definition rank (x : spec_float) : Z * Z * Z :=
  match x with
  | S754_zero _ => (0, 0, 0)
  | S754_infinity s => (if s then -2 else 2, 0, 0)
  | S754_nan => (0, 0, 0)
  | S754_finite s m e => if s then (-1, - e, Z.neg m) else (1, e, Z.pos m)
  end.

Definition rank_lt (a b : Z * Z * Z) : Prop :=
  a.1.1 < b.1.1
  \/ (a.1.1 = b.1.1 /\ (a.1.2 < b.1.2 \/ (a.1.2 = b.1.2 /\ a.2 < b.2))).

End PyFloat.


(** ** The KeyValues tokenizer and tree parser *)

Module KeyValues.

Definition quote : ascii := "034"%char.
Definition backslash : ascii := "092"%char.
Definition newline : ascii := "010"%char.

(** [Token = Union[str, _LBrace, _RBrace]] *)
Inductive token : Type :=
  | TStr (s : string)
  | LBRACE
  | RBRACE.

(** What the tokenizer and the parser raise.  All are [ValueError]s (a
    [UnicodeDecodeError] is one too) but the last, which the interpreter
    raises when the calls of [parse_object] nest deeper than its stack has
    room for. *)
Inductive error : Type :=
  | InvalidQuotedString (offset : nat)
  | UnicodeDecodeError
  | UnexpectedLBrace
  | UnexpectedEOFAfterKey (key : string)
  | UnexpectedRBraceAfterKey
  | RecursionError.

(** What a generator of tokens does when it is advanced: it is exhausted,
    it raises, or it yields a token and goes on. *)
Inductive tokens : Type :=
  | TEnd
  | TRaise (e : error)
  | TYield (t : token) (rest : tokens).

Fixpoint of_list (l : list token) : tokens :=
  match l with
  | [] => TEnd
  | t :: l' => TYield t (of_list l')
  end.

(** The tokens of [l], then what [ts] does. *)
Fixpoint prepend (l : list token) (ts : tokens) : tokens :=
  match l with
  | [] => ts
  | t :: l' => TYield t (prepend l' ts)
  end.

Fixpoint tokens_length (ts : tokens) : nat :=
  match ts with
  | TYield _ rest => S (tokens_length rest)
  | _ => O
  end.

(** [_QUOTED.match(text, i)], on the text that follows the opening quote at
    [i].  The pattern is: a quote; a group of characters other than quote
    and backslash, in which a backslash may stand before any character but
    a newline (the dot of the pattern); a quote.  The result is the group
    and the text after the closing quote. *)
Fixpoint match_quoted (s : string) : option (string * string) :=
  match s with
  | EmptyString => None
  | String c s1 =>
      if Ascii.eqb c quote then Some (EmptyString, s1)
      else if Ascii.eqb c backslash then
        match s1 with
        | EmptyString => None
        | String d s2 =>
            if Ascii.eqb d newline then None
            else
              match match_quoted s2 with
              | Some (raw, rest) => Some (String c (String d raw), rest)
              | None => None
              end
        end
      else
        match match_quoted s1 with
        | Some (raw, rest) => Some (String c raw, rest)
        | None => None
        end
  end.

(** [text.find(newline, i)], on the text from [i]: what follows the first
    newline. *)
Fixpoint after_newline (s : string) : option string :=
  match s with
  | EmptyString => None
  | String c s' => if Ascii.eqb c newline then Some s' else after_newline s'
  end.

(** The bare word scanned from [i] and the text from [j]. *)
Fixpoint bareword (s : string) : string * string :=
  match s with
  | EmptyString => (EmptyString, EmptyString)
  | String c s' =>
      if negb (Py.isspace c) && negb (Ascii.eqb c "{" || Ascii.eqb c "}")
      then let '(w, rest) := bareword s' in (String c w, rest)
      else (EmptyString, s)
  end.


(** What the generator raises when it is read to its end. *)
Fixpoint raises (ts : tokens) : option error :=
  match ts with
  | TEnd => None
  | TRaise e => Some e
  | TYield _ rest => raises rest
  end.

(** One turn of the [while i < n] loop of [tokenize_keyvalues], at
    offset [i] with [s = text[i:]]. *)
Inductive turn : Type :=
  | Exit
  | Fails (e : error)
  | Skip (i' : nat) (s' : string)
  | Yields (t : token) (i' : nat) (s' : string).

Section Tokenizer.

(** [bytes(s, "utf-8").decode("unicode_escape")]; [None] when the codec
    raises. *)
Variable unicode_escape : string -> option string.

Definition _unescape (s : string) : option string := unicode_escape s.

Definition tokenize_turn (i : nat) (s : string) : turn :=
  match s with
  | EmptyString => Exit
  | String c s1 =>
      if Py.isspace c then Skip (S i) s1
      else if Ascii.eqb c "/" && String.prefix "/" s1 then
        match after_newline s with
        | None => Exit
        | Some s' => Skip (i + (String.length s - String.length s')) s'
        end
      else if Ascii.eqb c "{" then Yields LBRACE (S i) s1
      else if Ascii.eqb c "}" then Yields RBRACE (S i) s1
      else if Ascii.eqb c quote then
        match match_quoted s1 with
        | None => Fails (InvalidQuotedString i)
        | Some (raw, rest) =>
            match _unescape raw with
            | None => Fails UnicodeDecodeError
            | Some v => Yields (TStr v) (i + (String.length s - String.length rest)) rest
            end
        end
      else
        let '(w, rest) := bareword s in
        Yields (TStr w) (i + String.length w) rest
  end.

(** The loop; [None] when [fuel] turns were not enough. *)
Fixpoint tokenize_loop (fuel : nat) (i : nat) (s : string) : option tokens :=
  match fuel with
  | O => None
  | S fuel' =>
      match tokenize_turn i s with
      | Exit => Some TEnd
      | Fails e => Some (TRaise e)
      | Skip i' s' => tokenize_loop fuel' i' s'
      | Yields t i' s' => TYield t <$> tokenize_loop fuel' i' s'
      end
  end.

(** [tokenize_keyvalues(text)]: every turn moves [i] forward, so
    [len(text) + 1] turns are enough. *)
Definition tokenize_keyvalues (text : string) : option tokens :=
  tokenize_loop (S (String.length text)) O text.


End Tokenizer.

(** A codec for running examples: the one-character escapes; an unknown
    escape is kept as it is, a backslash at the end raises, and the
    numeric escapes are outside its domain. *)
Fixpoint escape_simple (s : string) : option string :=
  match s with
  | EmptyString => Some EmptyString
  | String c s1 =>
      if Ascii.eqb c backslash then
        match s1 with
        | EmptyString => None
        | String d s2 =>
            let out :=
              if Ascii.eqb d "n" then String newline EmptyString
              else if Ascii.eqb d "t" then String "009" EmptyString
              else if Ascii.eqb d backslash then String backslash EmptyString
              else if Ascii.eqb d quote then String quote EmptyString
              else String c (String d EmptyString) in
            String.append out <$> escape_simple s2
        end
      else String c <$> escape_simple s1
  end.

(** The text [s] between two quote characters. *)
Definition quoted (s : string) : string :=
  String quote (String.append s (String quote EmptyString)).

(** The words of [l] with a blank after each. *)
Fixpoint unwords (l : list string) : string :=
  match l with
  | [] => EmptyString
  | w :: l' => String.append w (String " " (unwords l'))
  end.

(** The parse result: a value is a string or a nested dict. *)
#[warnings="-register-all"]
Inductive node : Type :=
  | Str (s : string)
  | Dict (d : list (string * node)).

Abbreviation dict := (list (string * node)).

(** [d.get(key)] *)
Fixpoint dict_get {V : Type} (key : string) (d : list (string * V)) : option V :=
  match d with
  | [] => None
  | (k, v) :: d' => if String.eqb k key then Some v else dict_get key d'
  end.

(** [d[key] = val]: an existing key keeps its place and takes the new
    value; a new key goes to the end. *)
Fixpoint dict_set {V : Type} (key : string) (val : V) (d : list (string * V))
  : list (string * V) :=
  match d with
  | [] => [(key, val)]
  | (k, v) :: d' =>
      if String.eqb k key then (k, val) :: d' else (k, v) :: dict_set key val d'
  end.

(** What a call of [parse_object] does: it returns its dict and leaves the
    generator where it stopped reading, or it raises. *)
Inductive outcome : Type :=
  | OutOfFuel
  | Raise (e : error)
  | Return (obj : dict) (rest : tokens).

(** [sys.getrecursionlimit()] as the interpreter sets it.  The calls of
    [parse_object] have less room than that: the callers of
    [parse_keyvalues] are on the stack as well. *)
Definition recursion_limit : nat := 1000.

(** The [while True] loop of [parse_object] with [obj] as read so far;
    [parse_object()] itself starts it with an empty dict.  An exhausted
    generator stays exhausted, so a caller that goes on reading after a
    nested call has returned at the end of the input returns as well.

    [parse_object] calls itself for every block, and the interpreter lets
    calls nest only as deep as its stack has room for: [calls] is the
    number of calls that can still be made inside this one, each inside
    the one before.  The call beyond raises [RecursionError]. *)
Fixpoint parse_object_loop (fuel : nat) (calls : nat) (obj : dict) (ts : tokens)
  : outcome :=
  match fuel with
  | O => OutOfFuel
  | S fuel' =>
      match ts with
      | TEnd => Return obj TEnd
      | TRaise e => Raise e
      | TYield RBRACE rest => Return obj rest
      | TYield LBRACE _ => Raise UnexpectedLBrace
      | TYield (TStr key) rest =>
          match rest with
          | TEnd => Raise (UnexpectedEOFAfterKey key)
          | TRaise e => Raise e
          | TYield LBRACE rest' =>
              match calls with
              | O => Raise RecursionError
              | S calls' =>
                  match parse_object_loop fuel' calls' [] rest' with
                  | Return sub rest'' =>
                      parse_object_loop fuel' calls
                        (dict_set key (Dict sub) obj) rest''
                  | other => other
                  end
              end
          | TYield RBRACE _ => Raise UnexpectedRBraceAfterKey
          | TYield (TStr val) rest' =>
              parse_object_loop fuel' calls (dict_set key (Str val) obj) rest'
          end
      end
  end.

Definition parse_object (fuel : nat) (calls : nat) (ts : tokens) : outcome :=
  parse_object_loop fuel calls [] ts.

(** The result of [parse_keyvalues] and of [load_keyvalues_file]. *)
Inductive result : Type :=
  | Diverges
  | Error (e : error)
  | Ok (root : dict).

(** [parse_keyvalues(tokens)]: every call and every turn of the loop reads
    a token, but for the last one.  [limit] is the number of calls of
    [parse_object] that the stack has room for where [parse_keyvalues] is
    called, the first one included: what [sys.getrecursionlimit()] leaves
    of the stack there, less the frames that reading a token takes. *)
Definition parse_keyvalues (limit : nat) (ts : tokens) : result :=
  match limit with
  | O => Error RecursionError
  | S calls =>
      match parse_object (S (tokens_length ts)) calls ts with
      | OutOfFuel => Diverges
      | Raise e => Error e
      | Return root _ => Ok root
      end
  end.

(** [parse_keyvalues(tokenize_keyvalues(data))] on the text of a file. *)
Definition load_keyvalues (unicode_escape : string -> option string)
    (limit : nat) (data : string) : result :=
  match tokenize_keyvalues unicode_escape data with
  | None => Diverges
  | Some ts => parse_keyvalues limit ts
  end.

(** *** Documents as written

    The body of a block as the grammar of the format has it: key and value
    pairs in source order, duplicates included. *)
Fixpoint flatten_node (v : node) : list token :=
  match v with
  | Str s => [TStr s]
  | Dict d =>
      LBRACE ::
      (fix flatten_items (d : dict) : list token :=
         match d with
         | [] => []
         | (k, v') :: d' => TStr k :: flatten_node v' ++ flatten_items d'
         end) d ++ [RBRACE]
  end.

Fixpoint flatten (d : dict) : list token :=
  match d with
  | [] => []
  | (k, v) :: d' => TStr k :: flatten_node v ++ flatten d'
  end.

(** The number of blocks of a body that stand one inside the other, where
    they are most. *)
Fixpoint depth_node (v : node) : nat :=
  match v with
  | Str _ => O
  | Dict d =>
      S ((fix depth_items (d : dict) : nat :=
            match d with
            | [] => O
            | (_, v') :: d' => Nat.max (depth_node v') (depth_items d')
            end) d)
  end.

Fixpoint depth (d : dict) : nat :=
  match d with
  | [] => O
  | (_, v) :: d' => Nat.max (depth_node v) (depth d')
  end.

(** The dict that the assignments [obj[key] = val] build from the pairs
    of a body, taken in source order. *)
Fixpoint build_node (v : node) : node :=
  match v with
  | Str s => Str s
  | Dict d =>
      Dict ((fix build_onto (acc d : dict) : dict :=
               match d with
               | [] => acc
               | (k, v') :: d' => build_onto (dict_set k (build_node v') acc) d'
               end) [] d)
  end.

Fixpoint build_onto (acc d : dict) : dict :=
  match d with
  | [] => acc
  | (k, v) :: d' => build_onto (dict_set k (build_node v) acc) d'
  end.

Definition build (d : dict) : dict := build_onto [] d.

(** A document cut where a key is expected: [frames] are the blocks that
    are open there, outermost first, each with the pairs read in it and
    the key under which the next block was opened; [cur] are the pairs
    read in the innermost block. *)
Fixpoint open_flatten (frames : list (dict * string)) (cur : dict) : list token :=
  match frames with
  | [] => flatten cur
  | (items, k) :: frames' =>
      flatten items ++ TStr k :: LBRACE :: open_flatten frames' cur
  end.

(** The tree of such a document when every open block is closed where the
    document is cut; [acc] is what the outermost dict held before. *)
Fixpoint build_open (acc : dict) (frames : list (dict * string)) (cur : dict) : dict :=
  match frames with
  | [] => build_onto acc cur
  | (items, k) :: frames' =>
      dict_set k (Dict (build_open [] frames' cur)) (build_onto acc items)
  end.

(** The body of such a document when every open block is closed where
    the document is cut. *)
Fixpoint close (frames : list (dict * string)) (cur : dict) : dict :=
  match frames with
  | [] => cur
  | (items, k) :: frames' => items ++ [(k, Dict (close frames' cur))]
  end.

(** The number of blocks of such a document that stand one inside the
    other, where they are most, the open ones included. *)
Fixpoint open_depth (frames : list (dict * string)) (cur : dict) : nat :=
  match frames with
  | [] => depth cur
  | (items, _) :: frames' => Nat.max (depth items) (S (open_depth frames' cur))
  end.

(** The greatest number of blocks that are open at a token of [l], when
    [depth] blocks are open before it. *)
Fixpoint deepest (depth : nat) (l : list token) : nat :=
  match l with
  | [] => depth
  | t :: l' =>
      Nat.max depth
        (deepest match t with
                 | LBRACE => S depth
                 | RBRACE => Nat.pred depth
                 | TStr _ => depth
                 end l')
  end.

(** [k LBRACE] written [n] times: [n] blocks, each opened in the one
    before. *)
Fixpoint nested_blocks (n : nat) : list token :=
  match n with
  | O => []
  | S n' => TStr "k" :: LBRACE :: nested_blocks n'
  end.

(** The depth at which the parser expects a key after it has read [l],
    when it expected a key at [depth] before: a key with a string value
    stays at the depth, a key with an opening brace goes one deeper, a
    closing brace goes one up.  [None] when the parser stops before the
    end of [l], or reads a key last. *)
Fixpoint key_expected_after (depth : nat) (l : list token) : option nat :=
  match l with
  | [] => Some depth
  | TStr _ :: TStr _ :: l' => key_expected_after depth l'
  | TStr _ :: LBRACE :: l' => key_expected_after (S depth) l'
  | RBRACE :: l' =>
      match depth with
      | S depth' => key_expected_after depth' l'
      | O => None
      end
  | _ => None
  end.

(** The last value written under [key] in a body. *)
Fixpoint last_value (key : string) (d : dict) : option node :=
  match d with
  | [] => None
  | (k, v) :: d' =>
      match last_value key d' with
      | Some v' => Some v'
      | None => if String.eqb k key then Some v else None
      end
  end.

End KeyValues.

Import KeyValues.

(** ** steam_library.py: locator, extractor, reconciler *)

Module SteamLibrary.

(** *** Values of the interpreter that reach this code *)

(** A value of the JSON object of an owned game.  Of a list, a dict or a
    float this code only asks whether it is true and what [str] makes of
    it. *)
Inductive pyval : Type :=
  | PNone
  | PBool (b : bool)
  | PInt (n : Z)
  | PStr (s : string)
  | POther (truthy : bool) (text : string).

Definition pyval_truthy (v : pyval) : bool :=
  match v with
  | PNone => false
  | PBool b => b
  | PInt n => negb (n =? 0)
  | PStr s => negb (String.eqb s EmptyString)
  | POther t _ => t
  end.

Definition pyval_str (v : pyval) : string :=
  match v with
  | PNone => "None"
  | PBool true => "True"
  | PBool false => "False"
  | PInt n => Py.str_of_int n
  | PStr s => s
  | POther _ text => text
  end.

(** [og.get(key)]: a missing key gives [None]. *)
Definition og_get (key : string) (og : list (string * pyval)) : pyval :=
  match dict_get key og with
  | Some v => v
  | None => PNone
  end.

Section Values.

(** What [repr] writes between the braces of a non-empty dict. *)
Variable repr_items : dict -> string.

(** [str(x)] for [x = d.get(key)] of a parsed dict. *)
Definition node_str (x : option node) : string :=
  match x with
  | None => "None"
  | Some (Str s) => s
  | Some (Dict d) => String.append "{" (String.append (repr_items d) "}")
  end.

(** [x or alt], seen through [str]: an absent key, an empty string and an
    empty dict are false. *)
Definition node_truthy (x : option node) : bool :=
  match x with
  | None => false
  | Some (Str s) => negb (String.eqb s EmptyString)
  | Some (Dict d) => match d with [] => false | _ => true end
  end.

Definition str_or (x : option node) (alt : string) : string :=
  if node_truthy x then node_str x else alt.

(** [_int(x, default)] *)
Definition _int (x : option node) (default : Z) : Z :=
  match Py.int_of_str (node_str x) with
  | Some n => n
  | None => default
  end.

End Values.

(** *** The library locator *)

Inductive file : Type :=
  | Missing
  | Unreadable
  | Content (data : string).

(** What [discover_library_paths] asks of its surroundings.  A [Path] is
    held as its string. *)
Record filesystem : Type := {
  (** [Path(p)]: the form in which pathlib keeps the path *)
  path_of : string -> string;
  (** [p.expanduser()] *)
  expanduser : string -> string;
  (** [(p / "steamapps").is_dir()] *)
  has_steamapps : string -> bool;
  (** the file [p / "steamapps" / "libraryfolders.vdf"] *)
  libraryfolders_vdf : string -> file;
  (** the files that [(p / "steamapps").glob("appmanifest_*.acf")] yields,
      in the order in which the file system lists them *)
  manifests : string -> list file;
  (** where [p] leads once symbolic links and dot-dot are followed; the
      code never asks *)
  resolved : string -> string
}.

Section Locator.

Variable unicode_escape : string -> option string.
(** The calls of [parse_object] that the stack has room for where a file
    is loaded. *)
Variable limit : nat.
Variable fs : filesystem.

(** The local [add(p)], on the list [libs]. *)
Definition add (libs : list string) (p : string) : list string :=
  let p := expanduser fs p in
  if has_steamapps fs p && negb (bool_decide (p ∈ libs))
  then libs ++ [p] else libs.

(** One turn of [for _k, v in root.items()]. *)
Definition add_listed (libs : list string) (kv : string * node) : list string :=
  match snd kv with
  | Dict v =>
      match dict_get "path" v with
      | Some (Str p) =>
          if negb (String.eqb p EmptyString) then add libs (path_of fs p) else libs
      | _ => libs
      end
  | Str _ => libs
  end.

Definition discover_library_paths (steam_root : string) : list string :=
  let libs := add [] steam_root in
  match libraryfolders_vdf fs steam_root with
  | Missing => libs
  | Unreadable => libs
  | Content data =>
      match load_keyvalues unicode_escape limit data with
      | Ok kv =>
          match dict_get "libraryfolders" kv with
          | Some (Dict root) => fold_left add_listed root libs
          | _ => libs
          end
      | _ => libs
      end
  end.



End Locator.

(** *** Games *)

Record Game : Type := mkGame {
  appid : Z;
  name : string;
  installed : bool;
  library_path : string;
  installdir : string;
  state_flags : Z;
  size_on_disk : Z;
  cover : string
}.

(** [g.name = s] *)
Definition set_name (s : string) (g : Game) : Game :=
  mkGame (appid g) s (installed g) (library_path g) (installdir g)
         (state_flags g) (size_on_disk g) (cover g).

(** The synthesized name [f"App {appid}"]. *)
Definition placeholder (appid : Z) : string :=
  String.append "App " (Py.str_of_int appid).

(** [a or b] on strings. *)
Definition or_str (a b : string) : string :=
  if String.eqb a EmptyString then b else a.

Section Extractor.

Variable repr_items : dict -> string.
(** [find_cover(steam_root, appid)], a look at the file system. *)
Variable find_cover : Z -> string.

(** The body of the loop of [parse_installed_games] for one manifest that
    was parsed to [kv] in the library [lib]: the [Game] it stores under its
    appid, or nothing when it goes on to the next file. *)
Definition game_of_manifest (lib : string) (kv : dict) : option Game :=
  match dict_get "AppState" kv with
  | Some (Dict appstate) =>
      let appid := _int repr_items (dict_get "appid" appstate) 0 in
      if appid =? 0 then None
      else
        let name :=
          or_str (Py.strip (str_or repr_items (dict_get "name" appstate) ""))
                 (placeholder appid) in
        let installdir :=
          Py.strip (str_or repr_items (dict_get "installdir" appstate) "") in
        let state_flags := _int repr_items (dict_get "StateFlags" appstate) 0 in
        let size_on_disk := _int repr_items (dict_get "SizeOnDisk" appstate) 0 in
        Some (mkGame appid name true lib installdir state_flags size_on_disk
                     (find_cover appid))
  | _ => None
  end.

(** A manifest from its text: a file that does not parse gives nothing. *)
Definition game_of_text (unicode_escape : string -> option string)
    (limit : nat) (lib : string) (data : string) : option Game :=
  match load_keyvalues unicode_escape limit data with
  | Ok kv => game_of_manifest lib kv
  | _ => None
  end.

End Extractor.

(** *** The reconciler *)

(** The objects of class [Game]: a reference is an index of the store. *)
Abbreviation store := (list Game).

(** A [Dict[int, V]] in insertion order. *)
Fixpoint idict_get {V : Type} (key : Z) (d : list (Z * V)) : option V :=
  match d with
  | [] => None
  | (k, v) :: d' => if k =? key then Some v else idict_get key d'
  end.

(** [d[key] = val] *)
Fixpoint idict_set {V : Type} (key : Z) (val : V) (d : list (Z * V)) : list (Z * V) :=
  match d with
  | [] => [(key, val)]
  | (k, v) :: d' =>
      if k =? key then (k, val) :: d' else (k, v) :: idict_set key val d'
  end.

Section Scan.

Variable unicode_escape : string -> option string.
Variable limit : nat.
Variable repr_items : dict -> string.
Variable find_cover : Z -> string.
Variable fs : filesystem.

(** One turn of [for mf in steamapps.glob(...)]: a file that cannot be
    read or parsed, or that holds no valid appid, is passed over; otherwise
    a new [Game] is stored under its appid. *)
Definition scan_manifest (lib : string) (st : store * list (Z * nat)) (mf : file)
  : store * list (Z * nat) :=
  match mf with
  | Content data =>
      match game_of_text repr_items find_cover unicode_escape limit lib data with
      | Some g => (fst st ++ [g], idict_set (appid g) (length (fst st)) (snd st))
      | None => st
      end
  | _ => st
  end.

(** One turn of [for lib in libs]. *)
Definition scan_library (st : store * list (Z * nat)) (lib : string)
  : store * list (Z * nat) :=
  if has_steamapps fs lib
  then fold_left (scan_manifest lib) (manifests fs lib) st
  else st.

(** [parse_installed_games(steam_root, libs)], in the store [σ]: the store
    it leaves and the dict [games]. *)
Definition parse_installed_games (σ : store) (libs : list string)
  : store * list (Z * nat) :=
  fold_left scan_library libs (σ, []).

End Scan.

(** [sorted(l, key=key)]: the sort is stable and compares keys with [<]. *)
Section Sorted.

Context {A : Type}.
Variable key : A -> string.

Fixpoint insert_by (x : A) (l : list A) : list A :=
  match l with
  | [] => [x]
  | y :: l' =>
      if String.ltb (key y) (key x) then y :: insert_by x l' else x :: y :: l'
  end.

Fixpoint sorted (l : list A) : list A :=
  match l with
  | [] => []
  | x :: l' => insert_by x (sorted l')
  end.

(** The key of [x] is not after the key of [y]. *)
Definition key_le (x y : A) : Prop := String.leb (key x) (key y) = true.

End Sorted.

Section Reconciler.

(** [str.casefold] *)
Variable casefold : string -> string.
Variable find_cover : Z -> string.

Definition is_str (v : pyval) : bool :=
  match v with PStr _ => true | _ => false end.

(** The name of the object behind a reference. *)
Definition name_at (σ : store) (l : nat) : string :=
  match σ !! l with
  | Some g => name g
  | None => EmptyString
  end.

(** One turn of [for appid, og in owned.items()], on the store and the
    dict [merged]. *)
Definition merge_entry (st : store * list (Z * nat))
    (entry : Z * list (string * pyval)) : store * list (Z * nat) :=
  let '(σ, merged) := st in
  let '(appid, og) := entry in
  match idict_get appid merged with
  | Some l =>
      if Py.startswith (name_at σ l) "App " && is_str (og_get "name" og)
      then (alter (set_name (pyval_str (og_get "name" og))) l σ, merged)
      else (σ, merged)
  | None =>
      let v := og_get "name" og in
      let name :=
        or_str (Py.strip (pyval_str (if pyval_truthy v then v else PStr "")))
               (placeholder appid) in
      ((σ ++ [mkGame appid name false "" "" 0 0 (find_cover appid)])%list,
       (merged ++ [(appid, length σ)])%list)
  end.

(** [merge_games(installed, owned, steam_root)] in the store [σ]: the
    store it leaves and the list of references it returns.  [dict(installed)]
    copies the references, not the objects. *)
Definition merge_games (σ : store) (installed : list (Z * nat))
    (owned : list (Z * list (string * pyval))) : store * list nat :=
  let '(σ', merged) := fold_left merge_entry owned (σ, installed) in
  (σ', sorted (fun l => casefold (name_at σ' l)) merged.*2).

End Reconciler.

(** Every reference of the dict is to an object of the store, and no two
    keys share an object. *)
Definition refs_ok (σ : store) (merged : list (Z * nat)) : Prop :=
  NoDup merged.*2 /\ Forall (fun al => (al.2 < length σ)%nat) merged.

(** A dict of games as [parse_installed_games] builds it: every key is the
    appid of its own object, and the object is marked installed. *)
Definition games_ok (σ : store) (games : list (Z * nat)) : Prop :=
  NoDup games.*1 /\ refs_ok σ games
  /\ forall a l, (a, l) ∈ games ->
       exists g, σ !! l = Some g /\ appid g = a /\ installed g = true.

(** The objects behind a list of references. *)
Definition games_at (σ : store) (ls : list nat) : list Game :=
  omap (fun l => σ !! l) ls.

(** ASCII letters to lower case: what [casefold] does to ASCII text. *)
Definition lower_ascii (c : ascii) : ascii :=
  let n := nat_of_ascii c in
  if ((65 <=? n)%nat && (n <=? 90)%nat)%bool then ascii_of_nat (n + 32) else c.

Fixpoint casefold_ascii (s : string) : string :=
  match s with
  | EmptyString => EmptyString
  | String c s' => String (lower_ascii c) (casefold_ascii s')
  end.

End SteamLibrary.

(** ** steam_downloads.py: the download-progress projection *)

Module SteamDownloads.

Import SteamLibrary.

Record entry : Type := mkEntry {
  e_appid : Z;
  e_name : string;
  e_library_path : string;
  bytes_downloaded : Z;
  bytes_to_download : Z;
  bytes_to_stage : Z;
  total_bytes : Z;
  progress : spec_float;
  e_state_flags : Z
}.

(** [max(0.0, min(1.0, x))] *)
Definition clamp01 (x : spec_float) : spec_float :=
  PyFloat.max PyFloat.zero (PyFloat.min PyFloat.one x).

(** What [_maybe_download_entry] does: it returns [None] or an entry, or
    the conversion of a byte count to a float raises. *)
Inductive download : Type :=
  | OverflowError
  | NoEntry
  | AnEntry (e : entry).

Section Downloads.

Variable repr_items : dict -> string.

(** [_maybe_download_entry(appstate, library_path)].  In
    [bytes_downloaded / float(total)] the call of [float] comes first, then
    the division converts [bytes_downloaded]; either conversion may
    raise. *)
Definition _maybe_download_entry (appstate : dict) (library_path : string)
  : download :=
  let appid := _int repr_items (dict_get "appid" appstate) 0 in
  if appid =? 0 then NoEntry
  else
    let name := str_or repr_items (dict_get "name" appstate) (placeholder appid) in
    let bytes_downloaded := _int repr_items (dict_get "BytesDownloaded" appstate) 0 in
    let bytes_to_download := _int repr_items (dict_get "BytesToDownload" appstate) 0 in
    let bytes_to_stage := _int repr_items (dict_get "BytesToStage" appstate) 0 in
    let state_flags := _int repr_items (dict_get "StateFlags" appstate) 0 in
    if (bytes_to_download <=? 0) && (bytes_to_stage <=? 0) then NoEntry
    else
      let total := bytes_downloaded + Z.max bytes_to_download 0 in
      let entry_with (progress : spec_float) :=
        mkEntry appid name library_path bytes_downloaded bytes_to_download
                bytes_to_stage total progress state_flags in
      if 0 <? total then
        match PyFloat.of_int total with
        | None => OverflowError
        | Some ftotal =>
            match PyFloat.of_int bytes_downloaded with
            | None => OverflowError
            | Some fdownloaded =>
                AnEntry (entry_with (clamp01 (PyFloat.div fdownloaded ftotal)))
            end
        end
      else AnEntry (entry_with PyFloat.zero).

End Downloads.

End SteamDownloads.

Import SteamLibrary SteamDownloads.

(** ** More of the scripts *)

(** *** Text of a token list *)

Module KeyValuesText.

(** A string that stands between quotes as it is: ASCII, with no quote
    and no backslash in it. *)
Fixpoint plain (s : string) : bool :=
  match s with
  | EmptyString => true
  | String c s' =>
      negb (Ascii.eqb c quote) && negb (Ascii.eqb c backslash)
      && (nat_of_ascii c <? 128)%nat && plain s'
  end.

Definition plain_token (t : token) : bool :=
  match t with
  | TStr s => plain s
  | _ => true
  end.

(** A token as a file has it: a string between quotes, a brace. *)
Definition render_token (t : token) : string :=
  match t with
  | TStr s => quoted s
  | LBRACE => "{"
  | RBRACE => "}"
  end.

(** The tokens of [l] with a blank after each. *)
Definition render (l : list token) : string := unwords (render_token <$> l).

(** No dict of the tree holds a key twice. *)
Fixpoint unique_keys (v : node) : Prop :=
  match v with
  | Str _ => True
  | Dict d =>
      NoDup (map fst d)
      /\ (fix all (d : dict) : Prop :=
            match d with
            | [] => True
            | (_, v') :: d' => unique_keys v' /\ all d'
            end) d
  end.

End KeyValuesText.

(** *** steam_library.py: the root, the covers, the owned games *)

Module SteamRoot.

(** What [add] keeps of the list [libs]: no path twice, every path with a
    steamapps directory, and what was in the list stays in front. *)
Definition libs_ok (fs : filesystem) (first libs : list string) : Prop :=
  NoDup libs /\ Forall (fun p => has_steamapps fs p = true) libs
  /\ exists more, libs = first ++ more.

(** What the scan of the manifests keeps for the objects of its dict. *)
Definition scanned (find_cover : Z -> string) (fs : filesystem)
    (libs : list string) (st : store * list (Z * nat)) : Prop :=
  games_ok st.1 st.2
  /\ forall a l g,
       (a, l) ∈ st.2 -> st.1 !! l = Some g ->
       a <> 0 /\ library_path g ∈ libs
       /\ has_steamapps fs (library_path g) = true
       /\ cover g = find_cover a.

Section Root.

Variable fs : filesystem.
(** [os.environ.get("STEAM_ROOT")] *)
Variable env : option string.
(** [p.exists()] *)
Variable path_exists : string -> bool.

(** [Path(s).expanduser()] *)
Definition user_path (s : string) : string := expanduser fs (path_of fs s).

(** The list [candidates]; [None] is the entry for a variable that is not
    set or is empty. *)
Definition candidates : list (option string) :=
  [ match env with
    | Some e => if String.eqb e EmptyString then None else Some (user_path e)
    | None => None
    end;
    Some (user_path "~/.steam/root");
    Some (user_path "~/.local/share/Steam");
    Some (user_path "~/.steam/steam") ].

(** [find_steam_root()]; [None] stands for [FileNotFoundError]. *)
Definition find_steam_root : option string :=
  match List.find (has_steamapps fs) (omap id candidates) with
  | Some c => Some c
  | None => List.find path_exists (omap id candidates)
  end.

End Root.

Section Cover.

(** [p / name], as a string *)
Variable child : string -> string -> string.
(** [p.is_dir()] and [p.exists()] *)
Variable is_dir : string -> bool.
Variable path_exists : string -> bool.

(** The list [candidates] of [find_cover]. *)
Definition cover_candidates (steam_root : string) (appid : Z) : list string :=
  let cache := child (child steam_root "appcache") "librarycache" in
  let id := Py.str_of_int appid in
  [ child cache (String.append id "_library_600x900.jpg");
    child cache (String.append id "_library_600x900.png");
    child cache (String.append id "_library_capsule.jpg");
    child cache (String.append id "_library_capsule.png");
    child cache (String.append id "_header.jpg");
    child cache (String.append id "_header.png") ].

(** [find_cover(steam_root, appid)] *)
Definition find_cover (steam_root : string) (appid : Z) : string :=
  if is_dir (child (child steam_root "appcache") "librarycache")
  then match List.find path_exists (cover_candidates steam_root appid) with
       | Some c => c
       | None => EmptyString
       end
  else EmptyString.

End Cover.

(** [_int(x, default)] for a value of a JSON object. *)
Definition _int_json (x : pyval) (default : Z) : Z :=
  match Py.int_of_str (pyval_str x) with
  | Some n => n
  | None => default
  end.

(** One turn of [for g in games] in [fetch_owned_games_from_webapi];
    [None] is an element that is no dict. *)
Definition owned_entry (out : list (Z * list (string * pyval)))
    (g : option (list (string * pyval))) : list (Z * list (string * pyval)) :=
  match g with
  | None => out
  | Some g =>
      let appid := _int_json (og_get "appid" g) 0 in
      if appid =? 0 then out else idict_set appid g out
  end.

(** The dict [out] that [fetch_owned_games_from_webapi] builds from the
    list [games] of the response. *)
Definition owned_of_games (games : list (option (list (string * pyval))))
  : list (Z * list (string * pyval)) :=
  fold_left owned_entry games [].

End SteamRoot.

(** *** A stable sort by any order *)

Section SortLt.

Context {A : Type}.
(** [x < y] on the keys of [x] and [y] *)
Variable lt : A -> A -> bool.

Fixpoint insert_lt (x : A) (l : list A) : list A :=
  match l with
  | [] => [x]
  | y :: l' => if lt y x then y :: insert_lt x l' else x :: y :: l'
  end.

(** [l.sort(key=...)] *)
Fixpoint sort_lt (l : list A) : list A :=
  match l with
  | [] => []
  | x :: l' => insert_lt x (sort_lt l')
  end.

End SortLt.

(** *** steam_downloads.py: the list of downloads *)

Module DownloadsView.

(** [k1 < k2] on the tuples of a float and a string: the first items that
    are not equal decide. *)
Definition key_lt (k1 k2 : spec_float * string) : bool :=
  if SFeqb (fst k1) (fst k2) then String.ltb (snd k1) (snd k2)
  else SFltb (fst k1) (fst k2).

(** A [for] loop over [l] whose turns may raise: [None] when one did. *)
Fixpoint for_each {A B : Type} (turn : B -> A -> option B) (l : list A) (acc : B)
  : option B :=
  match l with
  | [] => Some acc
  | x :: l' =>
      match turn acc x with
      | Some acc' => for_each turn l' acc'
      | None => None
      end
  end.

(** What [generate()] does: [find_steam_root] raises, the conversion of a
    byte count to a float raises, or it returns the list of downloads. *)
Inductive generated : Type :=
  | FileNotFoundError
  | FloatOverflowError
  | Downloads (downloads : list entry).

Section Generate.

Variable unicode_escape : string -> option string.
Variable limit : nat.
Variable repr_items : dict -> string.
Variable casefold : string -> string.
Variable fs : filesystem.

(** [_extract_appstate(manifest)] *)
Definition _extract_appstate (mf : file) : option dict :=
  match mf with
  | Content data =>
      match load_keyvalues unicode_escape limit data with
      | Ok kv =>
          match dict_get "AppState" kv with
          | Some (Dict appstate) => Some appstate
          | _ => None
          end
      | _ => None
      end
  | _ => None
  end.

(** One turn of [for mf in steamapps.glob(...)] in [generate]: an empty
    [AppState] is passed over as a missing one is.  What
    [_maybe_download_entry] raises is not caught. *)
Definition collect_manifest (lib : string) (downloads : list entry) (mf : file)
  : option (list entry) :=
  match _extract_appstate mf with
  | Some (kv :: appstate) =>
      match _maybe_download_entry repr_items (kv :: appstate) lib with
      | OverflowError => None
      | NoEntry => Some downloads
      | AnEntry e => Some (downloads ++ [e])
      end
  | _ => Some downloads
  end.

(** The manifest [mf] of the library [lib] gives the entry [e]; it makes
    [_maybe_download_entry] raise. *)
Definition entry_of (lib : string) (mf : file) (e : entry) : Prop :=
  exists kv appstate,
    _extract_appstate mf = Some (kv :: appstate)
    /\ _maybe_download_entry repr_items (kv :: appstate) lib = AnEntry e.

Definition overflows (lib : string) (mf : file) : Prop :=
  exists kv appstate,
    _extract_appstate mf = Some (kv :: appstate)
    /\ _maybe_download_entry repr_items (kv :: appstate) lib = OverflowError.

(** The same of a library with a steamapps directory and one of its
    manifests. *)
Definition library_entry (lib : string) (e : entry) : Prop :=
  has_steamapps fs lib = true
  /\ exists mf, mf ∈ manifests fs lib /\ entry_of lib mf e.

Definition library_overflows (lib : string) : Prop :=
  has_steamapps fs lib = true
  /\ exists mf, mf ∈ manifests fs lib /\ overflows lib mf.

(** One turn of [for lib in libs]. *)
Definition collect_library (downloads : list entry) (lib : string)
  : option (list entry) :=
  if has_steamapps fs lib
  then for_each (collect_manifest lib) (manifests fs lib) downloads
  else Some downloads.

(** The entries that the loops add for one manifest and for one library,
    when no turn raises. *)
Definition manifest_entry (lib : string) (mf : file) : option entry :=
  match _extract_appstate mf with
  | Some (kv :: appstate) =>
      match _maybe_download_entry repr_items (kv :: appstate) lib with
      | AnEntry e => Some e
      | _ => None
      end
  | _ => None
  end.

Definition library_entries (lib : string) : list entry :=
  if has_steamapps fs lib
  then omap (manifest_entry lib) (manifests fs lib)
  else [].

(** The key of the sort: [(-progress, name.casefold())]. *)
Definition download_key (d : entry) : spec_float * string :=
  (SFopp (progress d), casefold (e_name d)).

(** The list [downloads] of [generate()], for the root that
    [find_steam_root()] returned; [None] when a conversion to float
    raised. *)
Definition downloads_of (steam_root : string) : option (list entry) :=
  sort_lt (fun a b => key_lt (download_key a) (download_key b))
    <$> for_each collect_library
          (discover_library_paths unicode_escape limit fs steam_root) [].

(** [generate()], as far as its list of downloads goes. *)
Definition generate (env : option string) (path_exists : string -> bool)
  : generated :=
  match SteamRoot.find_steam_root fs env path_exists with
  | None => FileNotFoundError
  | Some steam_root =>
      match downloads_of steam_root with
      | None => FloatOverflowError
      | Some downloads => Downloads downloads
      end
  end.

End Generate.

End DownloadsView.

(** *** storage_report.py *)

Module StorageReport.

(** The fields of [os.statvfs] that the report reads. *)
Record statvfs : Type := {
  f_frsize : Z;
  f_blocks : Z;
  f_bavail : Z;
  f_bfree : Z
}.

(** [_statvfs_bytes(path)], from the result of [os.statvfs]: total, used
    and free bytes. *)
Definition _statvfs_bytes (st : statvfs) : Z * Z * Z :=
  let total := f_frsize st * f_blocks st in
  let free := f_frsize st * f_bavail st in
  let used := total - f_frsize st * f_bfree st in
  (total, used, free).

Record library : Type := {
  path : string;
  fs_total : Z;
  fs_used : Z;
  fs_free : Z;
  steam_bytes : Z;
  steam_breakdown : list (string * Z);
  other_bytes : Z
}.

Section Report.

Variable unicode_escape : string -> option string.
Variable limit : nat.
Variable fs : filesystem.
(** [os.statvfs(str(lib))] *)
Variable statvfs_of : string -> statvfs.
(** [_du_bytes(lib / "steamapps" / name)] *)
Variable _du_bytes : string -> string -> Z.

(** The entry that [generate] appends for the library [lib]. *)
Definition library_report (lib : string) : library :=
  let '(total, used, free) := _statvfs_bytes (statvfs_of lib) in
  let breakdown :=
    (fun name => (name, _du_bytes lib name))
      <$> ["common"; "compatdata"; "shadercache"; "workshop"; "downloading"] in
  let steam := foldr Z.add 0 (snd <$> breakdown) in
  {| path := lib; fs_total := total; fs_used := used; fs_free := free;
     steam_bytes := steam; steam_breakdown := breakdown;
     other_bytes := Z.max 0 (used - steam) |}.

(** The list [libraries] of [generate()], for the root that
    [find_steam_root()] returned. *)
Definition libraries_of (steam_root : string) : list library :=
  library_report <$> discover_library_paths unicode_escape limit fs steam_root.

End Report.

End StorageReport.

(** * Properties *)

(** ** The tree parser *)


Lemma prepend_app (l1 l2 : list token) (ts : tokens) :
  prepend (l1 ++ l2) ts = prepend l1 (prepend l2 ts).
Proof. induction l1 as [|t l1 IH]; simpl; [reflexivity | by rewrite IH]. Qed.

Lemma prepend_TEnd (l : list token) : prepend l TEnd = of_list l.
Proof. induction l as [|t l IH]; simpl; [reflexivity | by rewrite IH]. Qed.

(** More fuel does not change an outcome. *)
Lemma parse_object_loop_mono (f : nat) :
  forall (c : nat) (obj : dict) (ts : tokens) (out : outcome),
    parse_object_loop f c obj ts = out -> out <> OutOfFuel ->
    forall f', (f <= f')%nat -> parse_object_loop f' c obj ts = out.
Proof.
  induction f as [|f IH]; intros c obj ts out Hrun Hout f' Hle.
  - simpl in Hrun. congruence.
  - destruct f' as [|f']; [lia|].
    assert (Hle' : (f <= f')%nat) by lia.
    simpl in *.
    destruct ts as [| e | [key| |] rest]; try exact Hrun.
    destruct rest as [| e | [val| |] rest']; try exact Hrun.
    + eapply IH; eauto.
    + destruct c as [|c]; [exact Hrun|].
      destruct (parse_object_loop f c [] rest') as [| e | sub rest''] eqn:Hin.
      * congruence.
      * rewrite (IH _ _ _ _ Hin ltac:(discriminate) f' Hle'). exact Hrun.
      * rewrite (IH _ _ _ _ Hin ltac:(discriminate) f' Hle').
        eapply IH; eauto.
Qed.

(** With more fuel than tokens the parser comes to an end, and what it
    leaves unread is no longer than what it was given. *)
Lemma parse_object_loop_total (f : nat) :
  forall (c : nat) (obj : dict) (ts : tokens),
    (tokens_length ts < f)%nat ->
    match parse_object_loop f c obj ts with
    | OutOfFuel => False
    | Raise _ => True
    | Return _ rest => (tokens_length rest <= tokens_length ts)%nat
    end.
Proof.
  induction f as [|f IH]; intros c obj ts Hlen; [lia|].
  simpl. destruct ts as [| e | [key| |] rest]; simpl in *; try done; try lia.
  destruct rest as [| e | [val| |] rest']; simpl in *; try done.
  - specialize (IH c (dict_set key (Str val) obj) rest' ltac:(lia)).
    destruct (parse_object_loop f c _ rest'); try done. lia.
  - destruct c as [|c]; [done|].
    pose proof (IH c [] rest' ltac:(lia)) as Hin.
    destruct (parse_object_loop f c [] rest') as [| e | sub rest'']; try done.
    specialize (IH (S c) (dict_set key (Dict sub) obj) rest'' ltac:(lia)).
    destruct (parse_object_loop f (S c) _ rest''); try done. lia.
Qed.

(** An outcome reached with some fuel is the outcome of
    [parse_keyvalues]. *)
Lemma parse_keyvalues_of_run (f c : nat) (ts : tokens) (out : outcome) :
  parse_object_loop f c [] ts = out -> out <> OutOfFuel ->
  parse_keyvalues (S c) ts =
    match out with
    | OutOfFuel => Diverges
    | Raise e => Error e
    | Return root _ => Ok root
    end.
Proof.
  intros Hrun Hout. unfold parse_keyvalues, parse_object.
  destruct (Nat.le_ge_cases f (S (tokens_length ts))) as [Hle|Hle].
  - by rewrite (parse_object_loop_mono f _ _ _ _ Hrun Hout _ Hle).
  - pose proof (parse_object_loop_total (S (tokens_length ts)) c [] ts ltac:(lia)) as Htot.
    destruct (parse_object_loop (S (tokens_length ts)) c [] ts) eqn:Hdef; [done| |];
      pose proof (parse_object_loop_mono _ _ _ _ _ Hdef ltac:(discriminate) f Hle) as Hf;
      rewrite Hrun in Hf; rewrite Hf; reflexivity.
Qed.

(** [parse_keyvalues] always comes to an end. *)
Lemma parse_keyvalues_total (limit : nat) (ts : tokens) :
  parse_keyvalues limit ts <> Diverges.
Proof.
  unfold parse_keyvalues, parse_object. destruct limit as [|c]; [done|].
  pose proof (parse_object_loop_total (S (tokens_length ts)) c [] ts ltac:(lia)).
  destruct (parse_object_loop _ _ _ _); done.
Qed.

(** More room on the stack does not change an outcome other than
    [RecursionError]. *)
Lemma parse_object_loop_room (f : nat) :
  forall (c : nat) (obj : dict) (ts : tokens) (out : outcome),
    parse_object_loop f c obj ts = out -> out <> Raise RecursionError ->
    forall c', (c <= c')%nat -> parse_object_loop f c' obj ts = out.
Proof.
  induction f as [|f IH]; intros c obj ts out Hrun Hout c' Hle; [exact Hrun|].
  simpl in *.
  destruct ts as [| e | [key| |] rest]; try exact Hrun.
  destruct rest as [| e | [val| |] rest']; try exact Hrun.
  - eapply IH; eauto.
  - destruct c as [|c]; [congruence|]. destruct c' as [|c']; [lia|].
    destruct (parse_object_loop f c [] rest') as [| e | sub rest''] eqn:Hin.
    + by rewrite (IH _ _ _ _ Hin ltac:(discriminate) c' ltac:(lia)).
    + rewrite (IH _ _ _ _ Hin ltac:(congruence) c' ltac:(lia)). exact Hrun.
    + rewrite (IH _ _ _ _ Hin ltac:(discriminate) c' ltac:(lia)).
      eapply IH; eauto.
Qed.

Lemma parse_keyvalues_room (limit limit' : nat) (ts : tokens) (r : result) :
  parse_keyvalues limit ts = r -> r <> Error RecursionError ->
  (limit <= limit')%nat -> parse_keyvalues limit' ts = r.
Proof.
  unfold parse_keyvalues, parse_object. intros Hrun Hr Hle.
  destruct limit as [|c]; [congruence|]. destruct limit' as [|c']; [lia|].
  destruct (parse_object_loop _ c [] ts) as [| e | root rest] eqn:Hin.
  - by rewrite (parse_object_loop_room _ _ _ _ _ Hin ltac:(discriminate) c'
                  ltac:(lia)).
  - rewrite (parse_object_loop_room _ _ _ _ _ Hin ltac:(congruence) c'
               ltac:(lia)).
    exact Hrun.
  - by rewrite (parse_object_loop_room _ _ _ _ _ Hin ltac:(discriminate) c'
                  ltac:(lia)).
Qed.

Lemma load_keyvalues_room (unicode_escape : string -> option string)
    (limit limit' : nat) (data : string) (kv : dict) :
  load_keyvalues unicode_escape limit data = Ok kv -> (limit <= limit')%nat ->
  load_keyvalues unicode_escape limit' data = Ok kv.
Proof.
  unfold load_keyvalues.
  destruct (tokenize_keyvalues unicode_escape data) as [ts|]; [|discriminate].
  intros Hrun Hle. by apply (parse_keyvalues_room limit limit' ts).
Qed.

(** Induction on a body and on the values in it. *)
Section dict_node_ind.
Variable P : node -> Prop.
Variable Q : dict -> Prop.
Hypothesis HStr : forall s, P (Str s).
Hypothesis HDict : forall d, Q d -> P (Dict d).
Hypothesis HNil : Q [].
Hypothesis HCons : forall k v d, P v -> Q d -> Q ((k, v) :: d).

Fixpoint node_dict_ind (v : node) : P v :=
  match v with
  | Str s => HStr s
  | Dict d =>
      HDict d
        ((fix go (d : dict) : Q d :=
            match d with
            | [] => HNil
            | (k, v') :: d' => HCons k v' d' (node_dict_ind v') (go d')
            end) d)
  end.

Lemma dict_node_ind (d : dict) : Q d.
Proof.
  induction d as [|[k v] d IH]; [exact HNil|].
  apply HCons; [apply node_dict_ind | exact IH].
Qed.
End dict_node_ind.

Lemma flatten_node_Dict (d : dict) :
  flatten_node (Dict d) = LBRACE :: flatten d ++ [RBRACE].
Proof. reflexivity. Qed.

Lemma build_node_Dict (d : dict) : build_node (Dict d) = Dict (build d).
Proof. reflexivity. Qed.

Lemma depth_node_Dict (d : dict) : depth_node (Dict d) = S (depth d).
Proof. reflexivity. Qed.

Lemma parse_object_loop_nested (f c : nat) (key : string) (obj : dict)
    (rest : tokens) :
  parse_object_loop (S f) (S c) obj (TYield (TStr key) (TYield LBRACE rest)) =
    match parse_object_loop f c [] rest with
    | Return sub rest' => parse_object_loop f (S c) (dict_set key (Dict sub) obj) rest'
    | other => other
    end.
Proof. reflexivity. Qed.

(** Reading the tokens of a value and of a body that are no deeper than
    the stack has room for does the assignments of [build_onto]. *)
Lemma parse_flatten_both :
  (forall (v : node) (key : string) (c : nat) (acc : dict) (rest : tokens)
          (f : nat) (out : outcome),
      (depth_node v <= c)%nat ->
      parse_object_loop f c (dict_set key (build_node v) acc) rest = out ->
      out <> OutOfFuel ->
      exists f', parse_object_loop f' c acc
                   (TYield (TStr key) (prepend (flatten_node v) rest)) = out)
  /\ (forall (d : dict) (c : nat) (acc : dict) (rest : tokens) (f : nat)
             (out : outcome),
        (depth d <= c)%nat ->
        parse_object_loop f c (build_onto acc d) rest = out ->
        out <> OutOfFuel ->
        exists f', parse_object_loop f' c acc (prepend (flatten d) rest) = out).
Proof.
  set (P := fun v : node =>
              forall (key : string) (c : nat) (acc : dict) (rest : tokens)
                     (f : nat) (out : outcome),
                (depth_node v <= c)%nat ->
                parse_object_loop f c (dict_set key (build_node v) acc) rest = out ->
                out <> OutOfFuel ->
                exists f', parse_object_loop f' c acc
                             (TYield (TStr key) (prepend (flatten_node v) rest))
                           = out).
  set (Q := fun d : dict =>
              forall (c : nat) (acc : dict) (rest : tokens) (f : nat)
                     (out : outcome),
                (depth d <= c)%nat ->
                parse_object_loop f c (build_onto acc d) rest = out ->
                out <> OutOfFuel ->
                exists f', parse_object_loop f' c acc (prepend (flatten d) rest)
                           = out).
  assert (HStr : forall s, P (Str s)).
  { intros s key c acc rest f out _ Hrun Hout. exists (S f). exact Hrun. }
  assert (HDict : forall d, Q d -> P (Dict d)).
  { intros d IHd key c acc rest f out Hdepth Hrun Hout.
    rewrite depth_node_Dict in Hdepth. destruct c as [|c]; [lia|].
    rewrite build_node_Dict in Hrun. rewrite flatten_node_Dict.
    destruct (IHd c [] (TYield RBRACE rest) 1%nat (Return (build d) rest))
      as [f1 Hin]; [lia | reflexivity | discriminate |].
    exists (S (Nat.max f1 f)). cbn [prepend]. rewrite prepend_app. cbn [prepend].
    rewrite parse_object_loop_nested.
    rewrite (parse_object_loop_mono _ _ _ _ _ Hin ltac:(discriminate)
               (Nat.max f1 f) ltac:(lia)).
    apply (parse_object_loop_mono _ _ _ _ _ Hrun Hout). lia. }
  assert (HNil : Q []).
  { intros c acc rest f out _ Hrun Hout. exists f. exact Hrun. }
  assert (HCons : forall k v d, P v -> Q d -> Q ((k, v) :: d)).
  { intros k v d IHv IHd c acc rest f out Hdepth Hrun Hout.
    cbn [depth] in Hdepth. cbn [build_onto] in Hrun.
    destruct (IHd c _ _ _ _ ltac:(lia) Hrun Hout) as [f2 Hcont].
    cbn [flatten prepend]. rewrite prepend_app.
    eapply IHv; [lia | exact Hcont | exact Hout]. }
  split.
  - exact (node_dict_ind P Q HStr HDict HNil HCons).
  - exact (dict_node_ind P Q HStr HDict HNil HCons).
Qed.

Lemma parse_flatten_node (v : node) :
  forall (key : string) (c : nat) (acc : dict) (rest : tokens) (f : nat)
         (out : outcome),
    (depth_node v <= c)%nat ->
    parse_object_loop f c (dict_set key (build_node v) acc) rest = out ->
    out <> OutOfFuel ->
    exists f', parse_object_loop f' c acc
                 (TYield (TStr key) (prepend (flatten_node v) rest)) = out.
Proof. exact (proj1 parse_flatten_both v). Qed.

Lemma parse_flatten (d : dict) :
  forall (c : nat) (acc : dict) (rest : tokens) (f : nat) (out : outcome),
    (depth d <= c)%nat ->
    parse_object_loop f c (build_onto acc d) rest = out -> out <> OutOfFuel ->
    exists f', parse_object_loop f' c acc (prepend (flatten d) rest) = out.
Proof. exact (proj2 parse_flatten_both d). Qed.

(** Reading the tokens of a body that is deeper than the stack has room
    for raises [RecursionError], whatever follows the body. *)
Lemma parse_flatten_deep (d : dict) :
  forall (c : nat) (acc : dict) (rest : tokens),
    (c < depth d)%nat ->
    exists f', parse_object_loop f' c acc (prepend (flatten d) rest)
               = Raise RecursionError.
Proof.
  induction d as [s | d IHd | | k v d IHv IHd] using dict_node_ind
    with (P := fun v => forall (key : string) (c : nat) (acc : dict) (rest : tokens),
                 (c < depth_node v)%nat ->
                 exists f', parse_object_loop f' c acc
                              (TYield (TStr key) (prepend (flatten_node v) rest))
                            = Raise RecursionError).
  - intros key c acc rest Hdepth. simpl in Hdepth. lia.
  - intros key c acc rest Hdepth. rewrite depth_node_Dict in Hdepth.
    rewrite flatten_node_Dict. cbn [prepend]. rewrite prepend_app.
    destruct c as [|c]; [by exists 1%nat|].
    destruct (IHd c [] (prepend [RBRACE] rest) ltac:(lia)) as [f1 Hin].
    exists (S f1). rewrite parse_object_loop_nested. by rewrite Hin.
  - intros c acc rest Hdepth. simpl in Hdepth. lia.
  - intros c acc rest Hdepth. simpl in Hdepth. simpl. rewrite prepend_app.
    destruct (Nat.le_gt_cases (depth_node v) c) as [Hv|Hv].
    + destruct (IHd c (dict_set k (build_node v) acc) rest ltac:(lia)) as [f2 Hcont].
      eapply parse_flatten_node; [exact Hv | exact Hcont | discriminate].
    + by apply IHv.
Qed.

(** *** What the assignments build *)

Lemma dict_get_set {V : Type} (key key' : string) (v : V) (d : list (string * V)) :
  dict_get key' (dict_set key v d) =
    if String.eqb key key' then Some v else dict_get key' d.
Proof.
  induction d as [|[k x] d IH]; simpl.
  - reflexivity.
  - destruct (String.eqb_spec k key) as [->|Hk]; simpl.
    + destruct (String.eqb key key'); reflexivity.
    + rewrite IH. destruct (String.eqb_spec k key') as [->|Hk'];
        [|reflexivity].
      destruct (String.eqb_spec key key'); congruence.
Qed.

Lemma keys_dict_set {V : Type} (key : string) (v : V) (d : list (string * V)) :
  map fst (dict_set key v d) =
    if bool_decide (key ∈ map fst d) then map fst d else map fst d ++ [key].
Proof.
  induction d as [|[k x] d IH]; simpl.
  - reflexivity.
  - destruct (String.eqb_spec k key) as [->|Hk]; simpl.
    + rewrite bool_decide_eq_true_2; [reflexivity | left].
    + rewrite IH. destruct (bool_decide_reflect (key ∈ map fst d)) as [Hin|Hin].
      * rewrite bool_decide_eq_true_2; [reflexivity | by right].
      * rewrite bool_decide_eq_false_2; [reflexivity|].
        intros [?|?]%elem_of_cons; congruence.
Qed.

Lemma dict_get_build_onto (d : dict) :
  forall (acc : dict) (key : string),
    dict_get key (build_onto acc d) =
      match last_value key d with
      | Some v => Some (build_node v)
      | None => dict_get key acc
      end.
Proof.
  induction d as [|[k v] d IH]; intros acc key; simpl; [reflexivity|].
  rewrite IH, dict_get_set.
  destruct (last_value key d); [reflexivity|].
  destruct (String.eqb k key); reflexivity.
Qed.

Lemma keys_build_onto (d : dict) :
  forall acc : dict,
    map fst (build_onto acc d) =
      map fst acc ++ first_occurrences (map fst acc) (map fst d).
Proof.
  induction d as [|[k v] d IH]; intros acc; simpl.
  - by rewrite app_nil_r.
  - rewrite IH, keys_dict_set.
    destruct (bool_decide (k ∈ map fst acc)); [reflexivity|].
    by rewrite <- app_assoc.
Qed.

(** *** Documents cut where a key is expected *)

(** A failure at the cut is the failure of the whole parse, when the
    document is no deeper than the stack has room for; a deeper one raises
    [RecursionError] before the cut is reached. *)
Lemma parse_open_raise (e : error) (tail : tokens) :
  (forall c acc0, parse_object_loop 1 c acc0 tail = Raise e) ->
  forall (frames : list (dict * string)) (cur : dict) (c : nat) (acc : dict),
    exists f, parse_object_loop f c acc (prepend (open_flatten frames cur) tail)
              = Raise (if (open_depth frames cur <=? c)%nat
                       then e else RecursionError).
Proof.
  intros Htail frames.
  induction frames as [|[items k] frames IH]; intros cur c acc;
    cbn [open_flatten open_depth].
  - destruct (Nat.leb_spec (depth cur) c) as [Hle|Hgt].
    + eapply parse_flatten; [exact Hle | apply Htail | discriminate].
    + by apply parse_flatten_deep.
  - rewrite prepend_app. cbn [prepend].
    destruct (Nat.le_gt_cases (depth items) c) as [Hitems|Hitems].
    + destruct c as [|c].
      * rewrite (proj2 (Nat.leb_gt _ _)) by lia.
        eapply (parse_flatten items 0 acc _ 1);
          [exact Hitems | reflexivity | discriminate].
      * destruct (IH cur c []) as [f1 Hin].
        eapply (parse_flatten items (S c) acc _ (S f1));
          [exact Hitems | | discriminate].
        rewrite parse_object_loop_nested, Hin.
        destruct (Nat.leb_spec (open_depth frames cur) c),
                 (Nat.leb_spec (Nat.max (depth items) (S (open_depth frames cur))) (S c));
          try reflexivity; lia.
    + rewrite (proj2 (Nat.leb_gt _ _)) by lia. by apply parse_flatten_deep.
Qed.

(** At the end of the input every open block returns what it has read. *)
Lemma parse_open_end (frames : list (dict * string)) :
  forall (cur : dict) (c : nat) (acc : dict),
    exists f, parse_object_loop f c acc (prepend (open_flatten frames cur) TEnd)
              = if (open_depth frames cur <=? c)%nat
                then Return (build_open acc frames cur) TEnd
                else Raise RecursionError.
Proof.
  induction frames as [|[items k] frames IH]; intros cur c acc;
    cbn [open_flatten open_depth build_open].
  - destruct (Nat.leb_spec (depth cur) c) as [Hle|Hgt].
    + eapply (parse_flatten cur c acc TEnd 1); [exact Hle | reflexivity | discriminate].
    + by apply parse_flatten_deep.
  - rewrite prepend_app. cbn [prepend].
    destruct (Nat.le_gt_cases (depth items) c) as [Hitems|Hitems].
    + destruct c as [|c].
      * rewrite (proj2 (Nat.leb_gt _ _)) by lia.
        eapply (parse_flatten items 0 acc _ 1);
          [exact Hitems | reflexivity | discriminate].
      * destruct (IH cur c []) as [f1 Hin].
        destruct (Nat.leb_spec (open_depth frames cur) c) as [Hle|Hgt].
        -- rewrite (proj2 (Nat.leb_le _ _)) by lia.
           eapply (parse_flatten items (S c) acc _ (S (S f1)));
             [exact Hitems | | discriminate].
           rewrite parse_object_loop_nested.
           rewrite (parse_object_loop_mono _ _ _ _ _ Hin ltac:(discriminate)
                      (S f1) ltac:(lia)).
           reflexivity.
        -- rewrite (proj2 (Nat.leb_gt _ _)) by lia.
           eapply (parse_flatten items (S c) acc _ (S f1));
             [exact Hitems | | discriminate].
           rewrite parse_object_loop_nested. by rewrite Hin.
    + rewrite (proj2 (Nat.leb_gt _ _)) by lia. by apply parse_flatten_deep.
Qed.

(** *** Where a key is expected *)

Lemma flatten_app (d1 d2 : dict) : flatten (d1 ++ d2) = flatten d1 ++ flatten d2.
Proof.
  induction d1 as [|[k v] d1 IH]; simpl; [reflexivity|].
  by rewrite IH, <- app_assoc.
Qed.

Lemma open_flatten_pair (frames : list (dict * string)) (cur : dict)
    (k : string) (v : node) :
  open_flatten frames (cur ++ [(k, v)])
  = open_flatten frames cur ++ TStr k :: flatten_node v.
Proof.
  induction frames as [|[items k'] frames IH]; simpl.
  - rewrite flatten_app. simpl. by rewrite app_nil_r.
  - rewrite IH, <- app_assoc. reflexivity.
Qed.

Lemma open_flatten_push (frames : list (dict * string)) (cur : dict) (k : string) :
  open_flatten (frames ++ [(cur, k)]) []
  = open_flatten frames cur ++ [TStr k; LBRACE].
Proof.
  induction frames as [|[items k'] frames IH]; simpl.
  - reflexivity.
  - rewrite IH, <- app_assoc. reflexivity.
Qed.

Lemma open_flatten_pop (frames : list (dict * string)) (items cur : dict)
    (k : string) :
  open_flatten frames (items ++ [(k, Dict cur)])
  = open_flatten (frames ++ [(items, k)]) cur ++ [RBRACE].
Proof.
  induction frames as [|[items' k'] frames IH]; simpl.
  - rewrite flatten_app. simpl. rewrite app_nil_r, <- app_assoc. reflexivity.
  - rewrite IH, <- app_assoc. reflexivity.
Qed.

(** Every token list that takes the parser to a place where it expects a
    key is a document cut there, with as many open blocks as the depth. *)
Lemma key_expected_open_flatten (l : list token) :
  forall (d0 d : nat) (frames0 : list (dict * string)) (cur0 : dict),
    key_expected_after d0 l = Some d -> length frames0 = d0 ->
    exists frames cur,
      open_flatten frames0 cur0 ++ l = open_flatten frames cur
      /\ length frames = d.
Proof.
  induction l as [l IH] using (induction_ltof1 _ (@length token)).
  unfold ltof in IH. intros d0 d frames0 cur0 Hkey Hlen.
  destruct l as [|[k| |] l].
  - injection Hkey as <-. exists frames0, cur0. by rewrite app_nil_r.
  - destruct l as [|[v| |] l]; try discriminate; simpl in Hkey.
    + destruct (IH l ltac:(simpl; lia) d0 d frames0 (cur0 ++ [(k, Str v)]) Hkey Hlen)
        as (frames & cur & Heq & Hd).
      exists frames, cur. split; [|exact Hd].
      rewrite <- Heq, open_flatten_pair, <- app_assoc. reflexivity.
    + destruct (IH l ltac:(simpl; lia) (S d0) d (frames0 ++ [(cur0, k)]) [] Hkey)
        as (frames & cur & Heq & Hd).
      { rewrite length_app. simpl. lia. }
      exists frames, cur. split; [|exact Hd].
      rewrite <- Heq, open_flatten_push, <- app_assoc. reflexivity.
  - discriminate.
  - simpl in Hkey. destruct d0 as [|d0]; [discriminate|].
    destruct frames0 as [|fr frames0 _] using rev_ind; [discriminate|].
    destruct fr as [items k]. rewrite length_app in Hlen. simpl in Hlen.
    destruct (IH l ltac:(simpl; lia) d0 d frames0 (items ++ [(k, Dict cur0)]) Hkey
                ltac:(lia)) as (frames & cur & Heq & Hd).
    exists frames, cur. split; [|exact Hd].
    rewrite <- Heq, open_flatten_pop, <- app_assoc. reflexivity.
Qed.

Lemma key_expected_cut (pre : list token) (d : nat) :
  key_expected_after 0 pre = Some d ->
  exists frames cur, pre = open_flatten frames cur /\ length frames = d.
Proof.
  intros Hkey.
  destruct (key_expected_open_flatten pre 0%nat d [] [] Hkey eq_refl)
    as (frames & cur & Heq & Hd).
  exists frames, cur. split; [exact Heq | exact Hd].
Qed.

(** *** How deep a document goes *)

Lemma deepest_le (l : list token) (d : nat) : (d <= deepest d l)%nat.
Proof. destruct l; cbn [deepest]; lia. Qed.

Lemma deepest_flatten (body : dict) :
  forall (d : nat) (l : list token),
    deepest d (flatten body ++ l) = Nat.max (d + depth body) (deepest d l).
Proof.
  induction body as [s | b IHb | | k v b IHv IHb] using dict_node_ind
    with (P := fun v => forall (k : string) (d : nat) (l : list token),
                 deepest d (TStr k :: flatten_node v ++ l)
                 = Nat.max (d + depth_node v) (deepest d l)).
  - intros k d l. cbn [flatten_node app deepest depth_node].
    pose proof (deepest_le l d). lia.
  - intros k d l. rewrite flatten_node_Dict, depth_node_Dict.
    cbn [app deepest]. rewrite <- app_assoc, IHb. cbn [app deepest Nat.pred].
    pose proof (deepest_le l d). lia.
  - intros d l. cbn [flatten app depth]. pose proof (deepest_le l d). lia.
  - intros d l. cbn [flatten depth]. rewrite <- app_comm_cons, <- app_assoc.
    rewrite IHv, IHb. lia.
Qed.

(** The depth of a cut document is the greatest depth of its tokens. *)
Lemma deepest_open_flatten (frames : list (dict * string)) (cur : dict) :
  forall d : nat,
    deepest d (open_flatten frames cur) = (d + open_depth frames cur)%nat.
Proof.
  induction frames as [|[items k] frames IH]; intros d;
    cbn [open_flatten open_depth].
  - rewrite <- (app_nil_r (flatten cur)), deepest_flatten. cbn [deepest]. lia.
  - rewrite deepest_flatten. cbn [deepest]. rewrite IH. lia.
Qed.

Lemma deepest_fits (frames : list (dict * string)) (cur : dict) (c : nat) :
  (deepest 0 (open_flatten frames cur) <? S c)%nat
  = (open_depth frames cur <=? c)%nat.
Proof. by rewrite deepest_open_flatten. Qed.

Lemma deepest_flatten_fits (d : dict) (c : nat) :
  (deepest 0 (flatten d) <? S c)%nat = (depth d <=? c)%nat.
Proof. apply (deepest_fits [] d c). Qed.

(** *** The shape of a document that parses *)

Lemma build_onto_app (d1 d2 acc : dict) :
  build_onto acc (d1 ++ d2) = build_onto (build_onto acc d1) d2.
Proof.
  revert acc. induction d1 as [|[k v] d1 IH]; intros acc; simpl; [reflexivity|].
  apply IH.
Qed.

Lemma build_open_close (frames : list (dict * string)) :
  forall acc cur : dict,
    build_open acc frames cur = build_onto acc (close frames cur).
Proof.
  induction frames as [|[items k] frames IH]; intros acc cur; simpl.
  - reflexivity.
  - by rewrite build_onto_app, IH.
Qed.

(** A pair in front of a cut document. *)
Lemma open_flatten_cons (k : string) (v : node) (frames : list (dict * string))
    (cur : dict) :
  exists frames' cur',
    close frames' cur' = (k, v) :: close frames cur
    /\ open_flatten frames' cur' = TStr k :: flatten_node v ++ open_flatten frames cur.
Proof.
  destruct frames as [|[items k1] frames].
  - by exists [], ((k, v) :: cur).
  - exists (((k, v) :: items, k1) :: frames), cur. split; [reflexivity|].
    simpl. by rewrite <- app_assoc.
Qed.

(** What [parse_object] has read when it returns: a body and the brace
    that closes it, or a body cut by the end of the input. *)
Lemma parse_object_loop_shape (f : nat) :
  forall (c : nat) (acc : dict) (ts : tokens) (o : dict) (rest : tokens),
    parse_object_loop f c acc ts = Return o rest ->
    exists body,
      o = build_onto acc body
      /\ (ts = prepend (flatten body) (TYield RBRACE rest)
          \/ (rest = TEnd
              /\ exists frames cur,
                  body = close frames cur
                  /\ ts = prepend (open_flatten frames cur) TEnd)).
Proof.
  induction f as [|f IH]; intros c acc ts o rest Hrun; [discriminate|].
  simpl in Hrun.
  destruct ts as [| e | [k| |] r]; try discriminate.
  - injection Hrun as <- <-. exists []. split; [reflexivity|].
    right. split; [reflexivity|]. by exists [], [].
  - destruct r as [| e | [v| |] r]; try discriminate.
    + destruct (IH _ _ _ _ _ Hrun) as (body & -> & Hshape).
      exists ((k, Str v) :: body). split; [reflexivity|].
      destruct Hshape as [-> | (-> & frames & cur & -> & ->)].
      * by left.
      * right. split; [reflexivity|].
        destruct (open_flatten_cons k (Str v) frames cur)
          as (frames' & cur' & Hclose & Hopen).
        exists frames', cur'. split; [by rewrite Hclose|]. by rewrite Hopen.
    + destruct c as [|c]; [discriminate|].
      destruct (parse_object_loop f c [] r) as [| e | sub r'] eqn:Hin;
        try discriminate.
      destruct (IH _ _ _ _ _ Hin) as (inner & -> & Hinner).
      destruct Hinner as [-> | (-> & frames & cur & -> & ->)].
      * destruct (IH _ _ _ _ _ Hrun) as (body & -> & Hshape).
        exists ((k, Dict inner) :: body). split; [reflexivity|].
        destruct Hshape as [-> | (-> & frames & cur & -> & ->)].
        -- left. simpl. rewrite prepend_app, prepend_app. reflexivity.
        -- right. split; [reflexivity|].
           destruct (open_flatten_cons k (Dict inner) frames cur)
             as (frames' & cur' & Hclose & Hopen).
           exists frames', cur'. split; [by rewrite Hclose|].
           rewrite Hopen. simpl. rewrite !prepend_app. reflexivity.
      * destruct f as [|f]; [discriminate|]. injection Hrun as <- <-.
        exists [(k, Dict (close frames cur))]. split; [reflexivity|].
        right. split; [reflexivity|].
        by exists (([], k) :: frames), cur.
  - injection Hrun as <- <-. exists []. split; [reflexivity|]. by left.
Qed.

Lemma parse_keyvalues_shape (limit : nat) (ts : tokens) (root : dict) :
  parse_keyvalues limit ts = Ok root ->
  exists body,
    root = build body
    /\ ((exists rest, ts = prepend (flatten body) (TYield RBRACE rest))
        \/ (exists frames cur,
               body = close frames cur
               /\ ts = prepend (open_flatten frames cur) TEnd)).
Proof.
  unfold parse_keyvalues, parse_object. destruct limit as [|c]; [discriminate|].
  destruct (parse_object_loop _ c [] ts) as [| e | o rest] eqn:Hrun;
    try discriminate.
  intros [= <-].
  destruct (parse_object_loop_shape _ _ _ _ _ _ Hrun) as (body & -> & Hshape).
  exists body. split; [reflexivity|].
  destruct Hshape as [-> | (-> & frames & cur & -> & ->)].
  - left. by exists rest.
  - right. by exists frames, cur.
Qed.

(** The parse of a body. *)
Lemma parse_keyvalues_flatten (limit : nat) (d : dict) (rest : tokens) :
  parse_keyvalues limit (prepend (flatten d) (TYield RBRACE rest))
  = (if (depth d <? limit)%nat then Ok (build d) else Error RecursionError)
  /\ parse_keyvalues limit (of_list (flatten d))
     = (if (depth d <? limit)%nat then Ok (build d) else Error RecursionError).
Proof.
  destruct limit as [|c]; [by split|].
  change (depth d <? S c)%nat with (depth d <=? c)%nat.
  destruct (Nat.leb_spec (depth d) c) as [Hle|Hgt]; split.
  - destruct (parse_flatten d c [] (TYield RBRACE rest) 1
                (Return (build d) rest) Hle) as [f Hf];
      [reflexivity | discriminate |].
    exact (parse_keyvalues_of_run _ _ _ _ Hf ltac:(discriminate)).
  - destruct (parse_flatten d c [] TEnd 1 (Return (build d) TEnd) Hle)
      as [f Hf]; [reflexivity | discriminate |].
    rewrite prepend_TEnd in Hf.
    exact (parse_keyvalues_of_run _ _ _ _ Hf ltac:(discriminate)).
  - destruct (parse_flatten_deep d c [] (TYield RBRACE rest) Hgt) as [f Hf].
    exact (parse_keyvalues_of_run _ _ _ _ Hf ltac:(discriminate)).
  - destruct (parse_flatten_deep d c [] TEnd Hgt) as [f Hf].
    rewrite prepend_TEnd in Hf.
    exact (parse_keyvalues_of_run _ _ _ _ Hf ltac:(discriminate)).
Qed.

(** The parse of a document that fails where it is cut. *)
Lemma parse_keyvalues_open_raise (e : error) (tail : tokens) (limit : nat)
    (frames : list (dict * string)) (cur : dict) :
  (forall c acc0, parse_object_loop 1 c acc0 tail = Raise e) ->
  parse_keyvalues limit (prepend (open_flatten frames cur) tail)
  = Error (if (deepest 0 (open_flatten frames cur) <? limit)%nat
           then e else RecursionError).
Proof.
  intros Htail. destruct limit as [|c]; [reflexivity|]. rewrite deepest_fits.
  destruct (parse_open_raise e tail Htail frames cur c []) as [f Hf].
  exact (parse_keyvalues_of_run _ _ _ _ Hf ltac:(discriminate)).
Qed.

(** The parse of a document that ends where it is cut. *)
Lemma parse_keyvalues_open_end (limit : nat) (frames : list (dict * string))
    (cur : dict) :
  parse_keyvalues limit (of_list (open_flatten frames cur))
  = if (deepest 0 (open_flatten frames cur) <? limit)%nat
    then Ok (build_open [] frames cur) else Error RecursionError.
Proof.
  destruct limit as [|c]; [reflexivity|]. rewrite deepest_fits.
  destruct (parse_open_end frames cur c []) as [f Hf].
  rewrite prepend_TEnd in Hf.
  rewrite (parse_keyvalues_of_run _ _ _ _ Hf
             ltac:(by destruct (_ <=? _)%nat)).
  by destruct (_ <=? _)%nat.
Qed.

(** C4.  The root of every document that parses is what the assignments
    [obj[key] = val] build from the pairs of its body in source order, and
    so is every block in it: a key that occurs more than once holds the
    value of its last occurrence and stands where it first occurred.  A
    body parses to that dict when its blocks nest no deeper than the stack
    of the interpreter has room for, and raises [RecursionError] when they
    do.  So the tokens of the body [x 1 x 2] give a block in which [x] is
    [2], at the top level and under a key. *)
Theorem C4_duplicate_key_last_value_first_position :
  (forall (limit : nat) (ts : tokens) (root : dict),
      parse_keyvalues limit ts = Ok root ->
      exists body,
        root = build body
        /\ ((exists rest, ts = prepend (flatten body) (TYield RBRACE rest))
            \/ (exists frames cur,
                   body = close frames cur
                   /\ ts = prepend (open_flatten frames cur) TEnd))) /\
  (forall (limit : nat) (d : dict),
      parse_keyvalues limit (of_list (flatten d))
      = if (depth d <? limit)%nat then Ok (build d) else Error RecursionError) /\
  (forall d : dict, build_node (Dict d) = Dict (build d)) /\
  (forall (d : dict) (key : string),
      dict_get key (build d) = build_node <$> last_value key d) /\
  (forall d : dict, map fst (build d) = first_occurrences [] (map fst d)) /\
  (forall limit : nat,
      parse_keyvalues (S limit) (of_list [TStr "x"; TStr "1"; TStr "x"; TStr "2"])
      = Ok [("x", Str "2")]) /\
  (forall limit : nat,
      parse_keyvalues (S limit)
        (of_list [TStr "a"; TStr "0"; TStr "x"; TStr "1"; TStr "b"; TStr "0";
                  TStr "x"; TStr "2"])
      = Ok [("a", Str "0"); ("x", Str "2"); ("b", Str "0")]) /\
  (forall limit : nat,
      parse_keyvalues (S (S limit))
        (of_list [TStr "r"; LBRACE; TStr "x"; TStr "1"; TStr "x"; TStr "2"; RBRACE])
      = Ok [("r", Dict [("x", Str "2")])]).
Proof.
  split; [|split; [|split; [|split; [|split; [|split; [|split]]]]]];
    try reflexivity.
  - apply parse_keyvalues_shape.
  - intros limit d. apply (parse_keyvalues_flatten limit d TEnd).
  - intros d key. unfold build. rewrite dict_get_build_onto.
    destruct (last_value key d); reflexivity.
  - intros d. unfold build. by rewrite keys_build_onto.
Qed.

(** C4 at the tokens [x 1 x 2]. *)
Lemma C4_witness :
  exists body,
    [("x", Str "2")] = build body
    /\ ((exists rest,
            of_list [TStr "x"; TStr "1"; TStr "x"; TStr "2"]
            = prepend (flatten body) (TYield RBRACE rest))
        \/ (exists frames cur,
               body = close frames cur
               /\ of_list [TStr "x"; TStr "1"; TStr "x"; TStr "2"]
                  = prepend (open_flatten frames cur) TEnd)).
Proof.
  apply (proj1 C4_duplicate_key_last_value_first_position recursion_limit
           (of_list [TStr "x"; TStr "1"; TStr "x"; TStr "2"])
           [("x", Str "2")]).
  reflexivity.
Defined.

(** C10 as stated fails: a stream that ends inside a thousand blocks, each
    opened in the one before, makes the parser raise [RecursionError],
    even if the whole stack of the interpreter were free for the calls of
    [parse_object]. *)
Lemma C10_counterexample :
  key_expected_after 0 (nested_blocks recursion_limit) = Some recursion_limit
  /\ parse_keyvalues recursion_limit (of_list (nested_blocks recursion_limit))
     = Error RecursionError
  /\ ~ (exists root,
          parse_keyvalues recursion_limit (of_list (nested_blocks recursion_limit))
          = Ok root).
Proof.
  assert (Hrun : parse_keyvalues recursion_limit
                   (of_list (nested_blocks recursion_limit))
                 = Error RecursionError) by (by vm_compute).
  split; [by vm_compute|]. split; [exact Hrun|].
  intros [root Hroot]. rewrite Hrun in Hroot. discriminate.
Qed.

(** C10, amended.  A token stream that ends where a key is expected inside
    blocks that were opened and not closed is parsed without an error when
    its blocks nest no deeper than the stack of the interpreter has room
    for: the result is the tree in which every open block holds the pairs
    read in it so far.  A stream that goes deeper raises
    [RecursionError]. *)
Theorem C10_end_of_input_inside_nested_block :
  (forall (limit : nat) (pre : list token) (d : nat),
      key_expected_after 0 pre = Some (S d) ->
      exists frames cur,
        length frames = S d /\ pre = open_flatten frames cur
        /\ parse_keyvalues limit (of_list pre)
           = if (deepest 0 pre <? limit)%nat
             then Ok (build_open [] frames cur) else Error RecursionError) /\
  (forall (items : dict) (k : string) (frames : list (dict * string)) (cur : dict),
      dict_get k (build_open [] ((items, k) :: frames) cur)
        = Some (Dict (build_open [] frames cur))) /\
  (forall cur : dict, build_open [] [] cur = build cur) /\
  (forall limit : nat,
      parse_keyvalues (S (S limit))
        (of_list [TStr "a"; TStr "1"; TStr "b"; LBRACE; TStr "c"; TStr "2"])
      = Ok [("a", Str "1"); ("b", Dict [("c", Str "2")])]).
Proof.
  split; [|split; [|split; reflexivity]].
  - intros limit pre d Hkey.
    destruct (key_expected_cut pre (S d) Hkey) as (frames & cur & -> & Hlen).
    exists frames, cur. split; [exact Hlen|]. split; [reflexivity|].
    apply parse_keyvalues_open_end.
  - intros items k frames cur. simpl. rewrite dict_get_set.
    by rewrite String.eqb_refl.
Qed.

(** C10 at the tokens [a 1 b LBRACE c 2]. *)
Lemma C10_witness :
  exists frames cur,
    length frames = 1%nat
    /\ [TStr "a"; TStr "1"; TStr "b"; LBRACE; TStr "c"; TStr "2"]
       = open_flatten frames cur
    /\ parse_keyvalues 2
         (of_list [TStr "a"; TStr "1"; TStr "b"; LBRACE; TStr "c"; TStr "2"])
       = Ok (build_open [] frames cur).
Proof.
  apply (proj1 C10_end_of_input_inside_nested_block 2%nat
           [TStr "a"; TStr "1"; TStr "b"; LBRACE; TStr "c"; TStr "2"] 0%nat).
  reflexivity.
Defined.

(** C6 as stated fails: a closing brace where a key is expected at the top
    level ends the parse, which returns the pairs read before it. *)
Lemma C6_counterexample :
  parse_keyvalues recursion_limit
    (of_list [TStr "a"; TStr "1"; RBRACE; TStr "b"; TStr "2"])
    = Ok [("a", Str "1")] /\
  ~ (exists e, parse_keyvalues recursion_limit
                 (of_list [TStr "a"; TStr "1"; RBRACE; TStr "b"; TStr "2"])
               = Error e).
Proof.
  split; [reflexivity|]. intros [e He]. vm_compute in He. discriminate.
Qed.

(** C6, amended.  An opening brace where a key is expected, at any depth,
    makes the parse fail: with the error for an unexpected opening brace
    (which names no position), or with [RecursionError] when the blocks
    before it nest deeper than the stack of the interpreter has room for.
    A closing brace where a key is expected at the top level is no error:
    the parse returns the block read so far and leaves the rest of the
    stream unread. *)
Theorem C6_brace_where_key_expected :
  (forall (limit : nat) (pre : list token) (d : nat) (rest : tokens),
      key_expected_after 0 pre = Some d ->
      parse_keyvalues limit (prepend pre (TYield LBRACE rest))
      = Error (if (deepest 0 pre <? limit)%nat
               then UnexpectedLBrace else RecursionError)) /\
  (forall (limit : nat) (pre : list token) (rest : tokens),
      key_expected_after 0 pre = Some 0%nat ->
      exists items,
        pre = flatten items
        /\ parse_keyvalues limit (prepend pre (TYield RBRACE rest))
           = if (deepest 0 pre <? limit)%nat
             then Ok (build items) else Error RecursionError).
Proof.
  split.
  - intros limit pre d rest Hkey.
    destruct (key_expected_cut pre d Hkey) as (frames & cur & -> & _).
    by apply parse_keyvalues_open_raise.
  - intros limit pre rest Hkey.
    destruct (key_expected_cut pre 0%nat Hkey) as (frames & items & -> & Hlen).
    destruct frames; [|discriminate]. exists items. split; [reflexivity|].
    cbn [open_flatten].
    rewrite (proj1 (parse_keyvalues_flatten limit items rest)).
    destruct limit as [|c]; [reflexivity|].
    by rewrite deepest_flatten_fits.
Qed.

(** C6 at the tokens [a 1], then a brace, then [b 2]. *)
Lemma C6_witness :
  parse_keyvalues recursion_limit
    (prepend [TStr "a"; TStr "1"] (TYield LBRACE (of_list [TStr "b"; TStr "2"])))
    = Error UnexpectedLBrace
  /\ exists items,
       [TStr "a"; TStr "1"] = flatten items
       /\ parse_keyvalues recursion_limit
            (prepend [TStr "a"; TStr "1"]
               (TYield RBRACE (of_list [TStr "b"; TStr "2"])))
          = Ok (build items).
Proof.
  split.
  - apply (proj1 C6_brace_where_key_expected recursion_limit
             [TStr "a"; TStr "1"] 0%nat).
    reflexivity.
  - apply (proj2 C6_brace_where_key_expected recursion_limit
             [TStr "a"; TStr "1"]).
    reflexivity.
Defined.

(** ** The tokenizer *)

Section TokenizerFacts.

Variable unicode_escape : string -> option string.


Lemma match_quoted_length (s : string) :
  forall raw rest, match_quoted s = Some (raw, rest) ->
    (String.length rest < String.length s)%nat.
Proof.
  induction s as [s IH] using (induction_ltof1 _ String.length).
  unfold ltof in IH.
  intros raw rest Hm. destruct s as [|c s1]; simpl in *; [discriminate|].
  destruct (Ascii.eqb c quote); [injection Hm as _ <-; lia|].
  destruct (Ascii.eqb c backslash).
  - destruct s1 as [|d s2]; [discriminate|].
    destruct (Ascii.eqb d newline); [discriminate|].
    destruct (match_quoted s2) as [[raw' rest']|] eqn:Hm2; [|discriminate].
    injection Hm as _ <-. pose proof (IH s2 ltac:(simpl; lia) _ _ Hm2). simpl. lia.
  - destruct (match_quoted s1) as [[raw' rest']|] eqn:Hm1; [|discriminate].
    injection Hm as _ <-. pose proof (IH s1 ltac:(simpl; lia) _ _ Hm1). lia.
Qed.

Lemma after_newline_length (s s' : string) :
  after_newline s = Some s' -> (String.length s' < String.length s)%nat.
Proof.
  revert s'. induction s as [|c s IH]; intros s' H; simpl in *; [discriminate|].
  destruct (Ascii.eqb c newline).
  - injection H as <-. lia.
  - specialize (IH _ H). lia.
Qed.

Lemma bareword_length (s : string) :
  (String.length (snd (bareword s)) <= String.length s)%nat.
Proof.
  induction s as [|c s IH]; simpl; [lia|].
  destruct (negb (Py.isspace c) && negb (Ascii.eqb c "{" || Ascii.eqb c "}")).
  - destruct (bareword s) as [w rest]. simpl in *. lia.
  - simpl. lia.
Qed.

(** Every turn that goes on leaves less text. *)
Lemma tokenize_turn_shrinks (i : nat) (s : string) :
  match tokenize_turn unicode_escape i s with
  | Skip _ s' | Yields _ _ s' => (String.length s' < String.length s)%nat
  | _ => True
  end.
Proof.
  unfold tokenize_turn. destruct s as [|c s1]; [done|].
  destruct (Py.isspace c) eqn:Hsp; [simpl; lia|].
  destruct (Ascii.eqb c "/" && String.prefix "/" s1).
  { destruct (after_newline (String c s1)) eqn:Hnl; [|done].
    by apply after_newline_length. }
  destruct (Ascii.eqb c "{") eqn:Hl; [simpl; lia|].
  destruct (Ascii.eqb c "}") eqn:Hr; [simpl; lia|].
  destruct (Ascii.eqb c quote).
  { destruct (match_quoted s1) as [[raw rest]|] eqn:Hm; [|done].
    destruct (_unescape unicode_escape raw); [|done].
    pose proof (match_quoted_length _ _ _ Hm). simpl. lia. }
  simpl. rewrite Hsp, Hl, Hr. simpl.
  pose proof (bareword_length s1).
  destruct (bareword s1) as [w rest]. simpl in *. lia.
Qed.

(** The loop comes to an end within [len(text) + 1] turns. *)
Lemma tokenize_loop_total (f : nat) :
  forall (i : nat) (s : string),
    (String.length s < f)%nat -> is_Some (tokenize_loop unicode_escape f i s).
Proof.
  induction f as [|f IH]; intros i s Hlen; [lia|].
  simpl. pose proof (tokenize_turn_shrinks i s) as Hs.
  destruct (tokenize_turn unicode_escape i s) as [| e | i' s' | t i' s'];
    try by eexists.
  - apply IH. lia.
  - destruct (IH i' s' ltac:(lia)) as [ts Hts]. rewrite Hts. by eexists.
Qed.

Lemma tokenize_keyvalues_total (text : string) :
  is_Some (tokenize_keyvalues unicode_escape text).
Proof. apply tokenize_loop_total. lia. Qed.



(** The offset of the loop is the length of the text it has passed. *)
Lemma string_length_append (a b : string) :
  String.length (String.append a b) = (String.length a + String.length b)%nat.
Proof. induction a as [|c a IH]; simpl; [reflexivity | by rewrite IH]. Qed.

Lemma string_append_cons (x : ascii) (a b : string) :
  String.append (String x a) b = String x (String.append a b).
Proof. reflexivity. Qed.


Lemma string_append_snoc (a : string) (c : ascii) (b : string) :
  String.append (String.append a (String c EmptyString)) b
  = String.append a (String c b).
Proof.
  induction a as [|x a IH]; [reflexivity|].
  by rewrite !string_append_cons, IH.
Qed.

Lemma after_newline_suffix (s s' : string) :
  after_newline s = Some s' -> exists mid, s = String.append mid s'.
Proof.
  revert s'. induction s as [|c s IH]; intros s' H; simpl in H; [discriminate|].
  destruct (Ascii.eqb c newline).
  - injection H as <-. by exists (String c EmptyString).
  - destruct (IH _ H) as [mid ->]. by exists (String c mid).
Qed.

Lemma match_quoted_suffix (s : string) :
  forall raw rest, match_quoted s = Some (raw, rest) ->
    s = String.append raw (String quote rest).
Proof.
  induction s as [s IH] using (induction_ltof1 _ String.length).
  unfold ltof in IH.
  intros raw rest Hm. destruct s as [|c s1]; simpl in *; [discriminate|].
  destruct (Ascii.eqb_spec c quote) as [->|_].
  { by injection Hm as <- <-. }
  destruct (Ascii.eqb c backslash).
  - destruct s1 as [|d s2]; [discriminate|].
    destruct (Ascii.eqb d newline); [discriminate|].
    destruct (match_quoted s2) as [[raw' rest']|] eqn:Hm2; [|discriminate].
    injection Hm as <- <-. rewrite !string_append_cons.
    by rewrite <- (IH s2 ltac:(simpl; lia) _ _ Hm2).
  - destruct (match_quoted s1) as [[raw' rest']|] eqn:Hm1; [|discriminate].
    injection Hm as <- <-. rewrite !string_append_cons.
    by rewrite <- (IH s1 ltac:(simpl; lia) _ _ Hm1).
Qed.

Lemma bareword_suffix (s : string) :
  s = String.append (fst (bareword s)) (snd (bareword s)).
Proof.
  induction s as [|c s IH]; simpl; [reflexivity|].
  destruct (negb (Py.isspace c) && negb (Ascii.eqb c "{" || Ascii.eqb c "}")).
  - destruct (bareword s) as [w rest]. simpl in *.
    rewrite string_append_cons. by rewrite <- IH.
  - reflexivity.
Qed.

Lemma tokenize_turn_offset (i : nat) (s : string) :
  match tokenize_turn unicode_escape i s with
  | Skip i' s' | Yields _ i' s' =>
      exists mid, s = String.append mid s' /\ i' = (i + String.length mid)%nat
  | _ => True
  end.
Proof.
  unfold tokenize_turn. destruct s as [|c s1]; [done|].
  destruct (Py.isspace c) eqn:Hsp.
  { exists (String c EmptyString). simpl. split; [reflexivity | lia]. }
  destruct (Ascii.eqb c "/" && String.prefix "/" s1).
  { destruct (after_newline (String c s1)) as [s'|] eqn:Hnl; [|done].
    destruct (after_newline_suffix _ _ Hnl) as [mid Hmid].
    exists mid. split; [exact Hmid|]. rewrite Hmid, string_length_append. lia. }
  destruct (Ascii.eqb c "{") eqn:Hl.
  { exists (String c EmptyString). simpl. split; [reflexivity | lia]. }
  destruct (Ascii.eqb c "}") eqn:Hr.
  { exists (String c EmptyString). simpl. split; [reflexivity | lia]. }
  destruct (Ascii.eqb c quote).
  { destruct (match_quoted s1) as [[raw rest]|] eqn:Hm; [|done].
    destruct (_unescape unicode_escape raw); [|done].
    apply match_quoted_suffix in Hm.
    exists (String c (String.append raw (String quote EmptyString))).
    split.
    - rewrite Hm, string_append_cons. f_equal. symmetry. apply string_append_snoc.
    - rewrite Hm. simpl. rewrite !string_length_append. simpl. lia. }
  pose proof (bareword_suffix (String c s1)) as Hbw.
  destruct (bareword (String c s1)) as [w rest]. simpl in Hbw.
  exists w. by split.
Qed.


End TokenizerFacts.



(** ** Order of strings *)

Lemma ascii_compare_refl (c : ascii) : Ascii.compare c c = Eq.
Proof. unfold Ascii.compare. apply N.compare_refl. Qed.

Lemma string_compare_le_trans (a : string) :
  forall b c : string,
    String.compare a b <> Gt -> String.compare b c <> Gt ->
    String.compare a c <> Gt.
Proof.
  induction a as [|c1 a IH]; intros [|c2 b] [|c3 c]; simpl; try congruence.
  destruct (Ascii.compare c1 c2) eqn:H12; try congruence;
    destruct (Ascii.compare c2 c3) eqn:H23; try congruence.
  - apply Ascii.compare_eq_iff in H12, H23. subst.
    rewrite ascii_compare_refl. apply IH.
  - apply Ascii.compare_eq_iff in H12. subst. rewrite H23. congruence.
  - apply Ascii.compare_eq_iff in H23. subst. rewrite H12. congruence.
  - unfold Ascii.compare in *. rewrite N.compare_lt_iff in H12, H23.
    assert (Hlt : (N_of_ascii c1 < N_of_ascii c3)%N) by lia.
    rewrite <- N.compare_lt_iff in Hlt. rewrite Hlt. congruence.
Qed.

Lemma string_leb_trans (a b c : string) :
  String.leb a b = true -> String.leb b c = true -> String.leb a c = true.
Proof.
  unfold String.leb. intros Hab Hbc.
  pose proof (string_compare_le_trans a b c) as H.
  destruct (String.compare a b), (String.compare b c), (String.compare a c);
    try reflexivity; try discriminate; exfalso; apply H; congruence.
Qed.

Lemma string_ltb_leb (a b : string) :
  String.ltb a b = true -> String.leb a b = true.
Proof. unfold String.ltb, String.leb. by destruct (String.compare a b). Qed.

Lemma string_not_ltb_leb (a b : string) :
  String.ltb a b = false -> String.leb b a = true.
Proof.
  unfold String.ltb, String.leb. rewrite (String.compare_antisym b a).
  by destruct (String.compare a b).
Qed.

Lemma string_compare_refl (a : string) : String.compare a a = Eq.
Proof.
  induction a as [|c a IH]; simpl; [reflexivity|].
  by rewrite ascii_compare_refl.
Qed.

Lemma string_ltb_neq (a b : string) : String.ltb a b = true -> a <> b.
Proof.
  unfold String.ltb. intros H ->.
  rewrite string_compare_refl in H. discriminate.
Qed.

(** ** [sorted] *)

Section SortedFacts.

Context {A : Type}.
Variable key : A -> string.

Lemma insert_by_Permutation (x : A) (l : list A) :
  Permutation (x :: l) (insert_by key x l).
Proof.
  induction l as [|y l IH]; simpl; [reflexivity|].
  destruct (String.ltb (key y) (key x)); [|reflexivity].
  rewrite perm_swap. by constructor.
Qed.

Lemma sorted_Permutation (l : list A) : Permutation l (sorted key l).
Proof.
  induction l as [|x l IH]; simpl; [reflexivity|].
  rewrite <- insert_by_Permutation. by constructor.
Qed.

Lemma insert_by_StronglySorted (x : A) (l : list A) :
  StronglySorted (key_le key) l -> StronglySorted (key_le key) (insert_by key x l).
Proof.
  induction 1 as [|y l Hl IH Hy]; simpl.
  - repeat constructor.
  - destruct (String.ltb (key y) (key x)) eqn:Hlt.
    + constructor; [exact IH|].
      rewrite <- insert_by_Permutation. constructor; [|exact Hy].
      by apply string_ltb_leb.
    + assert (Hxy : key_le key x y) by by apply string_not_ltb_leb.
      constructor; [by constructor|].
      constructor; [exact Hxy|].
      eapply Forall_impl; [exact Hy|].
      intros z Hz. unfold key_le in *. eapply string_leb_trans; eauto.
Qed.

Lemma sorted_StronglySorted (l : list A) : StronglySorted (key_le key) (sorted key l).
Proof.
  induction l as [|x l IH]; simpl; [constructor|].
  by apply insert_by_StronglySorted.
Qed.

(** The sort is stable: elements with one key keep their order. *)
Lemma insert_by_stable (k : string) (x : A) (l : list A) :
  filter (fun a => key a = k) (insert_by key x l)
  = filter (fun a => key a = k) (x :: l).
Proof.
  induction l as [|y l IH]; simpl; [reflexivity|].
  destruct (String.ltb (key y) (key x)) eqn:Hlt; [|reflexivity].
  apply string_ltb_neq in Hlt.
  rewrite !filter_cons in *.
  destruct (decide (key y = k)), (decide (key x = k)); try congruence;
    by rewrite IH.
Qed.

Lemma sorted_stable (k : string) (l : list A) :
  filter (fun a => key a = k) (sorted key l) = filter (fun a => key a = k) l.
Proof.
  induction l as [|x l IH]; simpl; [reflexivity|].
  rewrite insert_by_stable, !filter_cons, IH. reflexivity.
Qed.

End SortedFacts.

(** ** The reconciler *)

Section IdictFacts.

Context {V : Type}.
Implicit Types (d : list (Z * V)) (a : Z) (v : V).

Lemma idict_get_None a d : idict_get a d = None <-> a ∉ d.*1.
Proof.
  induction d as [|[k v] d IH]; simpl.
  - split; [intros _; apply not_elem_of_nil | done].
  - rewrite not_elem_of_cons. destruct (Z.eqb_spec k a) as [->|Hk].
    + split; [discriminate | intros [? _]; done].
    + rewrite IH. split; [intros ?; split; [congruence | done] | by intros [_ ?]].
Qed.

Lemma idict_get_elem a v d : idict_get a d = Some v -> (a, v) ∈ d.
Proof.
  induction d as [|[k x] d IH]; simpl; [discriminate|].
  destruct (Z.eqb_spec k a) as [->|Hk].
  - intros [= ->]. left.
  - intros H. right. by apply IH.
Qed.

Lemma idict_get_app a d d' :
  idict_get a (d ++ d') =
    match idict_get a d with
    | Some v => Some v
    | None => idict_get a d'
    end.
Proof.
  induction d as [|[k x] d IH]; simpl; [reflexivity|].
  by destruct (k =? a).
Qed.

Lemma NoDup_snd_elem a a' v d :
  NoDup d.*2 -> (a, v) ∈ d -> (a', v) ∈ d -> a = a'.
Proof.
  induction d as [|[k x] d IH]; simpl.
  - intros _ H. by apply elem_of_nil in H.
  - rewrite NoDup_cons. intros [Hx Hd] [H1|H1]%elem_of_cons [H2|H2]%elem_of_cons.
    + congruence.
    + injection H1 as -> ->. exfalso. apply Hx.
      apply (list_elem_of_fmap_2 snd) in H2. exact H2.
    + injection H2 as -> ->. exfalso. apply Hx.
      apply (list_elem_of_fmap_2 snd) in H1. exact H1.
    + by apply IH.
Qed.

End IdictFacts.

Section ReconcilerFacts.

Variable casefold : string -> string.
Variable find_cover : Z -> string.

Implicit Types (σ : store) (merged installed : list (Z * nat))
               (owned : list (Z * list (string * pyval))).

Lemma merge_entry_present σ merged a og l :
  idict_get a merged = Some l ->
  merge_entry find_cover (σ, merged) (a, og) =
    (if Py.startswith (name_at σ l) "App " && is_str (og_get "name" og)
     then alter (set_name (pyval_str (og_get "name" og))) l σ else σ,
     merged).
Proof. intros H. simpl. rewrite H. by destruct (_ && _). Qed.

Lemma merge_entry_absent σ merged a og :
  idict_get a merged = None ->
  exists g, appid g = a /\ installed g = false /\ library_path g = EmptyString /\
    merge_entry find_cover (σ, merged) (a, og) =
      (σ ++ [g], merged ++ [(a, length σ)]).
Proof. intros H. simpl. rewrite H. eexists. by repeat split. Qed.

Lemma merge_entry_refs_ok σ merged e :
  refs_ok σ merged ->
  refs_ok (merge_entry find_cover (σ, merged) e).1
          (merge_entry find_cover (σ, merged) e).2.
Proof.
  intros [Hnd Hlt]. destruct e as [a og].
  destruct (idict_get a merged) as [l|] eqn:Hget.
  - rewrite (merge_entry_present _ _ _ _ _ Hget). simpl. split; [exact Hnd|].
    destruct (_ && _); [|exact Hlt].
    eapply Forall_impl; [exact Hlt|]. intros ? ?. by rewrite length_alter.
  - destruct (merge_entry_absent σ merged a og Hget) as (g & _ & _ & _ & ->).
    simpl. split.
    + rewrite fmap_app. simpl. apply NoDup_app. split; [exact Hnd|]. split.
      * intros l Hl Hl2. apply list_elem_of_singleton in Hl2. subst l.
        apply list_elem_of_fmap in Hl as ([a' l'] & Heq & Hin).
        rewrite Forall_forall in Hlt. specialize (Hlt _ Hin). simpl in *. lia.
      * apply NoDup_singleton.
    + apply Forall_app. split.
      * eapply Forall_impl; [exact Hlt|].
        intros ? ?. simpl in *. rewrite length_app. simpl. lia.
      * constructor; [|constructor]. simpl. rewrite length_app. simpl. lia.
Qed.

(** A turn keeps what the dict holds, and touches no object but the one
    under its own key. *)
Lemma merge_entry_keeps σ merged e a l :
  idict_get a merged = Some l ->
  idict_get a (merge_entry find_cover (σ, merged) e).2 = Some l.
Proof.
  intros Ha. destruct e as [a' og].
  destruct (idict_get a' merged) as [l'|] eqn:Hget.
  - by rewrite (merge_entry_present _ _ _ _ _ Hget).
  - destruct (merge_entry_absent σ merged a' og Hget) as (g & _ & _ & _ & ->).
    simpl. by rewrite idict_get_app, Ha.
Qed.

Lemma merge_entry_frame σ merged a' og a l :
  refs_ok σ merged -> idict_get a merged = Some l -> a' <> a ->
  (merge_entry find_cover (σ, merged) (a', og)).1 !! l = σ !! l.
Proof.
  intros [Hnd Hlt] Ha Hne.
  destruct (idict_get a' merged) as [l'|] eqn:Hget.
  - rewrite (merge_entry_present _ _ _ _ _ Hget). simpl.
    destruct (_ && _); [|reflexivity].
    apply list_lookup_alter_ne. intros ->.
    apply Hne. eapply NoDup_snd_elem; eauto using idict_get_elem.
  - destruct (merge_entry_absent σ merged a' og Hget) as (g & _ & _ & _ & ->).
    simpl. apply lookup_app_l.
    rewrite Forall_forall in Hlt.
    exact (Hlt _ (idict_get_elem _ _ _ Ha)).
Qed.

Lemma merge_fold_refs_ok owned :
  forall σ merged,
    refs_ok σ merged ->
    refs_ok (fold_left (merge_entry find_cover) owned (σ, merged)).1
            (fold_left (merge_entry find_cover) owned (σ, merged)).2.
Proof.
  induction owned as [|e owned IH]; intros σ merged Hok; cbn [fold_left];
    [exact Hok|].
  pose proof (merge_entry_refs_ok σ merged e Hok) as Hok'.
  destruct (merge_entry find_cover (σ, merged) e) as [σ1 merged1].
  by apply IH.
Qed.

Lemma merge_fold_keeps owned :
  forall σ merged a l,
    idict_get a merged = Some l ->
    idict_get a (fold_left (merge_entry find_cover) owned (σ, merged)).2 = Some l.
Proof.
  induction owned as [|e owned IH]; intros σ merged a l Ha; cbn [fold_left];
    [exact Ha|].
  pose proof (merge_entry_keeps σ merged e a l Ha) as Ha'.
  destruct (merge_entry find_cover (σ, merged) e) as [σ1 merged1].
  by apply IH.
Qed.

Lemma merge_fold_frame owned :
  forall σ merged a l,
    refs_ok σ merged -> idict_get a merged = Some l -> a ∉ owned.*1 ->
    (fold_left (merge_entry find_cover) owned (σ, merged)).1 !! l = σ !! l.
Proof.
  induction owned as [|[a' og] owned IH]; intros σ merged a l Hok Ha Hnot;
    cbn [fold_left]; [reflexivity|].
  rewrite fmap_cons in Hnot. apply not_elem_of_cons in Hnot as [Hne Hnot].
  pose proof (merge_entry_refs_ok σ merged (a', og) Hok) as Hok'.
  pose proof (merge_entry_keeps σ merged (a', og) a l Ha) as Ha'.
  pose proof (merge_entry_frame σ merged a' og a l Hok Ha ltac:(simpl in Hne; congruence)) as Hfr.
  destruct (merge_entry find_cover (σ, merged) (a', og)) as [σ1 merged1].
  cbn [fst snd] in *. rewrite <- Hfr. eapply IH; eauto.
Qed.

(** With keys that are all new, every turn adds an entry. *)
Lemma merge_fold_length owned :
  forall σ merged,
    NoDup owned.*1 -> (forall a, a ∈ owned.*1 -> a ∉ merged.*1) ->
    length (fold_left (merge_entry find_cover) owned (σ, merged)).2
    = (length merged + length owned)%nat.
Proof.
  induction owned as [|[a og] owned IH]; intros σ merged Hnd Hnew;
    cbn [fold_left].
  - simpl. lia.
  - rewrite fmap_cons in Hnd, Hnew. cbn [fst] in Hnd, Hnew.
    apply NoDup_cons in Hnd as [Ha Hnd].
    assert (Hget : idict_get a merged = None).
    { apply idict_get_None, Hnew. left. }
    destruct (merge_entry_absent σ merged a og Hget) as (g & _ & _ & _ & ->).
    rewrite IH; [rewrite length_app; simpl; lia | exact Hnd |].
    intros a' Ha'. rewrite fmap_app, elem_of_app. simpl.
    intros [Hin|Hin].
    + eapply Hnew; [right|]; eauto.
    + apply list_elem_of_singleton in Hin. congruence.
Qed.
Lemma merge_games_eq σ installed owned :
  merge_games casefold find_cover σ installed owned =
    let st := fold_left (merge_entry find_cover) owned (σ, installed) in
    (st.1, sorted (fun l => casefold (name_at st.1 l)) st.2.*2).
Proof.
  unfold merge_games.
  by destruct (fold_left (merge_entry find_cover) owned (σ, installed)).
Qed.

(** The dict [merged] after the loop: what it held, then the new keys of
    [owned] in the order of [owned]. *)
Lemma merge_fold_keys owned :
  forall σ merged,
    exists new,
      (fold_left (merge_entry find_cover) owned (σ, merged)).2 = merged ++ new
      /\ new.*1 = first_occurrences merged.*1 owned.*1.
Proof.
  induction owned as [|[a og] owned IH]; intros σ merged; cbn [fold_left].
  - exists []. by rewrite app_nil_r.
  - rewrite fmap_cons. cbn [fst first_occurrences].
    destruct (idict_get a merged) as [l|] eqn:Hget.
    + rewrite (merge_entry_present _ _ _ _ _ Hget).
      rewrite bool_decide_eq_true_2.
      * apply IH.
      * destruct (decide (a ∈ merged.*1)) as [|Hn]; [done|].
        apply idict_get_None in Hn. congruence.
    + destruct (merge_entry_absent σ merged a og Hget) as (g & _ & _ & _ & ->).
      rewrite bool_decide_eq_false_2; [|by apply idict_get_None].
      destruct (IH (σ ++ [g]) (merged ++ [(a, length σ)])) as (new & -> & Hnew).
      exists ((a, length σ) :: new). split.
      * by rewrite <- app_assoc.
      * rewrite fmap_cons. simpl. f_equal. rewrite Hnew, fmap_app. reflexivity.
Qed.

Lemma startswith_placeholder (a : Z) : Py.startswith (placeholder a) "App " = true.
Proof.
  unfold Py.startswith, placeholder. simpl. by destruct (Py.str_of_int a).
Qed.

(** The turn for a key of [installed] whose object has the synthesized
    name and whose owned record has a string for a name. *)
Lemma merge_games_name σ installed owned a l g og s :
  NoDup owned.*1 -> refs_ok σ installed ->
  idict_get a installed = Some l -> σ !! l = Some g ->
  name g = placeholder a -> (a, og) ∈ owned -> og_get "name" og = PStr s ->
  (merge_games casefold find_cover σ installed owned).1 !! l = Some (set_name s g)
  /\ l ∈ (merge_games casefold find_cover σ installed owned).2.
Proof.
  intros Hnd Hok Ha Hl Hname Hin Hog.
  rewrite merge_games_eq. cbn [fst snd].
  apply list_elem_of_split in Hin as (pre & post & ->).
  rewrite fmap_app, fmap_cons in Hnd. cbn [fst] in Hnd.
  apply NoDup_app in Hnd as (_ & Hpre & [Hpost _]%NoDup_cons).
  assert (Hpre' : a ∉ pre.*1).
  { intros Hin. apply (Hpre _ Hin). left. }
  rewrite fold_left_app. cbn [fold_left].
  pose proof (merge_fold_refs_ok pre σ installed Hok) as Hok1.
  pose proof (merge_fold_keeps pre σ installed a l Ha) as Ha1.
  pose proof (merge_fold_frame pre σ installed a l Hok Ha Hpre') as Hfr1.
  destruct (fold_left (merge_entry find_cover) pre (σ, installed)) as [σ1 merged1].
  cbn [fst snd] in *.
  pose proof (merge_entry_refs_ok σ1 merged1 (a, og) Hok1) as Hok2.
  rewrite (merge_entry_present _ _ _ _ _ Ha1) in *.
  assert (Hn1 : name_at σ1 l = placeholder a).
  { unfold name_at. by rewrite Hfr1, Hl. }
  rewrite Hn1, startswith_placeholder, Hog in *. cbn [is_str andb pyval_str] in *.
  cbn [fst snd] in Hok2.
  split.
  - rewrite (merge_fold_frame post _ merged1 a l Hok2 Ha1 Hpost).
    by rewrite list_lookup_alter_eq, Hfr1, Hl.
  - rewrite <- sorted_Permutation.
    apply (list_elem_of_fmap_2' snd _ (a, l)); [|reflexivity].
    apply idict_get_elem. by apply merge_fold_keeps.
Qed.

End ReconcilerFacts.

(** C1 as stated fails: two installed records whose names differ only in
    case come out in the order of the installed mapping, the greater
    app_id first. *)
Lemma C1_counterexample :
  let σ := [mkGame 20 "Portal" true "/lib" "a" 4 1 "";
            mkGame 10 "portal" true "/lib" "b" 4 1 ""] in
  let r := merge_games casefold_ascii (fun _ => "") σ [(20, 0%nat); (10, 1%nat)] [] in
  exists g1 g2,
    games_at r.1 r.2 = [g1; g2]
    /\ casefold_ascii (name g1) = casefold_ascii (name g2)
    /\ appid g2 < appid g1.
Proof. do 2 eexists. split; [reflexivity|]. split; [reflexivity | by compute]. Qed.

(** C1, amended.  The list that [merge_games] returns holds the records of
    the merged mapping, ordered by casefolded name; records with equal
    casefolded names keep the order of the merged mapping, which is the
    installed mapping followed by the new keys of the owned mapping in
    their order.  The app_id plays no part in the order. *)
Theorem C1_merge_sorted_by_casefolded_name :
  forall (casefold : string -> string) (find_cover : Z -> string)
         (σ : store) (installed : list (Z * nat))
         (owned : list (Z * list (string * pyval))),
    let merged := (fold_left (merge_entry find_cover) owned (σ, installed)).2 in
    let σ' := (merge_games casefold find_cover σ installed owned).1 in
    let out := (merge_games casefold find_cover σ installed owned).2 in
    StronglySorted (key_le (fun l => casefold (name_at σ' l))) out
    /\ Permutation merged.*2 out
    /\ (forall k : string,
          filter (fun l => casefold (name_at σ' l) = k) out
          = filter (fun l => casefold (name_at σ' l) = k) merged.*2)
    /\ (exists new, merged = installed ++ new
                    /\ new.*1 = first_occurrences installed.*1 owned.*1).
Proof.
  intros casefold find_cover σ installed owned merged σ' out.
  subst merged σ' out. rewrite merge_games_eq. cbn [fst snd].
  split; [apply sorted_StronglySorted|].
  split; [apply sorted_Permutation|].
  split; [intros k; apply sorted_stable|].
  apply merge_fold_keys.
Qed.

(** C2.  [merge_games] assigns to the [name] of an object of its argument
    [installed]: after the call the installed record of app 10 is named
    as the owned record is. *)
Theorem C2_merge_assigns_to_installed_record :
  let σ := [mkGame 10 "App 10" true "/lib" "ten" 4 100 ""] in
  let installed := [(10, 0%nat)] in
  let owned := [(10, [("name", PStr "Portal")])] in
  let σ' := (merge_games casefold_ascii (fun _ => "") σ installed owned).1 in
  name <$> σ !! 0%nat = Some "App 10"
  /\ name <$> σ' !! 0%nat = Some "Portal"
  /\ idict_get 10 installed = Some 0%nat.
Proof. by compute. Qed.

(** C3.  When no key of [owned] is a key of [installed], [merge_games]
    returns as many records as both hold together.  When a key is in both,
    the installed record has the synthesized name and the owned record
    has a name, the merged record is the installed one with the name of
    the owned record: it is still installed and its library path is the
    same. *)
Theorem C3_merge_count_and_name_from_owned :
  forall (casefold : string -> string) (find_cover : Z -> string)
         (σ : store) (installed : list (Z * nat))
         (owned : list (Z * list (string * pyval))),
    (NoDup owned.*1 ->
     (forall a, a ∈ owned.*1 -> a ∉ installed.*1) ->
     length (merge_games casefold find_cover σ installed owned).2
     = (length installed + length owned)%nat)
    /\
    (forall (a : Z) (l : nat) (g : Game) (og : list (string * pyval)) (s : string),
        NoDup owned.*1 -> refs_ok σ installed ->
        idict_get a installed = Some l -> σ !! l = Some g ->
        name g = placeholder a -> SteamLibrary.installed g = true ->
        (a, og) ∈ owned -> og_get "name" og = PStr s ->
        l ∈ (merge_games casefold find_cover σ installed owned).2
        /\ exists g',
            (merge_games casefold find_cover σ installed owned).1 !! l = Some g'
            /\ appid g' = appid g /\ name g' = s
            /\ SteamLibrary.installed g' = true /\ library_path g' = library_path g).
Proof.
  intros casefold find_cover σ installed owned. split.
  - intros Hnd Hnew. rewrite merge_games_eq. cbn [snd].
    rewrite <- (Permutation_length (sorted_Permutation _ _)).
    rewrite length_fmap. by apply merge_fold_length.
  - intros a l g og s Hnd Hok Ha Hl Hname Hinst Hin Hog.
    destruct (merge_games_name casefold find_cover σ installed owned a l g og s)
      as [Hσ' Hout]; try assumption.
    split; [exact Hout|]. exists (set_name s g). by repeat split.
Qed.

(** C3 at a store with the installed apps 10 and 5: with the owned apps 7
    and 8 there are four records; with the owned app 10 named Portal the
    record of app 10 takes that name. *)
Lemma C3_witness :
  let g10 := mkGame 10 "App 10" true "/lib" "ten" 4 100 "" in
  let g5 := mkGame 5 "Alpha" true "/lib" "five" 4 100 "" in
  length (merge_games casefold_ascii (fun _ => "") [g10; g5]
            [(10, 0%nat); (5, 1%nat)]
            [(7, [("name", PStr "Beta")]); (8, [])]).2 = 4%nat
  /\ (0%nat ∈ (merge_games casefold_ascii (fun _ => "") [g10; g5]
                 [(10, 0%nat); (5, 1%nat)]
                 [(7, [("name", PStr "Beta")]); (10, [("name", PStr "Portal")])]).2
      /\ exists g',
          (merge_games casefold_ascii (fun _ => "") [g10; g5]
             [(10, 0%nat); (5, 1%nat)]
             [(7, [("name", PStr "Beta")]); (10, [("name", PStr "Portal")])]).1
            !! 0%nat = Some g'
          /\ appid g' = appid g10 /\ name g' = "Portal"
          /\ SteamLibrary.installed g' = true
          /\ library_path g' = library_path g10).
Proof.
  intros g10 g5. split.
  - apply (proj1 (C3_merge_count_and_name_from_owned casefold_ascii (fun _ => "")
                    [g10; g5] [(10, 0%nat); (5, 1%nat)]
                    [(7, [("name", PStr "Beta")]); (8, [])])).
    + apply (bool_decide_unpack _). vm_compute. exact I.
    + intros a Ha Hb. simpl in Ha, Hb.
      rewrite !elem_of_cons in Ha, Hb. rewrite elem_of_nil in Ha, Hb. lia.
  - apply (proj2 (C3_merge_count_and_name_from_owned casefold_ascii (fun _ => "")
                    [g10; g5] [(10, 0%nat); (5, 1%nat)]
                    [(7, [("name", PStr "Beta")]); (10, [("name", PStr "Portal")])])
             10 0%nat g10 [("name", PStr "Portal")] "Portal").
    + apply (bool_decide_unpack _). vm_compute. exact I.
    + split.
      * apply (bool_decide_unpack _). vm_compute. exact I.
      * repeat constructor; simpl; lia.
    + reflexivity.
    + reflexivity.
    + reflexivity.
    + reflexivity.
    + right. left.
    + reflexivity.
Defined.

(** ** Numbers and their text *)

Section IntFacts.












End IntFacts.

Section LiteralFacts.







End LiteralFacts.

(** ** The order of the floats *)

Section FloatFacts.

Import PyFloat.

Lemma rank_lt_irrefl (a : Z * Z * Z) : ~ rank_lt a a.
Proof. unfold rank_lt. lia. Qed.

Lemma rank_lt_trans (a b c : Z * Z * Z) : rank_lt a b -> rank_lt b c -> rank_lt a c.
Proof. unfold rank_lt. lia. Qed.

Lemma rank_lt_total (a b : Z * Z * Z) : rank_lt a b \/ a = b \/ rank_lt b a.
Proof.
  destruct a as [[a1 a2] a3], b as [[b1 b2] b3]. unfold rank_lt. cbn [fst snd].
  destruct (Z.lt_trichotomy a1 b1) as [?|[->|?]]; [lia| |lia].
  destruct (Z.lt_trichotomy a2 b2) as [?|[->|?]]; [lia| |lia].
  destruct (Z.lt_trichotomy a3 b3) as [?|[->|?]]; [lia| |lia].
  right. by left.
Qed.

Lemma SFcompare_rank (x y : spec_float) :
  is_nan x = false -> is_nan y = false ->
  match SFcompare x y with
  | Some Lt => rank_lt (rank x) (rank y)
  | Some Eq => rank x = rank y
  | Some Gt => rank_lt (rank y) (rank x)
  | None => False
  end.
Proof.
  intros Hx Hy.
  destruct x as [sx|sx| |sx mx ex], y as [sy|sy| |sy my ey]; try discriminate;
    try destruct sx; try destruct sy; cbn [SFcompare rank];
    try reflexivity; try (unfold rank_lt; cbn [fst snd]; lia).
  - destruct (Z.compare_spec ex ey) as [->|?|?];
      try (unfold rank_lt; cbn [fst snd]; lia).
    change (Pos.compare_cont Eq mx my) with (Pos.compare mx my).
    destruct (Pos.compare_spec mx my) as [->|?|?]; cbn [CompOpp];
      try reflexivity; unfold rank_lt; cbn [fst snd]; lia.
  - destruct (Z.compare_spec ex ey) as [->|?|?];
      try (unfold rank_lt; cbn [fst snd]; lia).
    change (Pos.compare_cont Eq mx my) with (Pos.compare mx my).
    destruct (Pos.compare_spec mx my) as [->|?|?];
      try reflexivity; unfold rank_lt; cbn [fst snd]; lia.
Qed.

Lemma SFltb_rank (x y : spec_float) :
  is_nan x = false -> is_nan y = false ->
  SFltb x y = true <-> rank_lt (rank x) (rank y).
Proof.
  intros Hx Hy. pose proof (SFcompare_rank x y Hx Hy) as H. unfold SFltb.
  destruct (SFcompare x y) as [[]|]; try done.
  - rewrite H. split; [discriminate | by intros ?%rank_lt_irrefl].
  - split; [discriminate|]. intros H'. exfalso.
    apply (rank_lt_irrefl (rank x)). by apply (rank_lt_trans _ (rank y)).
Qed.

Lemma SFeqb_rank (x y : spec_float) :
  is_nan x = false -> is_nan y = false ->
  SFeqb x y = true <-> rank x = rank y.
Proof.
  intros Hx Hy. pose proof (SFcompare_rank x y Hx Hy) as H. unfold SFeqb.
  destruct (SFcompare x y) as [[]|]; try done.
  - split; [discriminate|]. intros Heq. rewrite Heq in H.
    by apply rank_lt_irrefl in H.
  - split; [discriminate|]. intros Heq. rewrite Heq in H.
    by apply rank_lt_irrefl in H.
Qed.

Lemma SFleb_of_ltb (x y : spec_float) : SFltb x y = true -> SFleb x y = true.
Proof. unfold SFltb, SFleb. by destruct (SFcompare x y) as [[]|]. Qed.

Lemma SFltb_not_nan (x y : spec_float) :
  SFltb x y = true -> is_nan x = false /\ is_nan y = false.
Proof. destruct x, y; cbn; try discriminate; intros _; by split. Qed.

Lemma rank_opp (x : spec_float) :
  rank (SFopp x) = ((- (rank x).1.1, - (rank x).1.2), - (rank x).2).
Proof.
  destruct x as [[]|[]| |[] m e]; cbn [rank SFopp negb fst snd];
    rewrite ?Z.opp_involutive; reflexivity.
Qed.

Lemma is_nan_opp (x : spec_float) : is_nan (SFopp x) = is_nan x.
Proof. by destruct x. Qed.

Lemma rank_lt_opp (x y : spec_float) :
  rank_lt (rank (SFopp x)) (rank (SFopp y)) <-> rank_lt (rank y) (rank x).
Proof.
  rewrite !rank_opp. destruct (rank x) as [[x1 x2] x3], (rank y) as [[y1 y2] y3].
  unfold rank_lt. cbn [fst snd]. lia.
Qed.

Lemma rank_eq_opp (x y : spec_float) :
  rank (SFopp x) = rank (SFopp y) <-> rank x = rank y.
Proof.
  rewrite !rank_opp. destruct (rank x) as [[x1 x2] x3], (rank y) as [[y1 y2] y3].
  cbn [fst snd].
  split; intros [= H1 H2 H3];
    assert (x1 = y1) as -> by lia; assert (x2 = y2) as -> by lia;
    assert (x3 = y3) as -> by lia; reflexivity.
Qed.

(** The three cases of [max(0.0, min(1.0, x))]. *)
Lemma clamp01_cases (x : spec_float) :
  clamp01 x = zero \/ clamp01 x = one
  \/ (clamp01 x = x /\ SFltb zero x = true /\ SFltb x one = true).
Proof.
  unfold clamp01, PyFloat.max, PyFloat.min.
  destruct (SFltb x one) eqn:Hone.
  - destruct (SFltb zero x) eqn:Hzero; [|by left]. right. right. by split.
  - right. by left.
Qed.

Lemma clamp01_bounds (x : spec_float) :
  SFleb zero (clamp01 x) = true /\ SFleb (clamp01 x) one = true
  /\ is_nan (clamp01 x) = false.
Proof.
  destruct (clamp01_cases x) as [-> | [-> | (-> & Hzero & Hone)]]; [done..|].
  split; [by apply SFleb_of_ltb|]. split; [by apply SFleb_of_ltb|].
  by apply SFltb_not_nan in Hone as [? _].
Qed.

End FloatFacts.

(** ** The manifest extractor and the download-progress view *)

Section ExtractorFacts.

Variable repr_items : dict -> string.




(** What [_maybe_download_entry] does with a manifest that has a valid
    appid and bytes left. *)
Lemma maybe_download_entry_pending (appstate : dict) (library_path : string) :
  let id := _int repr_items (dict_get "appid" appstate) 0 in
  let bd := _int repr_items (dict_get "BytesDownloaded" appstate) 0 in
  let btd := _int repr_items (dict_get "BytesToDownload" appstate) 0 in
  let bts := _int repr_items (dict_get "BytesToStage" appstate) 0 in
  let total := bd + Z.max btd 0 in
  let entry_with progress :=
    mkEntry id (str_or repr_items (dict_get "name" appstate) (placeholder id))
            library_path bd btd bts total progress
            (_int repr_items (dict_get "StateFlags" appstate) 0) in
  id <> 0 -> 0 < btd \/ 0 < bts ->
  _maybe_download_entry repr_items appstate library_path =
    if 0 <? total then
      match PyFloat.of_int total, PyFloat.of_int bd with
      | Some ftotal, Some fdownloaded =>
          AnEntry (entry_with (clamp01 (PyFloat.div fdownloaded ftotal)))
      | _, _ => OverflowError
      end
    else AnEntry (entry_with PyFloat.zero).
Proof.
  intros id bd btd bts total entry_with Hid Hpending.
  unfold _maybe_download_entry. fold id bd btd bts. fold total.
  apply Z.eqb_neq in Hid. rewrite Hid.
  assert (Hidle : (btd <=? 0) && (bts <=? 0) = false).
  { apply andb_false_iff. destruct Hpending; [left | right]; by apply Z.leb_gt. }
  rewrite Hidle. destruct (0 <? total); [|reflexivity].
  by destruct (PyFloat.of_int total), (PyFloat.of_int bd).
Qed.

(** What every entry has. *)
Lemma maybe_download_entry_fields (appstate : dict) (lib : string) (e : entry) :
  _maybe_download_entry repr_items appstate lib = AnEntry e ->
  e_appid e <> 0
  /\ (0 < bytes_to_download e \/ 0 < bytes_to_stage e)
  /\ SFleb PyFloat.zero (progress e) = true
  /\ SFleb (progress e) PyFloat.one = true
  /\ PyFloat.is_nan (progress e) = false
  /\ e_library_path e = lib.
Proof.
  unfold _maybe_download_entry.
  destruct (Z.eqb_spec (_int repr_items (dict_get "appid" appstate) 0) 0);
    [discriminate|].
  destruct (_ && _) eqn:Hidle; [discriminate|].
  assert (Hpending :
            0 < _int repr_items (dict_get "BytesToDownload" appstate) 0
            \/ 0 < _int repr_items (dict_get "BytesToStage" appstate) 0).
  { apply andb_false_iff in Hidle as [?%Z.leb_gt | ?%Z.leb_gt]; lia. }
  destruct (0 <? _).
  - destruct (PyFloat.of_int _) as [ftotal|]; [|discriminate].
    destruct (PyFloat.of_int _) as [fdownloaded|]; [|discriminate].
    intros [= <-].
    cbn [e_appid bytes_to_download bytes_to_stage progress e_library_path].
    destruct (clamp01_bounds (PyFloat.div fdownloaded ftotal)) as (? & ? & ?).
    by repeat split.
  - intros [= <-].
    cbn [e_appid bytes_to_download bytes_to_stage progress e_library_path].
    by repeat split.
Qed.

End ExtractorFacts.



(** C9 as stated fails: with a negative count of downloaded bytes the sum
    is negative, the quotient clamps to 1, and the code gives 0. *)
Lemma C9_counterexample :
  let appstate := [("appid", Str "10"); ("BytesDownloaded", Str "-100");
                   ("BytesToDownload", Str "50")] in
  exists e fdownloaded ftotal,
    _maybe_download_entry (fun _ => "") appstate "/lib" = AnEntry e
    /\ bytes_downloaded e + Z.max (bytes_to_download e) 0 = -50
    /\ progress e = PyFloat.zero
    /\ PyFloat.of_int (bytes_downloaded e) = Some fdownloaded
    /\ PyFloat.of_int
         (bytes_downloaded e + Z.max (bytes_to_download e) 0) = Some ftotal
    /\ clamp01 (PyFloat.div fdownloaded ftotal) = PyFloat.one
    /\ SFeqb (progress e) (clamp01 (PyFloat.div fdownloaded ftotal)) = false.
Proof.
  intros appstate. eexists _, _, _. split; [reflexivity|].
  cbn [bytes_downloaded bytes_to_download progress].
  split; [reflexivity|]. split; [reflexivity|]. split; [reflexivity|].
  split; [reflexivity|]. split; reflexivity.
Qed.

(** C9, amended.  A manifest with a valid appid is left out of the
    download view exactly when no bytes remain to download or to stage.
    Otherwise, when the sum of the downloaded bytes and the bytes to
    download is zero or negative, it is in the view with progress 0.0;
    when the sum is positive, it is in the view with the float quotient of
    the downloaded bytes by the sum, clamped to the unit interval, unless
    the sum or the downloaded bytes are too large for a float: then the
    conversion raises and there is no view. *)
Theorem C9_download_progress :
  forall (repr_items : dict -> string) (appstate : dict) (library_path : string),
    let bd := _int repr_items (dict_get "BytesDownloaded" appstate) 0 in
    let btd := _int repr_items (dict_get "BytesToDownload" appstate) 0 in
    let bts := _int repr_items (dict_get "BytesToStage" appstate) 0 in
    let total := bd + Z.max btd 0 in
    _int repr_items (dict_get "appid" appstate) 0 <> 0 ->
    (_maybe_download_entry repr_items appstate library_path = NoEntry
     <-> btd <= 0 /\ bts <= 0)
    /\ (0 < btd \/ 0 < bts ->
        (total <= 0 ->
         exists e,
           _maybe_download_entry repr_items appstate library_path = AnEntry e
           /\ total_bytes e = total
           /\ progress e = PyFloat.zero)
        /\ (0 < total ->
            match PyFloat.of_int total, PyFloat.of_int bd with
            | Some ftotal, Some fdownloaded =>
                exists e,
                  _maybe_download_entry repr_items appstate library_path
                  = AnEntry e
                  /\ total_bytes e = total
                  /\ progress e = clamp01 (PyFloat.div fdownloaded ftotal)
                  /\ SFleb PyFloat.zero (progress e) = true
                  /\ SFleb (progress e) PyFloat.one = true
            | _, _ =>
                _maybe_download_entry repr_items appstate library_path
                = OverflowError
            end)).
Proof.
  intros repr_items appstate library_path bd btd bts total Hid. split.
  - unfold _maybe_download_entry. apply Z.eqb_neq in Hid. rewrite Hid.
    fold bd btd bts. fold total.
    destruct ((btd <=? 0) && (bts <=? 0)) eqn:Hidle.
    + split; [|reflexivity]. intros _.
      by apply andb_true_iff in Hidle as [?%Z.leb_le ?%Z.leb_le].
    + split.
      * destruct (0 <? total); [|discriminate].
        by destruct (PyFloat.of_int total), (PyFloat.of_int bd).
      * apply andb_false_iff in Hidle as [?%Z.leb_gt | ?%Z.leb_gt]; lia.
  - intros Hpending.
    rewrite (maybe_download_entry_pending repr_items appstate library_path
               Hid Hpending).
    fold bd btd bts. fold total. split.
    + intros Hneg. destruct (Z.ltb_spec 0 total); [lia|].
      eexists. split; [reflexivity|]. by split.
    + intros Hpos. destruct (Z.ltb_spec 0 total); [|lia].
      destruct (PyFloat.of_int total) as [ftotal|]; [|reflexivity].
      destruct (PyFloat.of_int bd) as [fdownloaded|]; [|reflexivity].
      eexists. split; [reflexivity|]. cbn [total_bytes progress].
      destruct (clamp01_bounds (PyFloat.div fdownloaded ftotal)) as (? & ? & _).
      by repeat split.
Qed.

(** C9 at 50 bytes downloaded and 50 to download: the progress is one
    half. *)
Lemma C9_witness :
  let appstate := [("appid", Str "10"); ("BytesDownloaded", Str "50");
                   ("BytesToDownload", Str "50")] in
  exists e,
    _maybe_download_entry (fun _ => "") appstate "/lib" = AnEntry e
    /\ total_bytes e = 100
    /\ progress e = S754_finite false 4503599627370496 (-53).
Proof.
  intros appstate.
  destruct (proj2 (proj2 (C9_download_progress (fun _ => "") appstate "/lib"
                            ltac:(discriminate))
                     ltac:(left; reflexivity))
              ltac:(reflexivity)) as (e & He & Htotal & Hprogress & _).
  exists e. split; [exact He|]. split; [exact Htotal|]. exact Hprogress.
Defined.

(** ** The library locator *)

Section LocatorFacts.

Variable unicode_escape : string -> option string.
Variable limit : nat.
Variable fs : filesystem.





End LocatorFacts.




(** ** The scan of the manifests *)

Section IdictSetFacts.

Context {V : Type}.
Implicit Types (d : list (Z * V)) (k : Z) (v : V).

Lemma idict_set_keys k v d :
  (idict_set k v d).*1 = if bool_decide (k ∈ d.*1) then d.*1 else d.*1 ++ [k].
Proof.
  induction d as [|[k0 v0] d IH]; [reflexivity|].
  cbn [idict_set]. destruct (Z.eqb_spec k0 k) as [->|Hk];
    rewrite !fmap_cons; cbn [fst].
  - rewrite bool_decide_eq_true_2; [reflexivity | left].
  - rewrite IH. destruct (bool_decide_reflect (k ∈ d.*1)) as [Hin|Hin].
    + rewrite bool_decide_eq_true_2; [reflexivity | by right].
    + rewrite bool_decide_eq_false_2; [reflexivity|].
      intros [?|?]%elem_of_cons; congruence.
Qed.

Lemma idict_set_elem k v d (a : Z) (x : V) :
  (a, x) ∈ idict_set k v d -> (a = k /\ x = v) \/ (a, x) ∈ d.
Proof.
  induction d as [|[k0 v0] d IH]; simpl.
  - intros [= -> ->]%list_elem_of_singleton. by left.
  - destruct (Z.eqb_spec k0 k) as [->|Hk].
    + intros [[= -> ->]|Hin]%elem_of_cons; [by left|]. right. by right.
    + intros [[= -> ->]|Hin]%elem_of_cons; [right; left|].
      destruct (IH Hin) as [?|?]; [by left|]. right. by right.
Qed.

Lemma idict_set_NoDup_keys k v d : NoDup d.*1 -> NoDup (idict_set k v d).*1.
Proof.
  intros Hnd. rewrite idict_set_keys.
  destruct (bool_decide_reflect (k ∈ d.*1)) as [Hin|Hin]; [exact Hnd|].
  apply NoDup_app. split; [exact Hnd|]. split; [|apply NoDup_singleton].
  intros a Ha ->%list_elem_of_singleton. contradiction.
Qed.

Lemma idict_set_NoDup_values k v d :
  NoDup d.*2 -> v ∉ d.*2 -> NoDup (idict_set k v d).*2.
Proof.
  induction d as [|[k0 v0] d IH]; simpl; intros Hnd Hv.
  - apply NoDup_singleton.
  - apply NoDup_cons in Hnd as [Hv0 Hnd].
    apply not_elem_of_cons in Hv as [Hne Hv].
    destruct (Z.eqb_spec k0 k) as [->|Hk]; simpl.
    + apply NoDup_cons. by split.
    + apply NoDup_cons. split; [|by apply IH].
      intros ([a x] & Hx & Hin)%list_elem_of_fmap. simpl in Hx. subst x.
      destruct (idict_set_elem _ _ _ _ _ Hin) as [[_ ->]|Hin']; [congruence|].
      apply Hv0. by apply (list_elem_of_fmap_2' snd _ (a, v0)).
Qed.

End IdictSetFacts.

Section ScanFacts.

Variable unicode_escape : string -> option string.
Variable limit : nat.
Variable repr_items : dict -> string.
Variable find_cover : Z -> string.
Variable fs : filesystem.

Lemma game_of_text_installed (lib data : string) (g : Game) :
  game_of_text repr_items find_cover unicode_escape limit lib data = Some g ->
  installed g = true.
Proof.
  unfold game_of_text, game_of_manifest.
  destruct (load_keyvalues unicode_escape limit data) as [| e | kv]; try discriminate.
  destruct (dict_get "AppState" kv) as [[s|appstate]|]; try discriminate.
  destruct (_ =? 0); [discriminate|]. by intros [= <-].
Qed.

Lemma scan_manifest_ok (lib : string) (σ : store) (games : list (Z * nat))
    (mf : file) :
  games_ok σ games ->
  games_ok (scan_manifest unicode_escape limit repr_items find_cover lib (σ, games) mf).1
           (scan_manifest unicode_escape limit repr_items find_cover lib (σ, games) mf).2.
Proof.
  intros (Hkeys & [Hnd Hlt] & Hobj). unfold scan_manifest.
  destruct mf as [| | data]; try (by repeat split).
  destruct (game_of_text repr_items find_cover unicode_escape limit lib data)
    as [g|] eqn:Hg; [|by repeat split].
  cbn [fst snd]. rewrite Forall_forall in Hlt.
  assert (Hfresh : length σ ∉ games.*2).
  { intros ([a l] & Hl & Hin)%list_elem_of_fmap. specialize (Hlt _ Hin).
    simpl in *. lia. }
  split; [by apply idict_set_NoDup_keys|]. split; [split|].
  - by apply idict_set_NoDup_values.
  - apply Forall_forall. intros [a l] Hin. simpl. rewrite length_app. simpl.
    destruct (idict_set_elem _ _ _ _ _ Hin) as [[_ ->]|Hin']; [lia|].
    specialize (Hlt _ Hin'). simpl in Hlt. lia.
  - intros a l Hin.
    destruct (idict_set_elem _ _ _ _ _ Hin) as [[-> ->]|Hin'].
    + exists g. split; [|split; [reflexivity|]].
      * rewrite lookup_app_r by lia. by rewrite Nat.sub_diag.
      * by eapply game_of_text_installed.
    + destruct (Hobj _ _ Hin') as (g' & Hg' & Ha & Hinst).
      exists g'. split; [|by split].
      rewrite lookup_app_l; [exact Hg'|]. exact (Hlt _ Hin').
Qed.

Lemma scan_library_ok (lib : string) (σ : store) (games : list (Z * nat)) :
  games_ok σ games ->
  games_ok (scan_library unicode_escape limit repr_items find_cover fs (σ, games) lib).1
           (scan_library unicode_escape limit repr_items find_cover fs (σ, games) lib).2.
Proof.
  unfold scan_library. destruct (has_steamapps fs lib); [|done].
  generalize (manifests fs lib). intros mfs. revert σ games.
  induction mfs as [|mf mfs IH]; intros σ games Hok; cbn [fold_left]; [exact Hok|].
  pose proof (scan_manifest_ok lib σ games mf Hok) as Hok'.
  destruct (scan_manifest unicode_escape limit repr_items find_cover lib (σ, games) mf)
    as [σ1 games1].
  by apply IH.
Qed.

(** The dict that [parse_installed_games] returns is such a dict of
    games. *)
Lemma parse_installed_games_ok (σ : store) (libs : list string) :
  games_ok (parse_installed_games unicode_escape limit repr_items find_cover fs σ libs).1
           (parse_installed_games unicode_escape limit repr_items find_cover fs σ libs).2.
Proof.
  unfold parse_installed_games.
  assert (Hstart : games_ok σ []).
  { split; [constructor|]. split; [split; constructor|].
    intros a l Hin. by apply elem_of_nil in Hin. }
  revert Hstart. generalize (@nil (Z * nat)). revert σ.
  induction libs as [|lib libs IH]; intros σ games Hok; cbn [fold_left];
    [exact Hok|].
  pose proof (scan_library_ok lib σ games Hok) as Hok'.
  destruct (scan_library unicode_escape limit repr_items find_cover fs (σ, games) lib)
    as [σ1 games1].
  by apply IH.
Qed.

End ScanFacts.

(** From the manifests to the catalog: the manifests of app 10, named
    Zeta, and of app 5, named Alpha, listed in that order and with no
    owned games, give the catalog Alpha, Zeta. *)
Example catalog_of_two_manifests :
  let m10 := unwords [quoted "AppState"; "{"; quoted "appid"; quoted "10";
                      quoted "name"; quoted "Zeta"; "}"] in
  let m5 := unwords [quoted "AppState"; "{"; quoted "appid"; quoted "5";
                     quoted "name"; quoted "Alpha"; "}"] in
  let fs := {|
    path_of := fun p => p;
    expanduser := fun p => p;
    has_steamapps := fun p => String.eqb p "/steam";
    libraryfolders_vdf := fun _ => Missing;
    manifests := fun p => if String.eqb p "/steam" then [Content m10; Content m5] else [];
    resolved := fun p => p
  |} in
  let scan :=
    parse_installed_games escape_simple recursion_limit (fun _ => "") (fun _ => "") fs []
      (discover_library_paths escape_simple recursion_limit fs "/steam") in
  let catalog := merge_games casefold_ascii (fun _ => "") scan.1 scan.2 [] in
  (fun g => (name g, appid g)) <$> games_at catalog.1 catalog.2
  = [("Alpha", 5); ("Zeta", 10)].
Proof. by vm_compute. Qed.

(** The nested document [a 1 b LBRACE c 2 RBRACE], from its text. *)
Example load_nested_document :
  load_keyvalues escape_simple recursion_limit
    (unwords [quoted "a"; quoted "1"; quoted "b"; "{"; quoted "c"; quoted "2"; "}"])
  = Ok [("a", Str "1"); ("b", Dict [("c", Str "2")])].
Proof. by vm_compute. Qed.

(** The parser reads the generator only as far as it needs: after a
    closing brace at the top level it returns, and a quoted string that is
    not closed further on is never reached. *)
Example stray_brace_hides_open_quote :
  raises <$> tokenize_keyvalues escape_simple (unwords ["}"; String quote "abc"])
  = Some (Some (InvalidQuotedString 2))
  /\ load_keyvalues escape_simple recursion_limit (unwords ["}"; String quote "abc"]) = Ok [].
Proof. by vm_compute. Qed.

(** * Further properties *)

Import KeyValuesText.

(** ** The tokenizer and the parser *)

Section TextFacts.

Variable unicode_escape : string -> option string.

(** X1.  Every turn of the tokenizer loop that goes on moves the offset
    forward by the length of the text it passes, which is at least one
    character.  So the loop ends within [len(text) + 1] turns, the parser
    ends as well, and [load_keyvalues] never runs on for ever. *)
Theorem X1_tokenizer_advances_and_load_ends :
  (forall (i : nat) (s : string),
      match tokenize_turn unicode_escape i s with
      | Skip i' s' | Yields _ i' s' =>
          exists mid, s = String.append mid s'
                      /\ i' = (i + String.length mid)%nat
                      /\ (0 < String.length mid)%nat
      | _ => True
      end) /\
  (forall text : string, is_Some (tokenize_keyvalues unicode_escape text)) /\
  (forall (limit : nat) (ts : tokens), parse_keyvalues limit ts <> Diverges) /\
  (forall (limit : nat) (text : string),
      load_keyvalues unicode_escape limit text <> Diverges).
Proof.
  split; [|split; [|split]].
  - intros i s.
    pose proof (tokenize_turn_offset unicode_escape i s) as Hoff.
    pose proof (tokenize_turn_shrinks unicode_escape i s) as Hlt.
    destruct (tokenize_turn unicode_escape i s) as [| e | i' s' | t i' s'];
      try exact I;
      destruct Hoff as (mid & Hs & Hi); exists mid;
      (split; [exact Hs|]); (split; [exact Hi|]);
      rewrite Hs, string_length_append in Hlt; lia.
  - apply tokenize_keyvalues_total.
  - apply parse_keyvalues_total.
  - intros limit text. unfold load_keyvalues.
    destruct (tokenize_keyvalues_total unicode_escape text) as [ts ->].
    apply parse_keyvalues_total.
Qed.

Lemma render_cons (t : token) (l : list token) :
  render (t :: l) = String.append (render_token t) (String " " (render l)).
Proof. reflexivity. Qed.

Lemma match_quoted_plain (s rest : string) :
  plain s = true ->
  match_quoted (String.append s (String quote rest)) = Some (s, rest).
Proof.
  induction s as [|c s IH]; intros Hplain.
  - reflexivity.
  - rewrite string_append_cons. simpl in Hplain.
    apply andb_true_iff in Hplain as [Hc Hs].
    apply andb_true_iff in Hc as [Hc _].
    apply andb_true_iff in Hc as [Hq Hb].
    cbn [match_quoted].
    apply negb_true_iff in Hq, Hb. rewrite Hq, Hb, (IH Hs). reflexivity.
Qed.

Lemma render_length (l : list token) :
  (2 * length l <= String.length (render l))%nat.
Proof.
  induction l as [|t l IH]; [simpl; lia|].
  rewrite render_cons, string_length_append. simpl.
  assert (0 < String.length (render_token t))%nat; [|lia].
  destruct t; simpl; lia.
Qed.

Hypothesis unicode_escape_plain :
  forall s : string, plain s = true -> unicode_escape s = Some s.

Lemma tokenize_loop_render (l : list token) :
  forall (f i : nat),
    forallb plain_token l = true -> (2 * length l < f)%nat ->
    tokenize_loop unicode_escape f i (render l) = Some (of_list l).
Proof.
  induction l as [|t l IH]; intros f i Hplain Hf.
  - destruct f; [simpl in Hf; lia | reflexivity].
  - simpl in Hplain. apply andb_true_iff in Hplain as [Ht Hl].
    destruct f as [|[|f]]; [simpl in Hf; lia..|].
    rewrite render_cons.
    destruct t as [s| |].
    + unfold render_token, quoted.
      rewrite string_append_cons, string_append_snoc.
      cbn [tokenize_loop]. unfold tokenize_turn at 1.
      change (Py.isspace quote) with false.
      change (Ascii.eqb quote "/") with false.
      change (Ascii.eqb quote "{") with false.
      change (Ascii.eqb quote "}") with false.
      change (Ascii.eqb quote quote) with true.
      cbn [andb]. cbv iota.
      rewrite (match_quoted_plain s _ Ht). unfold _unescape.
      rewrite (unicode_escape_plain s Ht).
      change (tokenize_turn unicode_escape ?j (String " " ?r)) with (Skip (S j) r).
      cbv iota. rewrite IH; [reflexivity | exact Hl | simpl in Hf; lia].
    + change (String.append (render_token LBRACE) ?r) with (String "{" r).
      cbn [tokenize_loop].
      change (tokenize_turn unicode_escape ?j (String "{" ?r)) with (Yields LBRACE (S j) r).
      cbv iota.
      change (tokenize_turn unicode_escape ?j (String " " ?r)) with (Skip (S j) r).
      cbv iota. rewrite IH; [reflexivity | exact Hl | simpl in Hf; lia].
    + change (String.append (render_token RBRACE) ?r) with (String "}" r).
      cbn [tokenize_loop].
      change (tokenize_turn unicode_escape ?j (String "}" ?r)) with (Yields RBRACE (S j) r).
      cbv iota.
      change (tokenize_turn unicode_escape ?j (String " " ?r)) with (Skip (S j) r).
      cbv iota. rewrite IH; [reflexivity | exact Hl | simpl in Hf; lia].
Qed.

Lemma tokenize_render (l : list token) :
  forallb plain_token l = true ->
  tokenize_keyvalues unicode_escape (render l) = Some (of_list l).
Proof.
  intros Hplain. apply tokenize_loop_render; [exact Hplain|].
  pose proof (render_length l). lia.
Qed.

End TextFacts.

Lemma escape_simple_plain (s : string) : plain s = true -> escape_simple s = Some s.
Proof.
  induction s as [|c s IH]; intros Hplain; [reflexivity|].
  simpl in Hplain.
  apply andb_true_iff in Hplain as [Hc Hs].
  apply andb_true_iff in Hc as [Hc _].
  apply andb_true_iff in Hc as [_ Hb].
  apply negb_true_iff in Hb. cbn [escape_simple]. rewrite Hb, (IH Hs). reflexivity.
Qed.

(** X2.  When the codec leaves ASCII text without backslash as it is, the
    text made of tokens, each string between quotes (ASCII, with no quote
    and no backslash in it) and a blank after each token, is tokenized to
    these tokens, with no failure. *)
Theorem X2_tokenize_rendered_tokens :
  forall (unicode_escape : string -> option string) (l : list token),
    (forall s : string, plain s = true -> unicode_escape s = Some s) ->
    forallb plain_token l = true ->
    tokenize_keyvalues unicode_escape (render l) = Some (of_list l).
Proof.
  intros unicode_escape l Hcodec Hplain. by apply tokenize_render.
Qed.

(** X2 at the tokens [name LBRACE a b RBRACE]. *)
Lemma X2_witness :
  tokenize_keyvalues escape_simple
    (render [TStr "name"; LBRACE; TStr "a b"; TStr ""; RBRACE])
  = Some (of_list [TStr "name"; LBRACE; TStr "a b"; TStr ""; RBRACE]).
Proof.
  apply (X2_tokenize_rendered_tokens escape_simple
           [TStr "name"; LBRACE; TStr "a b"; TStr ""; RBRACE]
           escape_simple_plain).
  reflexivity.
Defined.



(** *** Keys of a parsed tree *)

Lemma unique_keys_Dict (d : dict) :
  unique_keys (Dict d) <-> NoDup (map fst d) /\ Forall (fun kv => unique_keys kv.2) d.
Proof.
  cbn [unique_keys]. apply and_iff_compat_l.
  induction d as [|[k v] d IH].
  - split; [constructor | done].
  - rewrite Forall_cons, <- IH. reflexivity.
Qed.

Lemma dict_set_NoDup {V : Type} (key : string) (v : V) (d : list (string * V)) :
  NoDup (map fst d) -> NoDup (map fst (dict_set key v d)).
Proof.
  intros Hnd. rewrite keys_dict_set.
  destruct (bool_decide_reflect (key ∈ map fst d)) as [Hin|Hin]; [exact Hnd|].
  apply NoDup_app. split; [exact Hnd|]. split; [|apply NoDup_singleton].
  intros k Hk ->%list_elem_of_singleton. contradiction.
Qed.

Lemma dict_set_Forall {V : Type} (P : string * V -> Prop) (key : string) (v : V)
    (d : list (string * V)) :
  (forall k, P (k, v)) -> Forall P d -> Forall P (dict_set key v d).
Proof.
  intros Hv. induction 1 as [|[k x] d Hx Hd IH]; simpl.
  - by repeat constructor.
  - destruct (String.eqb k key); constructor; auto.
Qed.

Lemma build_unique_keys (d : dict) :
  forall acc : dict,
    NoDup (map fst acc) -> Forall (fun kv => unique_keys kv.2) acc ->
    NoDup (map fst (build_onto acc d))
    /\ Forall (fun kv => unique_keys kv.2) (build_onto acc d).
Proof.
  induction d as [s | d IHd | | k v d IHv IHd] using dict_node_ind
    with (P := fun v => unique_keys (build_node v)).
  - exact I.
  - rewrite build_node_Dict. apply unique_keys_Dict.
    apply IHd; constructor.
  - intros acc Hnd Hall. by split.
  - intros acc Hnd Hall. simpl. apply IHd.
    + by apply dict_set_NoDup.
    + apply dict_set_Forall; [intros; exact IHv | exact Hall].
Qed.

(** X4.  No dict of a parsed tree holds a key twice, at any depth. *)
Theorem X4_parsed_tree_has_unique_keys :
  forall (limit : nat) (ts : tokens) (root : dict),
    parse_keyvalues limit ts = Ok root -> unique_keys (Dict root).
Proof.
  intros limit ts root Hparse.
  destruct (parse_keyvalues_shape limit ts root Hparse) as (body & -> & _).
  apply unique_keys_Dict. apply build_unique_keys; constructor.
Qed.

(** X4 at the tokens [x 1 y LBRACE a 1 a 2 RBRACE x 2]. *)
Lemma X4_witness :
  unique_keys (Dict [("x", Str "2"); ("y", Dict [("a", Str "2")])]).
Proof.
  apply (X4_parsed_tree_has_unique_keys recursion_limit
           (of_list [TStr "x"; TStr "1"; TStr "y"; LBRACE; TStr "a"; TStr "1";
                     TStr "a"; TStr "2"; RBRACE; TStr "x"; TStr "2"])).
  reflexivity.
Defined.

(** X5.  A failure of the tokenizer where the parser reads on, be it where
    a key or where a value is expected, at any depth, is the failure of
    [parse_keyvalues]: no tree is returned.  Only when the blocks before
    it nest deeper than the stack of the interpreter has room for does the
    parser never read that far: it has raised [RecursionError] before. *)
Theorem X5_tokenizer_failure_reaches_the_caller :
  forall (limit : nat) (pre : list token) (d : nat) (e : error),
    key_expected_after 0 pre = Some d ->
    parse_keyvalues limit (prepend pre (TRaise e))
    = Error (if (deepest 0 pre <? limit)%nat then e else RecursionError)
    /\ forall key : string,
         parse_keyvalues limit (prepend pre (TYield (TStr key) (TRaise e)))
         = Error (if (deepest 0 pre <? limit)%nat then e else RecursionError).
Proof.
  intros limit pre d e Hkey.
  destruct (key_expected_cut pre d Hkey) as (frames & cur & -> & _).
  split; [|intros key]; by apply parse_keyvalues_open_raise.
Qed.

(** X5 at the tokens [k LBRACE], then a failure at offset 7. *)
Lemma X5_witness :
  parse_keyvalues recursion_limit
    (prepend [TStr "k"; LBRACE] (TRaise (InvalidQuotedString 7)))
  = Error (InvalidQuotedString 7)
  /\ forall key : string,
       parse_keyvalues recursion_limit
         (prepend [TStr "k"; LBRACE]
            (TYield (TStr key) (TRaise (InvalidQuotedString 7))))
       = Error (InvalidQuotedString 7).
Proof.
  apply (X5_tokenizer_failure_reaches_the_caller recursion_limit
           [TStr "k"; LBRACE] 1%nat).
  reflexivity.
Defined.

(** ** Numbers and their text *)



(** ** The locator *)

Section FindFacts.

Context {A : Type}.
Variable p : A -> bool.

Lemma find_first (pre : list A) (x : A) (post : list A) :
  Forall (fun y => p y = false) pre -> p x = true ->
  List.find p (pre ++ x :: post) = Some x.
Proof.
  induction 1 as [|y pre Hy _ IH]; intros Hx; simpl.
  - by rewrite Hx.
  - rewrite Hy. by apply IH.
Qed.

Lemma find_Some_split (l : list A) (x : A) :
  List.find p l = Some x ->
  exists pre post, l = pre ++ x :: post
                   /\ Forall (fun y => p y = false) pre /\ p x = true.
Proof.
  induction l as [|y l IH]; simpl; [discriminate|].
  destruct (p y) eqn:Hy.
  - intros [= ->]. exists [], l. by repeat split.
  - intros Hfind. destruct (IH Hfind) as (pre & post & -> & Hpre & Hx).
    exists (y :: pre), post. split; [reflexivity|]. split; [|exact Hx].
    by constructor.
Qed.

Lemma find_None_iff (l : list A) :
  List.find p l = None <-> Forall (fun y => p y = false) l.
Proof.
  induction l as [|y l IH]; simpl.
  - split; [constructor | done].
  - rewrite Forall_cons. destruct (p y); [|by rewrite IH; intuition].
    split; [discriminate | intros [? _]; discriminate].
Qed.

End FindFacts.

Section LocatorInvariants.

Variable unicode_escape : string -> option string.
Variable limit : nat.
Variable fs : filesystem.

Lemma add_ok (first libs : list string) (p : string) :
  SteamRoot.libs_ok fs first libs -> SteamRoot.libs_ok fs first (add fs libs p).
Proof.
  intros (Hnd & Hall & more & ->). unfold add.
  destruct (has_steamapps fs (expanduser fs p)) eqn:Hdir; [|by repeat split; eauto].
  destruct (bool_decide_reflect (expanduser fs p ∈ first ++ more)) as [Hin|Hin];
    simpl; [by repeat split; eauto|].
  split; [|split].
  - apply NoDup_app. split; [exact Hnd|]. split; [|apply NoDup_singleton].
    intros x Hx ->%list_elem_of_singleton. contradiction.
  - apply Forall_app. split; [exact Hall|]. by repeat constructor.
  - exists (more ++ [expanduser fs p]). by rewrite app_assoc.
Qed.

Lemma add_listed_ok (first libs : list string) (kv : string * node) :
  SteamRoot.libs_ok fs first libs -> SteamRoot.libs_ok fs first (add_listed fs libs kv).
Proof.
  intros Hok. unfold add_listed.
  destruct (snd kv) as [s|v]; [exact Hok|].
  destruct (dict_get "path" v) as [[p|?]|]; try exact Hok.
  destruct (negb (String.eqb p EmptyString)); [by apply add_ok | exact Hok].
Qed.

Lemma discover_ok (steam_root : string) :
  SteamRoot.libs_ok fs (add fs [] steam_root)
          (discover_library_paths unicode_escape limit fs steam_root).
Proof.
  assert (Hstart : SteamRoot.libs_ok fs (add fs [] steam_root) (add fs [] steam_root)).
  { unfold add. destruct (has_steamapps fs (expanduser fs steam_root)) eqn:Hdir;
      simpl.
    - split; [apply NoDup_singleton|]. split; [by repeat constructor|].
      exists []. by rewrite app_nil_r.
    - split; [constructor|]. split; [constructor|]. by exists []. }
  unfold discover_library_paths.
  destruct (libraryfolders_vdf fs steam_root) as [| | data]; try exact Hstart.
  destruct (load_keyvalues unicode_escape limit data) as [| e | kv]; try exact Hstart.
  destruct (dict_get "libraryfolders" kv) as [[s|root]|]; try exact Hstart.
  revert Hstart. generalize (add fs [] steam_root) at 2 4.
  induction root as [|kv' root IH]; intros libs Hok; cbn [fold_left];
    [exact Hok|].
  apply IH. by apply add_listed_ok.
Qed.

End LocatorInvariants.





(** X9.  [find_cover] returns the first of its six candidates that exists,
    in the order of the list, and the empty string when the cache directory
    is missing or no candidate exists. *)
Theorem X9_find_cover_first_existing_candidate :
  forall (child : string -> string -> string) (is_dir path_exists : string -> bool)
         (steam_root : string) (appid : Z),
    let cache := child (child steam_root "appcache") "librarycache" in
    let cs := SteamRoot.cover_candidates child steam_root appid in
    let r := SteamRoot.find_cover child is_dir path_exists steam_root appid in
    length cs = 6%nat
    /\ (forall pre c post,
          is_dir cache = true -> cs = pre ++ c :: post ->
          Forall (fun y => path_exists y = false) pre ->
          path_exists c = true -> r = c)
    /\ (is_dir cache = false -> r = EmptyString)
    /\ (Forall (fun y => path_exists y = false) cs -> r = EmptyString)
    /\ (r <> EmptyString ->
        is_dir cache = true /\ r ∈ cs /\ path_exists r = true).
Proof.
  intros child is_dir path_exists steam_root appid cache cs r.
  subst r. unfold SteamRoot.find_cover. fold cache cs.
  split; [reflexivity|]. split; [|split; [|split]].
  - intros pre c post -> Hcs Hpre Hc. rewrite Hcs.
    by rewrite (find_first _ _ _ _ Hpre Hc).
  - by intros ->.
  - intros Hnone. apply find_None_iff in Hnone. rewrite Hnone.
    by destruct (is_dir cache).
  - destruct (is_dir cache); [|done].
    destruct (List.find path_exists cs) as [c|] eqn:Hfind; [|done].
    intros _.
    destruct (find_Some_split _ _ _ Hfind) as (pre & post & Hcs & _ & Hc).
    split; [reflexivity|]. split; [|exact Hc].
    rewrite Hcs. apply elem_of_app. right. left.
Qed.

(** X9 for app 570 with only the capsule and the header in the cache. *)
Lemma X9_witness :
  let child := fun p name => String.append p (String "/" name) in
  SteamRoot.find_cover child (fun _ => true)
    (fun p => String.eqb p "/s/appcache/librarycache/570_library_capsule.png"
              || String.eqb p "/s/appcache/librarycache/570_header.jpg")
    "/s" 570
  = "/s/appcache/librarycache/570_library_capsule.png".
Proof.
  intros child.
  apply (proj1 (proj2 (X9_find_cover_first_existing_candidate child (fun _ => true)
                  (fun p => String.eqb p "/s/appcache/librarycache/570_library_capsule.png"
                            || String.eqb p "/s/appcache/librarycache/570_header.jpg")
                  "/s" 570))
           [child (child (child "/s" "appcache") "librarycache") "570_library_600x900.jpg";
            child (child (child "/s" "appcache") "librarycache") "570_library_600x900.png";
            child (child (child "/s" "appcache") "librarycache") "570_library_capsule.jpg"]
           (child (child (child "/s" "appcache") "librarycache") "570_library_capsule.png")
           [child (child (child "/s" "appcache") "librarycache") "570_header.jpg";
            child (child (child "/s" "appcache") "librarycache") "570_header.png"]).
  - reflexivity.
  - reflexivity.
  - by repeat constructor.
  - reflexivity.
Defined.

(** ** The reconciler, further *)

Section FirstOccurrences.

Context {A : Type} `{EqDecision A}.

Lemma first_occurrences_elem (l : list A) :
  forall (seen : list A) (x : A),
    x ∈ first_occurrences seen l <-> x ∈ l /\ x ∉ seen.
Proof.
  induction l as [|k l IH]; intros seen x; cbn [first_occurrences].
  - rewrite !elem_of_nil. split; [done | by intros [? _]].
  - destruct (bool_decide_reflect (k ∈ seen)) as [Hin|Hin].
    + rewrite IH, elem_of_cons. split; [by intros [? ?]; auto|].
      intros [[->|?] ?]; [contradiction | done].
    + rewrite !elem_of_cons, IH, elem_of_app, list_elem_of_singleton.
      split.
      * intros [->|[? Hx]]; [by auto|]. split; [by right|]. intros ?. apply Hx. by left.
      * intros [[->|?] Hx]; [by left|].
        destruct (decide (x = k)) as [->|Hne]; [by left|]. right.
        split; [done|]. by intros [?|?].
Qed.

Lemma first_occurrences_NoDup (l : list A) :
  forall seen : list A, NoDup (first_occurrences seen l).
Proof.
  induction l as [|k l IH]; intros seen; cbn [first_occurrences].
  - constructor.
  - destruct (bool_decide (k ∈ seen)); [apply IH|].
    apply NoDup_cons. split; [|apply IH].
    rewrite first_occurrences_elem. intros [_ Hk]. apply Hk.
    apply elem_of_app. right. by apply list_elem_of_singleton.
Qed.

End FirstOccurrences.

Section ReconcilerMore.

Variable casefold : string -> string.
Variable find_cover : Z -> string.

Implicit Types (σ : store) (merged installed : list (Z * nat))
               (owned : list (Z * list (string * pyval))).

Lemma set_name_own (g : Game) : set_name (name g) g = g.
Proof. by destruct g. Qed.

Lemma set_name_trans (g g' g'' : Game) :
  set_name (name g') g = g' -> set_name (name g'') g' = g'' ->
  set_name (name g'') g = g''.
Proof. intros <- <-. reflexivity. Qed.

(** A turn leaves every object of the store in place and changes no field
    of it but the name. *)
Lemma merge_entry_store σ merged e l g :
  σ !! l = Some g ->
  exists g', (merge_entry find_cover (σ, merged) e).1 !! l = Some g'
             /\ set_name (name g') g = g'.
Proof.
  intros Hl. destruct e as [a og].
  destruct (idict_get a merged) as [l'|] eqn:Hget.
  - rewrite (merge_entry_present _ _ _ _ _ _ Hget). cbn [fst].
    destruct (_ && _); [|exists g; split; [exact Hl | apply set_name_own]].
    destruct (decide (l' = l)) as [->|Hne].
    + rewrite list_lookup_alter_eq, Hl. eexists. split; [reflexivity|]. reflexivity.
    + rewrite list_lookup_alter_ne by done.
      exists g. split; [exact Hl | apply set_name_own].
  - destruct (merge_entry_absent find_cover σ merged a og Hget)
      as (g0 & _ & _ & _ & ->).
    cbn [fst]. exists g. split; [|apply set_name_own].
    rewrite lookup_app_l; [exact Hl|]. by eapply lookup_lt_Some.
Qed.

Lemma merge_fold_store owned :
  forall σ merged l g,
    σ !! l = Some g ->
    exists g', (fold_left (merge_entry find_cover) owned (σ, merged)).1 !! l = Some g'
               /\ set_name (name g') g = g'.
Proof.
  induction owned as [|e owned IH]; intros σ merged l g Hl; cbn [fold_left].
  - exists g. split; [exact Hl | apply set_name_own].
  - destruct (merge_entry_store σ merged e l g Hl) as (g1 & Hg1 & Hn1).
    destruct (merge_entry find_cover (σ, merged) e) as [σ1 merged1].
    destruct (IH σ1 merged1 l g1 Hg1) as (g2 & Hg2 & Hn2).
    exists g2. split; [exact Hg2|]. by eapply set_name_trans.
Qed.

(** The state of the loop when it comes to the entry of [a]. *)
Lemma merge_fold_at σ installed owned a og :
  NoDup owned.*1 -> refs_ok σ installed -> (a, og) ∈ owned ->
  exists σ1 merged1,
    refs_ok σ1 merged1
    /\ (forall l, idict_get a installed = Some l ->
                  idict_get a merged1 = Some l /\ σ1 !! l = σ !! l)
    /\ (idict_get a installed = None -> idict_get a merged1 = None)
    /\ (forall l,
          idict_get a (merge_entry find_cover (σ1, merged1) (a, og)).2 = Some l ->
          (fold_left (merge_entry find_cover) owned (σ, installed)).1 !! l
          = (merge_entry find_cover (σ1, merged1) (a, og)).1 !! l
          /\ idict_get a (fold_left (merge_entry find_cover) owned (σ, installed)).2
             = Some l).
Proof.
  intros Hnd Hok Hin.
  apply list_elem_of_split in Hin as (pre & post & ->).
  rewrite fmap_app, fmap_cons in Hnd. cbn [fst] in Hnd.
  apply NoDup_app in Hnd as (_ & Hpre & [Hpost _]%NoDup_cons).
  assert (Hpre' : a ∉ pre.*1).
  { intros Hin. apply (Hpre _ Hin). left. }
  pose proof (merge_fold_refs_ok find_cover pre σ installed Hok) as Hok1.
  pose proof (fun l => merge_fold_keeps find_cover pre σ installed a l) as Hkeep1.
  pose proof (fun l => merge_fold_frame find_cover pre σ installed a l Hok) as Hfr1.
  pose proof (merge_fold_keys find_cover pre σ installed) as (new & Hmerged & Hnew).
  rewrite fold_left_app. cbn [fold_left].
  destruct (fold_left (merge_entry find_cover) pre (σ, installed)) as [σ1 merged1].
  cbn [fst snd] in *.
  exists σ1, merged1.
  split; [exact Hok1|]. split; [|split].
  - intros l Ha. split; [by apply Hkeep1 | by apply Hfr1].
  - intros Ha. rewrite Hmerged.
    rewrite idict_get_app, Ha. apply idict_get_None. rewrite Hnew.
    rewrite first_occurrences_elem. by intros [? _].
  - intros l Hl.
    pose proof (merge_entry_refs_ok find_cover σ1 merged1 (a, og) Hok1) as Hok2.
    destruct (merge_entry find_cover (σ1, merged1) (a, og)) as [σ2 merged2].
    cbn [fst snd] in *. split.
    + by apply (merge_fold_frame find_cover post σ2 merged2 a l).
    + by apply merge_fold_keeps.
Qed.

End ReconcilerMore.

Section CatalogFacts.

Variable casefold : string -> string.
Variable find_cover : Z -> string.

Implicit Types (σ : store) (merged installed : list (Z * nat))
               (owned : list (Z * list (string * pyval))).

(** Every key of the dict is the appid of its object. *)
Lemma merge_entry_keyed σ merged e :
  Forall (fun al => appid <$> σ !! al.2 = Some al.1) merged ->
  Forall (fun al => appid <$> (merge_entry find_cover (σ, merged) e).1 !! al.2
                    = Some al.1)
         (merge_entry find_cover (σ, merged) e).2.
Proof.
  intros Hkeyed. destruct e as [a og].
  destruct (idict_get a merged) as [l'|] eqn:Hget.
  - rewrite (merge_entry_present _ _ _ _ _ _ Hget). cbn [fst snd].
    destruct (_ && _); [|exact Hkeyed].
    eapply Forall_impl; [exact Hkeyed|]. intros [a' l] Hal. cbn [fst snd] in *.
    rewrite list_lookup_alter. case_decide; [subst l'|exact Hal].
    rewrite <- Hal. by destruct (σ !! l).
  - destruct (merge_entry_absent find_cover σ merged a og Hget)
      as (g & Hid & _ & _ & ->).
    cbn [fst snd]. apply Forall_app. split.
    + eapply Forall_impl; [exact Hkeyed|]. intros [a' l] Hal. cbn [fst snd] in *.
      rewrite lookup_app_l; [exact Hal|].
      apply lookup_lt_is_Some. by destruct (σ !! l).
    + constructor; [|constructor]. cbn [fst snd].
      rewrite lookup_app_r by lia. by rewrite Nat.sub_diag, <- Hid.
Qed.

Lemma merge_fold_keyed owned :
  forall σ merged,
    Forall (fun al => appid <$> σ !! al.2 = Some al.1) merged ->
    Forall (fun al =>
              appid <$> (fold_left (merge_entry find_cover) owned (σ, merged)).1 !! al.2
              = Some al.1)
           (fold_left (merge_entry find_cover) owned (σ, merged)).2.
Proof.
  induction owned as [|e owned IH]; intros σ merged Hkeyed; cbn [fold_left];
    [exact Hkeyed|].
  pose proof (merge_entry_keyed σ merged e Hkeyed) as Hkeyed'.
  destruct (merge_entry find_cover (σ, merged) e) as [σ1 merged1].
  by apply IH.
Qed.

Lemma games_at_keyed σ merged :
  Forall (fun al => appid <$> σ !! al.2 = Some al.1) merged ->
  appid <$> games_at σ merged.*2 = merged.*1.
Proof.
  unfold games_at. induction 1 as [|[a l] merged Hal _ IH]; [reflexivity|].
  cbn [fst snd] in Hal. rewrite !fmap_cons. cbn [omap list_omap fst snd].
  destruct (σ !! l) as [g|]; [|discriminate]. injection Hal as Hal.
  rewrite fmap_cons, Hal. f_equal. exact IH.
Qed.

(** X10.  [merge_games] leaves every object that was in the store in its
    place and changes no field of it but the name; and every record of
    [installed] is in the list it returns. *)
Theorem X10_merge_keeps_every_installed_record :
  forall σ installed owned,
    (forall l g,
        σ !! l = Some g ->
        exists g',
          (merge_games casefold find_cover σ installed owned).1 !! l = Some g'
          /\ set_name (name g') g = g')
    /\ (forall a l,
          idict_get a installed = Some l ->
          l ∈ (merge_games casefold find_cover σ installed owned).2).
Proof.
  intros σ installed owned. rewrite merge_games_eq. cbn [fst snd]. split.
  - intros l g Hl. by apply merge_fold_store.
  - intros a l Ha. rewrite <- sorted_Permutation.
    apply (list_elem_of_fmap_2' snd _ (a, l)); [|reflexivity].
    apply idict_get_elem. by apply merge_fold_keeps.
Qed.

(** X11.  An owned game that is not installed comes into the result as a
    new record: not installed, with an empty library path, with the
    stripped name of the owned record or the synthesized name when that is
    empty, and with the cover that [find_cover] finds. *)
Theorem X11_merge_adds_owned_game_as_not_installed :
  forall σ installed owned a og,
    NoDup owned.*1 -> refs_ok σ installed ->
    (a, og) ∈ owned -> idict_get a installed = None ->
    exists l,
      l ∈ (merge_games casefold find_cover σ installed owned).2
      /\ (merge_games casefold find_cover σ installed owned).1 !! l
         = Some (mkGame a
                   (or_str (Py.strip
                              (pyval_str (if pyval_truthy (og_get "name" og)
                                          then og_get "name" og else PStr "")))
                           (placeholder a))
                   false "" "" 0 0 (find_cover a)).
Proof.
  intros σ installed owned a og Hnd Hok Hin Hnone.
  rewrite merge_games_eq. cbn [fst snd].
  destruct (merge_fold_at find_cover σ installed owned a og Hnd Hok Hin)
    as (σ1 & merged1 & Hok1 & _ & Habs & Hlast).
  specialize (Habs Hnone).
  assert (Hstep : merge_entry find_cover (σ1, merged1) (a, og)
                  = (σ1 ++ [mkGame a
                              (or_str (Py.strip
                                 (pyval_str (if pyval_truthy (og_get "name" og)
                                             then og_get "name" og else PStr "")))
                                 (placeholder a))
                              false "" "" 0 0 (find_cover a)],
                     merged1 ++ [(a, length σ1)])).
  { unfold merge_entry. by rewrite Habs. }
  rewrite Hstep in Hlast. cbn [fst snd] in Hlast.
  destruct (Hlast (length σ1)) as [Hobj Hkey].
  { rewrite idict_get_app, Habs. simpl. by rewrite Z.eqb_refl. }
  exists (length σ1). split.
  - rewrite <- sorted_Permutation.
    apply (list_elem_of_fmap_2' snd _ (a, length σ1)); [|reflexivity].
    by apply idict_get_elem.
  - rewrite Hobj, lookup_app_r by lia. by rewrite Nat.sub_diag.
Qed.

(** X12.  For a dict of installed games as [parse_installed_games] builds
    it, the result of [merge_games] holds one record for every app id of
    [installed] and of [owned], and no app id twice. *)
Theorem X12_merge_one_record_per_app_id :
  forall σ installed owned,
    games_ok σ installed ->
    let r := merge_games casefold find_cover σ installed owned in
    length (games_at r.1 r.2) = length r.2
    /\ NoDup (appid <$> games_at r.1 r.2)
    /\ (forall a, a ∈ appid <$> games_at r.1 r.2
                  <-> a ∈ installed.*1 \/ a ∈ owned.*1).
Proof.
  intros σ installed owned (Hkeys & Hok & Hobj) r. subst r.
  rewrite merge_games_eq. cbn [fst snd].
  assert (Hkeyed : Forall (fun al => appid <$> σ !! al.2 = Some al.1) installed).
  { apply Forall_forall. intros [a l] Hin. cbn [fst snd].
    destruct (Hobj a l Hin) as (g & Hg & <- & _). by rewrite Hg. }
  pose proof (merge_fold_keyed owned σ installed Hkeyed) as Hfinal.
  pose proof (games_at_keyed _ _ Hfinal) as Hids.
  destruct (merge_fold_keys find_cover owned σ installed) as (new & Hmerged & Hnew).
  set (st := fold_left (merge_entry find_cover) owned (σ, installed)) in *.
  set (key := fun l => casefold (name_at st.1 l)).
  assert (Hperm : games_at st.1 (sorted key st.2.*2) ≡ₚ games_at st.1 st.2.*2).
  { unfold games_at. by rewrite <- (sorted_Permutation key st.2.*2). }
  assert (Hkeys' : st.2.*1 = installed.*1 ++ first_occurrences installed.*1 owned.*1).
  { by rewrite Hmerged, fmap_app, Hnew. }
  split; [|split].
  - rewrite Hperm, <- (Permutation_length (sorted_Permutation key st.2.*2)).
    rewrite <- (length_fmap appid), Hids. by rewrite !length_fmap.
  - rewrite Hperm, Hids, Hkeys'. apply NoDup_app. split; [exact Hkeys|].
    split; [|apply first_occurrences_NoDup].
    intros a Ha. rewrite first_occurrences_elem. by intros [_ ?].
  - intros a. rewrite Hperm, Hids, Hkeys', elem_of_app, first_occurrences_elem.
    split; [by intros [?|[? _]]; auto|].
    intros [?|?]; [by left|].
    destruct (decide (a ∈ installed.*1)); [by left | by right].
Qed.

(** X13.  For an app that is installed and owned, the name after
    [merge_games] is the owned name exactly when the installed name starts
    with [App ] and the owned name is a string; otherwise the record is as
    it was.  The record of an installed app that is not owned is as it
    was. *)
Theorem X13_merge_name_rule :
  forall σ installed owned a l g,
    NoDup owned.*1 -> refs_ok σ installed ->
    idict_get a installed = Some l -> σ !! l = Some g ->
    (forall og,
        (a, og) ∈ owned ->
        (merge_games casefold find_cover σ installed owned).1 !! l
        = Some (if Py.startswith (name g) "App " && is_str (og_get "name" og)
                then set_name (pyval_str (og_get "name" og)) g
                else g))
    /\ (a ∉ owned.*1 ->
        (merge_games casefold find_cover σ installed owned).1 !! l = Some g).
Proof.
  intros σ installed owned a l g Hnd Hok Ha Hl.
  rewrite merge_games_eq. cbn [fst snd]. split.
  - intros og Hin.
    destruct (merge_fold_at find_cover σ installed owned a og Hnd Hok Hin)
      as (σ1 & merged1 & Hok1 & Hpres & _ & Hlast).
    destruct (Hpres l Ha) as [Ha1 Hl1].
    rewrite (merge_entry_present find_cover _ _ _ _ _ Ha1) in Hlast.
    cbn [fst snd] in Hlast.
    destruct (Hlast l Ha1) as [Hobj _]. rewrite Hobj.
    assert (Hname : name_at σ1 l = name g).
    { unfold name_at. by rewrite Hl1, Hl. }
    rewrite Hname.
    destruct (Py.startswith (name g) "App " && is_str (og_get "name" og)).
    + by rewrite list_lookup_alter_eq, Hl1, Hl.
    + by rewrite Hl1, Hl.
  - intros Hnot. rewrite <- Hl.
    by apply (merge_fold_frame find_cover owned σ installed a l).
Qed.

End CatalogFacts.

(** X10 at the store of C3: the record of app 5 stays as it is. *)
Lemma X10_witness :
  let g10 := mkGame 10 "App 10" true "/lib" "ten" 4 100 "" in
  let g5 := mkGame 5 "Alpha" true "/lib" "five" 4 100 "" in
  (exists g',
      (merge_games casefold_ascii (fun _ => "") [g10; g5]
         [(10, 0%nat); (5, 1%nat)] [(10, [("name", PStr "Portal")])]).1
        !! 1%nat = Some g'
      /\ set_name (name g') g5 = g')
  /\ 1%nat ∈ (merge_games casefold_ascii (fun _ => "") [g10; g5]
               [(10, 0%nat); (5, 1%nat)] [(10, [("name", PStr "Portal")])]).2.
Proof.
  intros g10 g5. split.
  - apply (proj1 (X10_merge_keeps_every_installed_record casefold_ascii (fun _ => "")
                    [g10; g5] [(10, 0%nat); (5, 1%nat)]
                    [(10, [("name", PStr "Portal")])])).
    reflexivity.
  - apply (proj2 (X10_merge_keeps_every_installed_record casefold_ascii (fun _ => "")
                    [g10; g5] [(10, 0%nat); (5, 1%nat)]
                    [(10, [("name", PStr "Portal")])]) 5).
    reflexivity.
Defined.

(** X11 at an owned game whose name is blank. *)
Lemma X11_witness :
  exists l,
    l ∈ (merge_games casefold_ascii (fun _ => "")
           [mkGame 5 "Alpha" true "/lib" "five" 4 100 ""] [(5, 0%nat)]
           [(7, [("name", PStr "  ")])]).2
    /\ (merge_games casefold_ascii (fun _ => "")
          [mkGame 5 "Alpha" true "/lib" "five" 4 100 ""] [(5, 0%nat)]
          [(7, [("name", PStr "  ")])]).1 !! l
       = Some (mkGame 7 "App 7" false "" "" 0 0 "").
Proof.
  apply (X11_merge_adds_owned_game_as_not_installed casefold_ascii (fun _ => "")
           [mkGame 5 "Alpha" true "/lib" "five" 4 100 ""] [(5, 0%nat)]
           [(7, [("name", PStr "  ")])] 7 [("name", PStr "  ")]).
  - apply (bool_decide_unpack _). vm_compute. exact I.
  - split.
    + apply (bool_decide_unpack _). vm_compute. exact I.
    + repeat constructor; simpl; lia.
  - left.
  - reflexivity.
Defined.

(** X13 at an installed game whose own name starts with [App ]. *)
Lemma X13_witness :
  (merge_games casefold_ascii (fun _ => "")
     [mkGame 9 "App Tycoon" true "/lib" "t" 4 100 ""] [(9, 0%nat)]
     [(9, [("name", PStr "Tycoon Deluxe")])]).1 !! 0%nat
  = Some (mkGame 9 "Tycoon Deluxe" true "/lib" "t" 4 100 "").
Proof.
  apply (proj1 (X13_merge_name_rule casefold_ascii (fun _ => "")
                  [mkGame 9 "App Tycoon" true "/lib" "t" 4 100 ""] [(9, 0%nat)]
                  [(9, [("name", PStr "Tycoon Deluxe")])] 9 0%nat
                  (mkGame 9 "App Tycoon" true "/lib" "t" 4 100 "")
                  ltac:(apply (bool_decide_unpack _); vm_compute; exact I)
                  ltac:(split; [apply (bool_decide_unpack _); vm_compute; exact I
                               | repeat constructor; simpl; lia])
                  eq_refl eq_refl)
           [("name", PStr "Tycoon Deluxe")]).
  left.
Defined.

(** X12 at one installed and two owned games, one of them the installed
    one. *)
Lemma X12_witness :
  let r := merge_games casefold_ascii (fun _ => "")
             [mkGame 5 "Alpha" true "/lib" "five" 4 100 ""] [(5, 0%nat)]
             [(7, [("name", PStr "Beta")]); (5, [("name", PStr "Alpha")])] in
  length (games_at r.1 r.2) = length r.2
  /\ NoDup (appid <$> games_at r.1 r.2)
  /\ (forall a, a ∈ appid <$> games_at r.1 r.2
                <-> a ∈ [(5, 0%nat)].*1
                    \/ a ∈ [(7, [("name", PStr "Beta")]);
                            (5, [("name", PStr "Alpha")])].*1).
Proof.
  apply (X12_merge_one_record_per_app_id casefold_ascii (fun _ => "")
           [mkGame 5 "Alpha" true "/lib" "five" 4 100 ""] [(5, 0%nat)]
           [(7, [("name", PStr "Beta")]); (5, [("name", PStr "Alpha")])]).
  split; [|split; [split|]].
  - apply (bool_decide_unpack _). vm_compute. exact I.
  - apply (bool_decide_unpack _). vm_compute. exact I.
  - repeat constructor; simpl; lia.
  - intros a l Hin. apply list_elem_of_singleton in Hin. injection Hin as -> ->.
    eexists. by repeat split.
Defined.

(** ** The scan of the manifests, further *)

Section ScanMore.

Variable unicode_escape : string -> option string.
Variable limit : nat.
Variable repr_items : dict -> string.
Variable find_cover : Z -> string.
Variable fs : filesystem.

Lemma game_of_text_fields (lib data : string) (g : Game) :
  game_of_text repr_items find_cover unicode_escape limit lib data = Some g ->
  appid g <> 0 /\ library_path g = lib /\ cover g = find_cover (appid g).
Proof.
  unfold game_of_text, game_of_manifest.
  destruct (load_keyvalues unicode_escape limit data) as [| e | kv]; try discriminate.
  destruct (dict_get "AppState" kv) as [[s|appstate]|]; try discriminate.
  destruct (Z.eqb_spec (_int repr_items (dict_get "appid" appstate) 0) 0);
    [discriminate|].
  by intros [= <-].
Qed.

Lemma scan_manifest_scanned (libs : list string) (lib : string)
    (st : store * list (Z * nat)) (mf : file) :
  lib ∈ libs -> has_steamapps fs lib = true ->
  SteamRoot.scanned find_cover fs libs st ->
  SteamRoot.scanned find_cover fs libs (scan_manifest unicode_escape limit repr_items find_cover lib st mf).
Proof.
  intros Hlib Hdir [Hok Hprop]. destruct st as [σ games]. split.
  - apply scan_manifest_ok. exact Hok.
  - unfold scan_manifest. destruct mf as [| | data]; try exact Hprop.
    destruct (game_of_text repr_items find_cover unicode_escape limit lib data)
      as [g0|] eqn:Hg0; [|exact Hprop].
    cbn [fst snd] in *. intros a l g Hin Hl.
    destruct (game_of_text_fields _ _ _ Hg0) as (Hid & Hpath & Hcover).
    destruct Hok as (_ & [_ Hlt] & _). rewrite Forall_forall in Hlt.
    destruct (idict_set_elem _ _ _ _ _ Hin) as [[-> ->]|Hin'].
    + rewrite lookup_app_r in Hl by lia. rewrite Nat.sub_diag in Hl.
      injection Hl as <-. rewrite Hpath. by repeat split.
    + pose proof (Hlt _ Hin') as Hbound. cbn [snd] in Hbound.
      rewrite lookup_app_l in Hl by exact Hbound.
      by eapply Hprop.
Qed.

Lemma scan_library_scanned (libs : list string) (lib : string)
    (st : store * list (Z * nat)) :
  lib ∈ libs -> SteamRoot.scanned find_cover fs libs st ->
  SteamRoot.scanned find_cover fs libs (scan_library unicode_escape limit repr_items find_cover fs st lib).
Proof.
  intros Hlib. unfold scan_library.
  destruct (has_steamapps fs lib) eqn:Hdir; [|done].
  generalize (manifests fs lib). intros mfs. revert st.
  induction mfs as [|mf mfs IH]; intros st Hst; cbn [fold_left]; [exact Hst|].
  apply IH. by apply scan_manifest_scanned.
Qed.

Lemma scan_libraries_scanned (libs ls : list string) :
  forall st : store * list (Z * nat),
    (forall lib, lib ∈ ls -> lib ∈ libs) -> SteamRoot.scanned find_cover fs libs st ->
    SteamRoot.scanned find_cover fs libs
      (fold_left (scan_library unicode_escape limit repr_items find_cover fs) ls st).
Proof.
  induction ls as [|lib ls IH]; intros st Hsub Hst; cbn [fold_left]; [exact Hst|].
  apply IH.
  - intros x Hx. apply Hsub. by right.
  - apply scan_library_scanned; [apply Hsub; left | exact Hst].
Qed.

(** The scan adds objects to the store and touches none. *)
Lemma scan_libraries_store (ls : list string) :
  forall (st : store * list (Z * nat)) (l : nat) (g : Game),
    st.1 !! l = Some g ->
    (fold_left (scan_library unicode_escape limit repr_items find_cover fs) ls st).1 !! l
    = Some g.
Proof.
  assert (Hmf : forall lib mfs (st : store * list (Z * nat)) l g,
             st.1 !! l = Some g ->
             (fold_left (scan_manifest unicode_escape limit repr_items find_cover lib)
                mfs st).1 !! l = Some g).
  { intros lib mfs. induction mfs as [|mf mfs IH]; intros st l g Hl;
      cbn [fold_left]; [exact Hl|].
    apply IH. unfold scan_manifest. destruct mf as [| | data]; try exact Hl.
    destruct (game_of_text _ _ _ _ _); [|exact Hl].
    cbn [fst]. rewrite lookup_app_l; [exact Hl|]. by eapply lookup_lt_Some. }
  induction ls as [|lib ls IH]; intros st l g Hl; cbn [fold_left]; [exact Hl|].
  apply IH. unfold scan_library.
  destruct (has_steamapps fs lib); [by apply Hmf | exact Hl].
Qed.

End ScanMore.

(** X14.  The dict that [parse_installed_games] returns has one entry per
    appid, each key is the non-zero appid of its own object, no two keys
    share an object, every object is marked installed, lies in one of the
    scanned libraries that has a steamapps directory, and carries the cover
    of its appid; the objects that were in the store before are as they
    were. *)
Theorem X14_scan_builds_a_dict_of_installed_games :
  forall (unicode_escape : string -> option string) (limit : nat)
         (repr_items : dict -> string) (find_cover : Z -> string)
         (fs : filesystem) (σ : store) (libs : list string),
    let r := parse_installed_games unicode_escape limit repr_items find_cover fs σ libs in
    games_ok r.1 r.2
    /\ (forall a l g,
          (a, l) ∈ r.2 -> r.1 !! l = Some g ->
          a <> 0 /\ library_path g ∈ libs
          /\ has_steamapps fs (library_path g) = true
          /\ cover g = find_cover a)
    /\ (forall l g, σ !! l = Some g -> r.1 !! l = Some g).
Proof.
  intros unicode_escape limit repr_items find_cover fs σ libs r. subst r.
  unfold parse_installed_games.
  assert (Hstart : SteamRoot.scanned find_cover fs libs (σ, [])).
  { split.
    - split; [constructor|]. split; [split; constructor|].
      intros a l Hin. by apply elem_of_nil in Hin.
    - intros a l g Hin. by apply elem_of_nil in Hin. }
  destruct (scan_libraries_scanned unicode_escape limit repr_items find_cover fs
              libs libs (σ, []) ltac:(auto) Hstart) as [Hok Hprop].
  split; [exact Hok|]. split; [exact Hprop|].
  intros l g Hl. by apply scan_libraries_store.
Qed.

(** X14 at a library with the manifests of the apps 10 and 5. *)
Lemma X14_witness :
  let m10 := unwords [quoted "AppState"; "{"; quoted "appid"; quoted "10";
                      quoted "name"; quoted "Zeta"; "}"] in
  let m5 := unwords [quoted "AppState"; "{"; quoted "appid"; quoted "5"; "}"] in
  let fs := {|
    path_of := fun p => p;
    expanduser := fun p => p;
    has_steamapps := fun p => String.eqb p "/steam";
    libraryfolders_vdf := fun _ => Missing;
    manifests := fun p => if String.eqb p "/steam" then [Content m10; Content m5] else [];
    resolved := fun p => p
  |} in
  5 <> 0 /\ library_path (mkGame 5 "App 5" true "/steam" "" 0 0 "") ∈ ["/steam"]
  /\ has_steamapps fs (library_path (mkGame 5 "App 5" true "/steam" "" 0 0 "")) = true
  /\ cover (mkGame 5 "App 5" true "/steam" "" 0 0 "") = "".
Proof.
  intros m10 m5 fs.
  apply (proj1 (proj2 (X14_scan_builds_a_dict_of_installed_games
                         escape_simple recursion_limit (fun _ => "") (fun _ => "")
                         fs [] ["/steam"]))
           5 1%nat).
  - right. left.
  - reflexivity.
Defined.

(** ** The list of downloads *)

Section SortLtFacts.

Context {A : Type}.
Variable lt : A -> A -> bool.

Lemma insert_lt_Permutation (x : A) (l : list A) :
  Permutation (x :: l) (insert_lt lt x l).
Proof.
  induction l as [|y l IH]; simpl; [reflexivity|].
  destruct (lt y x); [|reflexivity].
  rewrite perm_swap. by constructor.
Qed.

Lemma sort_lt_Permutation (l : list A) : Permutation l (sort_lt lt l).
Proof.
  induction l as [|x l IH]; simpl; [reflexivity|].
  rewrite <- insert_lt_Permutation. by constructor.
Qed.

(** The keys on which [<] is an order. *)
Variable D : A -> Prop.
Hypothesis lt_asym : forall x y, D x -> D y -> lt x y = true -> lt y x = false.
Hypothesis le_trans :
  forall x y z, D x -> D y -> D z ->
                lt y x = false -> lt z y = false -> lt z x = false.

Lemma insert_lt_sorted (x : A) (l : list A) :
  D x -> Forall D l ->
  StronglySorted (fun a b => lt b a = false) l ->
  StronglySorted (fun a b => lt b a = false) (insert_lt lt x l).
Proof.
  intros Hx HD Hs. induction Hs as [|y l Hl IH Hy]; simpl.
  - repeat constructor.
  - apply Forall_cons in HD as [HDy HDl]. destruct (lt y x) eqn:Hlt.
    + constructor; [by apply IH|].
      rewrite <- insert_lt_Permutation. constructor; [|exact Hy].
      by apply lt_asym.
    + constructor; [by constructor|].
      constructor; [exact Hlt|].
      rewrite Forall_forall in Hy, HDl. apply Forall_forall. intros z Hz.
      apply (le_trans x y z); auto.
Qed.

Lemma sort_lt_sorted (l : list A) :
  Forall D l -> StronglySorted (fun a b => lt b a = false) (sort_lt lt l).
Proof.
  induction l as [|x l IH]; simpl; [constructor|].
  intros [Hx Hl]%Forall_cons. apply insert_lt_sorted; [exact Hx| |by apply IH].
  by rewrite <- sort_lt_Permutation.
Qed.

End SortLtFacts.

Lemma StronglySorted_weaken {A : Type} (D : A -> Prop) (R R' : A -> A -> Prop)
    (l : list A) :
  (forall x y, D x -> D y -> R x y -> R' x y) ->
  Forall D l -> StronglySorted R l -> StronglySorted R' l.
Proof.
  intros Himpl HD Hs. induction Hs as [|x l Hl IH Hx]; constructor.
  - apply IH. by apply Forall_cons in HD as [_ ?].
  - apply Forall_cons in HD as [HDx HDl].
    rewrite Forall_forall in Hx, HDl. apply Forall_forall. intros y Hy.
    apply Himpl; auto.
Qed.

Section KeyOrder.

Import PyFloat.

Lemma string_ltb_false_leb (a b : string) :
  String.ltb b a = false <-> String.leb a b = true.
Proof.
  unfold String.ltb, String.leb. rewrite (String.compare_antisym a b).
  destruct (String.compare b a); simpl; split; congruence.
Qed.

(** The order of the keys whose float is no NaN: [k2 < k1] is false when
    the float of [k1] is less, or the floats are equal and the string of
    [k1] is not after that of [k2]. *)
Lemma key_le_spec (k1 k2 : spec_float * string) :
  is_nan (fst k1) = false -> is_nan (fst k2) = false ->
  DownloadsView.key_lt k2 k1 = false <->
  rank_lt (rank (fst k1)) (rank (fst k2))
  \/ (rank (fst k1) = rank (fst k2) /\ String.leb (snd k1) (snd k2) = true).
Proof.
  intros H1 H2. unfold DownloadsView.key_lt.
  pose proof (SFeqb_rank (fst k2) (fst k1) H2 H1) as Heq.
  pose proof (SFltb_rank (fst k2) (fst k1) H2 H1) as Hlt.
  destruct (SFeqb (fst k2) (fst k1)).
  - assert (Hr : rank (fst k2) = rank (fst k1)) by by apply Heq.
    rewrite string_ltb_false_leb, Hr. split.
    + intros H. right. by split.
    + intros [H|[_ H]]; [by apply rank_lt_irrefl in H | exact H].
  - assert (Hr : rank (fst k2) <> rank (fst k1)).
    { intros H. apply Heq in H. discriminate. }
    destruct (SFltb (fst k2) (fst k1)).
    + assert (Hgt : rank_lt (rank (fst k2)) (rank (fst k1))) by by apply Hlt.
      split; [discriminate|]. intros [H|[H _]]; [|congruence].
      exfalso. apply (rank_lt_irrefl (rank (fst k1))).
      by apply (rank_lt_trans _ (rank (fst k2))).
    + split; [|reflexivity]. intros _. left.
      destruct (rank_lt_total (rank (fst k1)) (rank (fst k2))) as [H|[H|H]];
        [exact H | congruence |].
      apply Hlt in H. discriminate.
Qed.

Lemma key_lt_asym (k1 k2 : spec_float * string) :
  is_nan (fst k1) = false -> is_nan (fst k2) = false ->
  DownloadsView.key_lt k1 k2 = true -> DownloadsView.key_lt k2 k1 = false.
Proof.
  intros H1 H2 Hlt. apply (key_le_spec k1 k2 H1 H2). revert Hlt.
  unfold DownloadsView.key_lt.
  destruct (SFeqb (fst k1) (fst k2)) eqn:Heq.
  - intros H. right. split; [by apply SFeqb_rank | by apply string_ltb_leb].
  - intros H. left. by apply SFltb_rank.
Qed.

Lemma key_le_trans (k1 k2 k3 : spec_float * string) :
  is_nan (fst k1) = false -> is_nan (fst k2) = false ->
  is_nan (fst k3) = false ->
  DownloadsView.key_lt k2 k1 = false -> DownloadsView.key_lt k3 k2 = false ->
  DownloadsView.key_lt k3 k1 = false.
Proof.
  intros H1 H2 H3.
  rewrite (key_le_spec k1 k2 H1 H2), (key_le_spec k2 k3 H2 H3),
          (key_le_spec k1 k3 H1 H3).
  intros [H12|[H12 S12]] [H23|[H23 S23]].
  - left. by eapply rank_lt_trans.
  - left. by rewrite <- H23.
  - left. by rewrite H12.
  - right. split; [congruence | by eapply string_leb_trans].
Qed.

End KeyOrder.

(** A loop whose turns add to a list or raise. *)
Section ForEachFacts.

Context {A E : Type}.
Variable turn : list E -> A -> option (list E).
(** The turn for [x] raises; it adds [e]. *)
Variable bad : A -> Prop.
Variable made : A -> E -> Prop.

Hypothesis turn_Some :
  forall acc x acc',
    turn acc x = Some acc' ->
    ~ bad x /\ forall e, e ∈ acc' <-> e ∈ acc \/ made x e.
Hypothesis turn_None : forall acc x, turn acc x = None -> bad x.

Lemma for_each_Some (l : list A) :
  forall acc acc',
    DownloadsView.for_each turn l acc = Some acc' ->
    (forall x, x ∈ l -> ~ bad x)
    /\ forall e, e ∈ acc' <-> e ∈ acc \/ exists x, x ∈ l /\ made x e.
Proof.
  induction l as [|x l IH]; intros acc acc'; cbn [DownloadsView.for_each].
  - intros [= <-]. split; [by intros x ?%elem_of_nil|].
    intros e. split; [by left|]. by intros [?|(x & ?%elem_of_nil & _)].
  - destruct (turn acc x) as [acc1|] eqn:Hturn; [|discriminate].
    intros Hrest. destruct (turn_Some _ _ _ Hturn) as [Hgood Hacc1].
    destruct (IH _ _ Hrest) as [Hall Hacc']. split.
    + intros y [->|Hy]%elem_of_cons; [exact Hgood | by apply Hall].
    + intros e. rewrite Hacc', Hacc1. split.
      * intros [[?|?]|(y & Hy & ?)]; [by left | right | right].
        -- exists x. split; [left | done].
        -- exists y. split; [by right | done].
      * intros [?|(y & [->|Hy]%elem_of_cons & ?)].
        -- left. by left.
        -- left. by right.
        -- right. by exists y.
Qed.

Lemma for_each_None (l : list A) :
  forall acc,
    DownloadsView.for_each turn l acc = None -> exists x, x ∈ l /\ bad x.
Proof.
  induction l as [|x l IH]; intros acc; cbn [DownloadsView.for_each];
    [discriminate|].
  destruct (turn acc x) as [acc1|] eqn:Hturn.
  - intros (y & Hy & Hbad)%IH. exists y. split; [by right | exact Hbad].
  - intros _. exists x. split; [left | by eapply turn_None].
Qed.

End ForEachFacts.

Section DownloadsFacts.

Variable unicode_escape : string -> option string.
Variable limit : nat.
Variable repr_items : dict -> string.
Variable casefold : string -> string.
Variable fs : filesystem.

Local Abbreviation entry_of := (DownloadsView.entry_of unicode_escape limit repr_items).
Local Abbreviation overflows := (DownloadsView.overflows unicode_escape limit repr_items).
Local Abbreviation library_entry :=
  (DownloadsView.library_entry unicode_escape limit repr_items fs).
Local Abbreviation library_overflows :=
  (DownloadsView.library_overflows unicode_escape limit repr_items fs).
Local Abbreviation collect_manifest :=
  (DownloadsView.collect_manifest unicode_escape limit repr_items).
Local Abbreviation collect_library :=
  (DownloadsView.collect_library unicode_escape limit repr_items fs).

Lemma collect_manifest_Some (lib : string) (downloads : list entry) (mf : file)
    (downloads' : list entry) :
  collect_manifest lib downloads mf = Some downloads' ->
  ~ overflows lib mf
  /\ forall e, e ∈ downloads' <-> e ∈ downloads \/ entry_of lib mf e.
Proof.
  unfold DownloadsView.collect_manifest, DownloadsView.overflows,
    DownloadsView.entry_of.
  destruct (DownloadsView._extract_appstate unicode_escape limit mf)
    as [[|kv appstate]|].
  - intros [= <-]. split; [by intros (? & ? & ? & _)|].
    intros e. split; [by left | by intros [?|(? & ? & ? & _)]].
  - destruct (_maybe_download_entry repr_items (kv :: appstate) lib)
      as [| |e0] eqn:Hentry; [discriminate| |]; intros [= <-].
    + split; [intros (? & ? & [= <- <-] & ?); congruence|].
      intros e. split; [by left|].
      intros [?|(? & ? & [= <- <-] & ?)]; [done | congruence].
    + split; [intros (? & ? & [= <- <-] & ?); congruence|].
      intros e. rewrite elem_of_app, list_elem_of_singleton. split.
      * intros [? | ->]; [by left | right]. by exists kv, appstate.
      * intros [?|(? & ? & [= <- <-] & ?)]; [by left | right]. congruence.
  - intros [= <-]. split; [by intros (? & ? & ? & _)|].
    intros e. split; [by left | by intros [?|(? & ? & ? & _)]].
Qed.

Lemma collect_manifest_None (lib : string) (downloads : list entry) (mf : file) :
  collect_manifest lib downloads mf = None -> overflows lib mf.
Proof.
  unfold DownloadsView.collect_manifest, DownloadsView.overflows.
  destruct (DownloadsView._extract_appstate unicode_escape limit mf)
    as [[|kv appstate]|]; try discriminate.
  destruct (_maybe_download_entry repr_items (kv :: appstate) lib)
    as [| |e0] eqn:Hentry; try discriminate.
  intros _. by exists kv, appstate.
Qed.

Lemma collect_library_Some (downloads : list entry) (lib : string)
    (downloads' : list entry) :
  collect_library downloads lib = Some downloads' ->
  ~ library_overflows lib
  /\ forall e, e ∈ downloads' <-> e ∈ downloads \/ library_entry lib e.
Proof.
  unfold DownloadsView.collect_library, DownloadsView.library_overflows,
    DownloadsView.library_entry.
  destruct (has_steamapps fs lib).
  - intros Hrun.
    destruct (for_each_Some (collect_manifest lib) (overflows lib) (entry_of lib)
                (collect_manifest_Some lib) _ _ _ Hrun) as [Hgood Hin].
    split.
    + intros (_ & mf & Hmf & Hbad). by apply (Hgood mf).
    + intros e. rewrite Hin. split; intros [?|H]; try by left.
      * right. by split.
      * right. by destruct H.
  - intros [= <-]. split; [by intros [? _]|].
    intros e. split; [by left | by intros [?|[? _]]].
Qed.

Lemma collect_library_None (downloads : list entry) (lib : string) :
  collect_library downloads lib = None -> library_overflows lib.
Proof.
  unfold DownloadsView.collect_library, DownloadsView.library_overflows.
  destruct (has_steamapps fs lib); [|discriminate].
  intros Hrun. split; [reflexivity|].
  exact (for_each_None (collect_manifest lib) (overflows lib)
           (collect_manifest_None lib) _ _ Hrun).
Qed.

(** What the loops of [generate] collect. *)
Lemma collect_libraries (libs : list string) :
  match DownloadsView.for_each collect_library libs [] with
  | Some downloads =>
      (forall lib, lib ∈ libs -> ~ library_overflows lib)
      /\ forall e, e ∈ downloads <-> exists lib, lib ∈ libs /\ library_entry lib e
  | None => exists lib, lib ∈ libs /\ library_overflows lib
  end.
Proof.
  destruct (DownloadsView.for_each collect_library libs []) as [downloads|]
    eqn:Hrun.
  - destruct (for_each_Some (fun acc lib => collect_library acc lib)
                library_overflows library_entry
                collect_library_Some _ _ _ Hrun) as [Hgood Hin].
    split; [exact Hgood|]. intros e. rewrite Hin.
    split; [by intros [?%elem_of_nil|?] | by right].
  - exact (for_each_None (fun acc lib => collect_library acc lib)
             library_overflows collect_library_None _ _ Hrun).
Qed.

(** The loops add the entries in the order of the libraries and of their
    manifests. *)
Lemma collect_manifests_list (lib : string) (mfs : list file) :
  forall downloads downloads',
    DownloadsView.for_each (collect_manifest lib) mfs downloads = Some downloads' ->
    downloads'
    = downloads
      ++ omap (DownloadsView.manifest_entry unicode_escape limit repr_items lib) mfs.
Proof.
  induction mfs as [|mf mfs IH]; intros downloads downloads';
    cbn [DownloadsView.for_each omap list_omap].
  - intros [= <-]. by rewrite app_nil_r.
  - unfold DownloadsView.collect_manifest at 1,
      DownloadsView.manifest_entry at 1.
    destruct (DownloadsView._extract_appstate unicode_escape limit mf)
      as [[|kv appstate]|]; try (intros Hrest; by apply IH).
    destruct (_maybe_download_entry repr_items (kv :: appstate) lib)
      as [| |e0]; [discriminate| |].
    + intros Hrest. by apply IH.
    + intros Hrest. rewrite (IH _ _ Hrest), <- app_assoc. reflexivity.
Qed.

Lemma collect_libraries_list (libs : list string) :
  forall downloads downloads',
    DownloadsView.for_each collect_library libs downloads = Some downloads' ->
    downloads'
    = downloads
      ++ concat (DownloadsView.library_entries unicode_escape limit repr_items fs
                   <$> libs).
Proof.
  induction libs as [|lib libs IH]; intros downloads downloads';
    cbn [DownloadsView.for_each].
  - intros [= <-]. by rewrite app_nil_r.
  - destruct (collect_library downloads lib) as [downloads1|] eqn:Hlib;
      [|discriminate].
    intros Hrest. rewrite (IH _ _ Hrest), fmap_cons. cbn [concat].
    rewrite app_assoc. f_equal.
    unfold DownloadsView.collect_library in Hlib.
    unfold DownloadsView.library_entries.
    destruct (has_steamapps fs lib).
    + by apply collect_manifests_list.
    + injection Hlib as <-. by rewrite app_nil_r.
Qed.

(** An entry of the list and the manifest it comes from. *)
Lemma library_entry_fields (lib : string) (e : entry) :
  library_entry lib e ->
  has_steamapps fs lib = true
  /\ e_appid e <> 0
  /\ (0 < bytes_to_download e \/ 0 < bytes_to_stage e)
  /\ SFleb PyFloat.zero (progress e) = true
  /\ SFleb (progress e) PyFloat.one = true
  /\ PyFloat.is_nan (progress e) = false
  /\ e_library_path e = lib.
Proof.
  intros (Hdir & mf & _ & kv & appstate & _ & Hentry).
  split; [exact Hdir|]. by eapply maybe_download_entry_fields.
Qed.

End DownloadsFacts.

(** X15.  [generate] returns its list of downloads unless a manifest with
    bytes left holds a byte count too large for a float: then the
    conversion raises.  The list holds the entries of the manifests of the
    discovered libraries, each once and only these, ordered by falling
    progress and,
    where the progress is equal, by casefolded name.  Every entry has a
    valid appid, bytes left to download or to stage, a progress between
    0.0 and 1.0, and a discovered library with a steamapps directory. *)
Theorem X15_downloads_ordered_by_progress_then_name :
  forall (unicode_escape : string -> option string) (limit : nat)
         (repr_items : dict -> string) (casefold : string -> string)
         (fs : filesystem) (steam_root : string),
    let libs := discover_library_paths unicode_escape limit fs steam_root in
    match DownloadsView.downloads_of unicode_escape limit repr_items casefold fs
            steam_root with
    | Some ds =>
        StronglySorted
          (fun e1 e2 =>
             SFltb (progress e2) (progress e1) = true
             \/ (SFeqb (progress e1) (progress e2) = true
                 /\ String.leb (casefold (e_name e1)) (casefold (e_name e2))
                    = true))
          ds
        /\ Permutation ds
             (concat (DownloadsView.library_entries unicode_escape limit
                        repr_items fs <$> libs))
        /\ (forall e,
              e ∈ ds <->
              exists lib,
                lib ∈ libs
                /\ DownloadsView.library_entry unicode_escape limit repr_items
                     fs lib e)
        /\ (forall lib,
              lib ∈ libs ->
              ~ DownloadsView.library_overflows unicode_escape limit repr_items
                  fs lib)
        /\ Forall
             (fun e =>
                e_appid e <> 0
                /\ (0 < bytes_to_download e \/ 0 < bytes_to_stage e)
                /\ SFleb PyFloat.zero (progress e) = true
                /\ SFleb (progress e) PyFloat.one = true
                /\ has_steamapps fs (e_library_path e) = true
                /\ e_library_path e ∈ libs)
             ds
    | None =>
        exists lib,
          lib ∈ libs
          /\ DownloadsView.library_overflows unicode_escape limit repr_items
               fs lib
    end.
Proof.
  intros unicode_escape limit repr_items casefold fs steam_root libs.
  unfold DownloadsView.downloads_of. fold libs.
  pose proof (collect_libraries unicode_escape limit repr_items fs libs) as Hall.
  pose proof (collect_libraries_list unicode_escape limit repr_items fs libs [])
    as Hlist.
  destruct (DownloadsView.for_each _ libs []) as [collected|]; [|exact Hall].
  destruct Hall as [Hgood Hin]. cbn [fmap option_fmap option_map].
  specialize (Hlist collected eq_refl). cbn [app] in Hlist.
  set (lt := fun a b =>
               DownloadsView.key_lt (DownloadsView.download_key casefold a)
                 (DownloadsView.download_key casefold b)).
  assert (Hfields : forall e,
             e ∈ collected ->
             exists lib, lib ∈ libs /\ has_steamapps fs lib = true
               /\ e_appid e <> 0
               /\ (0 < bytes_to_download e \/ 0 < bytes_to_stage e)
               /\ SFleb PyFloat.zero (progress e) = true
               /\ SFleb (progress e) PyFloat.one = true
               /\ PyFloat.is_nan (progress e) = false
               /\ e_library_path e = lib).
  { intros e (lib & Hlib & Hentry)%Hin. exists lib. split; [exact Hlib|].
    by eapply library_entry_fields. }
  assert (Hnan : Forall (fun e => PyFloat.is_nan (progress e) = false) collected).
  { apply Forall_forall. intros e (lib & _ & _ & _ & _ & _ & _ & ? & _)%Hfields.
    done. }
  split; [|split; [|split; [|split]]].
  - eapply (StronglySorted_weaken
              (fun e => PyFloat.is_nan (progress e) = false)
              (fun a b => lt b a = false)).
    + intros e1 e2 H1 H2 Hle. unfold lt in Hle.
      apply key_le_spec in Hle;
        [|by cbn [DownloadsView.download_key fst]; rewrite is_nan_opp..].
      cbn [DownloadsView.download_key fst snd] in Hle.
      rewrite rank_lt_opp, rank_eq_opp in Hle.
      destruct Hle as [Hlt|[Heq Hname]].
      * left. by apply SFltb_rank.
      * right. split; [by apply SFeqb_rank | exact Hname].
    + by rewrite <- sort_lt_Permutation.
    + apply (sort_lt_sorted lt (fun e => PyFloat.is_nan (progress e) = false)).
      * intros x y Hx Hy. apply key_lt_asym;
          by cbn [DownloadsView.download_key fst]; rewrite is_nan_opp.
      * intros x y z Hx Hy Hz. apply key_le_trans;
          by cbn [DownloadsView.download_key fst]; rewrite is_nan_opp.
      * exact Hnan.
  - by rewrite <- sort_lt_Permutation, Hlist.
  - intros e. rewrite <- Hin. by rewrite <- sort_lt_Permutation.
  - exact Hgood.
  - rewrite <- sort_lt_Permutation. apply Forall_forall.
    intros e (lib & Hlib & Hdir & Hid & Hleft & Hlo & Hhi & _ & Hpath)%Hfields.
    rewrite Hpath. by repeat split.
Qed.

(** ** The owned games and the storage report *)

Section OwnedFacts.

Lemma idict_get_set_eq {V : Type} (k : Z) (v : V) (d : list (Z * V)) :
  idict_get k (idict_set k v d) = Some v.
Proof.
  induction d as [|[k0 v0] d IH]; simpl.
  - by rewrite Z.eqb_refl.
  - destruct (Z.eqb_spec k0 k) as [->|Hne]; simpl.
    + by rewrite Z.eqb_refl.
    + destruct (Z.eqb_spec k0 k); [congruence | exact IH].
Qed.

Lemma idict_get_set_ne {V : Type} (k a : Z) (v : V) (d : list (Z * V)) :
  k <> a -> idict_get a (idict_set k v d) = idict_get a d.
Proof.
  intros Hne. induction d as [|[k0 v0] d IH]; simpl.
  - destruct (Z.eqb_spec k a); [congruence | reflexivity].
  - destruct (Z.eqb_spec k0 k) as [->|Hk]; simpl.
    + destruct (Z.eqb_spec k a); [congruence | reflexivity].
    + by rewrite IH.
Qed.

Lemma owned_of_games_ok (all games : list (option (list (string * pyval)))) :
  forall out : list (Z * list (string * pyval)),
    (forall g, g ∈ games -> g ∈ all) ->
    NoDup out.*1 ->
    Forall (fun kv => kv.1 <> 0
                      /\ SteamRoot._int_json (og_get "appid" kv.2) 0 = kv.1
                      /\ Some kv.2 ∈ all) out ->
    NoDup (fold_left SteamRoot.owned_entry games out).*1
    /\ Forall (fun kv => kv.1 <> 0
                         /\ SteamRoot._int_json (og_get "appid" kv.2) 0 = kv.1
                         /\ Some kv.2 ∈ all)
              (fold_left SteamRoot.owned_entry games out).
Proof.
  induction games as [|g games IH]; intros out Hsub Hnd Hall; cbn [fold_left];
    [by split|].
  assert (Hg : g ∈ all) by (apply Hsub; left).
  assert (Hsub' : forall g', g' ∈ games -> g' ∈ all).
  { intros g' Hg'. apply Hsub. by right. }
  apply IH; [exact Hsub' | |]; unfold SteamRoot.owned_entry;
    destruct g as [g|]; try assumption;
    destruct (Z.eqb_spec (SteamRoot._int_json (og_get "appid" g) 0) 0);
    try assumption.
  - by apply idict_set_NoDup_keys.
  - apply Forall_forall. intros [a x] Hin.
    destruct (idict_set_elem _ _ _ _ _ Hin) as [[-> ->]|Hin']; [by repeat split|].
    rewrite Forall_forall in Hall. by apply Hall.
Qed.

(** The records that come later and have another appid leave the record
    of an appid as it is. *)
Lemma owned_of_games_later (a : Z) (games : list (option (list (string * pyval)))) :
  forall out : list (Z * list (string * pyval)),
    (forall g, Some g ∈ games -> SteamRoot._int_json (og_get "appid" g) 0 <> a) ->
    idict_get a (fold_left SteamRoot.owned_entry games out) = idict_get a out.
Proof.
  induction games as [|g games IH]; intros out Hother; cbn [fold_left];
    [reflexivity|].
  rewrite IH by (intros g' Hg'; apply Hother; by right).
  unfold SteamRoot.owned_entry. destruct g as [g|]; [|reflexivity].
  destruct (_ =? 0); [reflexivity|].
  apply idict_get_set_ne. apply Hother. left.
Qed.

End OwnedFacts.

(** X16.  The dict of owned games that is built from the list of the
    response has no key twice and no key 0; every key is what [_int] reads
    of the appid of its record, and the record is one of the list; and
    every record of the list with a valid appid is in the dict under that
    appid, unless a later record of the list has the same appid: of the
    records with one appid the last one is kept. *)
Theorem X16_owned_games_keyed_by_valid_appid :
  forall (games : list (option (list (string * pyval)))),
    let out := SteamRoot.owned_of_games games in
    NoDup out.*1
    /\ Forall (fun kv => kv.1 <> 0
                         /\ SteamRoot._int_json (og_get "appid" kv.2) 0 = kv.1
                         /\ Some kv.2 ∈ games) out
    /\ (forall (before after : list (option (list (string * pyval))))
               (g : list (string * pyval)),
          games = before ++ Some g :: after ->
          SteamRoot._int_json (og_get "appid" g) 0 <> 0 ->
          (forall g',
              Some g' ∈ after ->
              SteamRoot._int_json (og_get "appid" g') 0
              <> SteamRoot._int_json (og_get "appid" g) 0) ->
          idict_get (SteamRoot._int_json (og_get "appid" g) 0) out = Some g).
Proof.
  intros games out. subst out. unfold SteamRoot.owned_of_games.
  destruct (owned_of_games_ok games games [] ltac:(auto) ltac:(constructor)
              ltac:(constructor)) as [Hnd Hall].
  split; [exact Hnd|]. split; [exact Hall|].
  intros before after g -> Hid Hlater. rewrite fold_left_app. cbn [fold_left].
  rewrite owned_of_games_later by exact Hlater.
  unfold SteamRoot.owned_entry at 1.
  apply Z.eqb_neq in Hid. rewrite Hid. apply idict_get_set_eq.
Qed.

(** X16 at a response with two records of app 440 and one of app 730
    between them. *)
Lemma X16_witness :
  let tf := [("appid", PInt 440); ("name", PStr "TF")] in
  let cs := [("appid", PInt 730); ("name", PStr "Counter-Strike 2")] in
  let tf2 := [("appid", PInt 440); ("name", PStr "Team Fortress 2")] in
  idict_get 730 (SteamRoot.owned_of_games [Some tf; None; Some cs; Some tf2])
  = Some cs
  /\ idict_get 440 (SteamRoot.owned_of_games [Some tf; None; Some cs; Some tf2])
     = Some tf2.
Proof.
  intros tf cs tf2. split.
  - apply (proj2 (proj2 (X16_owned_games_keyed_by_valid_appid
                           [Some tf; None; Some cs; Some tf2]))
             [Some tf; None] [Some tf2] cs).
    + reflexivity.
    + by vm_compute.
    + intros g' Hg'. apply list_elem_of_singleton in Hg'. injection Hg' as ->.
      by vm_compute.
  - apply (proj2 (proj2 (X16_owned_games_keyed_by_valid_appid
                           [Some tf; None; Some cs; Some tf2]))
             [Some tf; None; Some cs] [] tf2).
    + reflexivity.
    + by vm_compute.
    + intros g' Hg'. by apply elem_of_nil in Hg'.
Defined.

(** X17.  The storage report has one entry for every discovered library,
    in the same order, and so no library twice.  In each entry the Steam
    bytes are the sum of the five folders; the other bytes are never
    negative; the Steam and the other bytes together are the larger of the
    used bytes and the Steam bytes (the used bytes when the Steam folders
    hold no more than is used); and the used bytes are the total without
    the free blocks. *)
Theorem X17_storage_report_entries :
  forall (unicode_escape : string -> option string) (limit : nat)
         (fs : filesystem)
         (statvfs_of : string -> StorageReport.statvfs)
         (_du_bytes : string -> string -> Z) (steam_root : string),
    let ls := StorageReport.libraries_of unicode_escape limit fs statvfs_of _du_bytes
                steam_root in
    StorageReport.path <$> ls = discover_library_paths unicode_escape limit fs steam_root
    /\ NoDup (StorageReport.path <$> ls)
    /\ Forall
         (fun r =>
            has_steamapps fs (StorageReport.path r) = true
            /\ StorageReport.steam_bytes r
               = _du_bytes (StorageReport.path r) "common"
                 + _du_bytes (StorageReport.path r) "compatdata"
                 + _du_bytes (StorageReport.path r) "shadercache"
                 + _du_bytes (StorageReport.path r) "workshop"
                 + _du_bytes (StorageReport.path r) "downloading"
            /\ 0 <= StorageReport.other_bytes r
            /\ StorageReport.steam_bytes r + StorageReport.other_bytes r
               = Z.max (StorageReport.fs_used r) (StorageReport.steam_bytes r)
            /\ StorageReport.fs_used r
               + StorageReport.f_frsize (statvfs_of (StorageReport.path r))
                 * StorageReport.f_bfree (statvfs_of (StorageReport.path r))
               = StorageReport.fs_total r)
         ls.
Proof.
  intros unicode_escape limit fs statvfs_of _du_bytes steam_root ls. subst ls.
  unfold StorageReport.libraries_of.
  destruct (discover_ok unicode_escape limit fs steam_root) as (Hnd & Hall & _).
  revert Hnd Hall.
  generalize (discover_library_paths unicode_escape limit fs steam_root).
  intros libs Hnd Hall.
  assert (Hpaths : StorageReport.path
                     <$> (StorageReport.library_report statvfs_of _du_bytes <$> libs)
                   = libs).
  { rewrite <- list_fmap_compose. rewrite <- (list_fmap_id libs) at 2.
    apply list_fmap_ext. by intros i lib _. }
  split; [exact Hpaths|]. split; [by rewrite Hpaths|].
  apply Forall_fmap. eapply Forall_impl; [exact Hall|].
  intros lib Hdir.
  unfold StorageReport.library_report, StorageReport._statvfs_bytes. simpl.
  split; [exact Hdir|]. repeat split; lia.
Qed.

(** ** The two views of the manifests *)

Section TwoViews.

Variable unicode_escape : string -> option string.
(** The room on the stack in [generate] of steam_downloads, and in [main]
    of steam_library, which calls the parser from fewer frames. *)
Variable limit limit' : nat.
Hypothesis limit_le : (limit <= limit')%nat.
Variable repr_items : dict -> string.
Variable find_cover : Z -> string.
Variable fs : filesystem.

Local Abbreviation scan_manifest :=
  (scan_manifest unicode_escape limit' repr_items find_cover).
Local Abbreviation scan_library :=
  (scan_library unicode_escape limit' repr_items find_cover fs).

(** With more room on the stack no library is lost. *)
Lemma discover_room (steam_root lib : string) :
  lib ∈ discover_library_paths unicode_escape limit fs steam_root ->
  lib ∈ discover_library_paths unicode_escape limit' fs steam_root.
Proof.
  destruct (discover_ok unicode_escape limit' fs steam_root)
    as (_ & _ & more & Hmore).
  unfold discover_library_paths at 1.
  assert (Hroot : lib ∈ add fs [] steam_root ->
                  lib ∈ discover_library_paths unicode_escape limit' fs steam_root).
  { intros Hin. rewrite Hmore. apply elem_of_app. by left. }
  destruct (libraryfolders_vdf fs steam_root) as [| | data] eqn:Hvdf;
    try exact Hroot.
  destruct (load_keyvalues unicode_escape limit data) as [| e | kv] eqn:Hload;
    try exact Hroot.
  unfold discover_library_paths.
  by rewrite Hvdf, (load_keyvalues_room _ _ _ _ _ Hload limit_le).
Qed.

(** The manifest of an entry of the download view is a game of the
    library view, with the appid of the entry. *)
Lemma entry_of_game (lib : string) (mf : file) (e : entry) :
  DownloadsView.entry_of unicode_escape limit repr_items lib mf e ->
  exists data g,
    mf = Content data
    /\ game_of_text repr_items find_cover unicode_escape limit' lib data = Some g
    /\ appid g = e_appid e.
Proof.
  intros (kv & appstate & Hstate & Hentry).
  unfold DownloadsView._extract_appstate in Hstate.
  destruct mf as [| | data]; try discriminate.
  exists data. unfold game_of_text, game_of_manifest.
  destruct (load_keyvalues unicode_escape limit data) as [| err | root] eqn:Hload;
    try discriminate.
  rewrite (load_keyvalues_room _ _ _ _ _ Hload limit_le).
  destruct (dict_get "AppState" root) as [[s|appstate0]|]; try discriminate.
  injection Hstate as ->.
  unfold _maybe_download_entry in Hentry.
  destruct (_int repr_items (dict_get "appid" (kv :: appstate)) 0 =? 0);
    [discriminate|].
  eexists. split; [reflexivity|]. split; [reflexivity|].
  cbn [appid]. destruct (_ && _); [discriminate|].
  destruct (0 <? _).
  - destruct (PyFloat.of_int _); [|discriminate].
    destruct (PyFloat.of_int _); [|discriminate]. by injection Hentry as <-.
  - by injection Hentry as <-.
Qed.

Lemma scan_manifest_keeps (lib : string) (st : store * list (Z * nat))
    (mf : file) (a : Z) :
  a ∈ st.2.*1 -> a ∈ (scan_manifest lib st mf).2.*1.
Proof.
  intros Ha. unfold SteamLibrary.scan_manifest.
  destruct mf as [| | data]; try exact Ha.
  destruct (game_of_text _ _ _ _ _ _) as [g|]; [|exact Ha].
  cbn [snd]. rewrite idict_set_keys.
  destruct (bool_decide _); [exact Ha|]. apply elem_of_app. by left.
Qed.

Lemma scan_manifests_keep (lib : string) (mfs : list file) :
  forall (st : store * list (Z * nat)) (a : Z),
    a ∈ st.2.*1 -> a ∈ (fold_left (scan_manifest lib) mfs st).2.*1.
Proof.
  induction mfs as [|mf mfs IH]; intros st a Ha; cbn [fold_left]; [exact Ha|].
  apply IH. by apply scan_manifest_keeps.
Qed.

Lemma scan_library_keeps (st : store * list (Z * nat)) (lib : string) (a : Z) :
  a ∈ st.2.*1 -> a ∈ (scan_library st lib).2.*1.
Proof.
  intros Ha. unfold SteamLibrary.scan_library.
  destruct (has_steamapps fs lib); [by apply scan_manifests_keep | exact Ha].
Qed.

Lemma scan_libraries_keep (libs : list string) :
  forall (st : store * list (Z * nat)) (a : Z),
    a ∈ st.2.*1 -> a ∈ (fold_left scan_library libs st).2.*1.
Proof.
  induction libs as [|lib libs IH]; intros st a Ha; cbn [fold_left]; [exact Ha|].
  apply IH. by apply scan_library_keeps.
Qed.

(** The appid of every game of a manifest of a scanned library is a key
    of the dict. *)
Lemma scan_libraries_key (libs : list string) (lib data : string) (g : Game) :
  lib ∈ libs -> has_steamapps fs lib = true ->
  Content data ∈ manifests fs lib ->
  game_of_text repr_items find_cover unicode_escape limit' lib data = Some g ->
  forall st : store * list (Z * nat),
    appid g ∈ (fold_left scan_library libs st).2.*1.
Proof.
  intros (libs1 & libs2 & ->)%list_elem_of_split Hdir
         (mfs1 & mfs2 & Hmfs)%list_elem_of_split Hgame st.
  rewrite fold_left_app. cbn [fold_left]. apply scan_libraries_keep.
  unfold SteamLibrary.scan_library at 1. rewrite Hdir, Hmfs.
  rewrite fold_left_app. cbn [fold_left]. apply scan_manifests_keep.
  unfold SteamLibrary.scan_manifest at 1. rewrite Hgame. cbn [snd].
  rewrite idict_set_keys. case_bool_decide; [assumption|].
  apply elem_of_app. right. left.
Qed.

End TwoViews.

(** X18.  Every app that [generate] of steam_downloads lists as a download
    is a key of the dict that [parse_installed_games] builds for the same
    root, and the game under that key is marked installed, though bytes of
    it are still to be downloaded or staged.  The library script calls the
    parser from fewer frames, so it has no less room on the stack. *)
Theorem X18_download_entry_is_an_installed_game :
  forall (unicode_escape : string -> option string) (limit limit' : nat)
         (repr_items : dict -> string) (casefold : string -> string)
         (find_cover : Z -> string) (fs : filesystem) (steam_root : string)
         (σ : store) (ds : list entry) (e : entry),
    (limit <= limit')%nat ->
    DownloadsView.downloads_of unicode_escape limit repr_items casefold fs
      steam_root = Some ds ->
    e ∈ ds ->
    let r := parse_installed_games unicode_escape limit' repr_items find_cover fs σ
               (discover_library_paths unicode_escape limit' fs steam_root) in
    exists (l : nat) (g : Game),
      idict_get (e_appid e) r.2 = Some l
      /\ r.1 !! l = Some g
      /\ appid g = e_appid e
      /\ installed g = true.
Proof.
  intros unicode_escape limit limit' repr_items casefold find_cover fs steam_root
         σ ds e Hroom Hds He r.
  unfold DownloadsView.downloads_of in Hds.
  pose proof (collect_libraries unicode_escape limit repr_items fs
                (discover_library_paths unicode_escape limit fs steam_root))
    as Hview.
  destruct (DownloadsView.for_each _ _ []) as [collected|]; [|discriminate].
  injection Hds as <-. rewrite <- sort_lt_Permutation in He.
  destruct Hview as [_ Hin].
  apply Hin in He as (lib & Hlib & Hdir & mf & Hmf & Hentry).
  apply (discover_room unicode_escape limit limit' Hroom) in Hlib.
  destruct (entry_of_game unicode_escape limit limit' Hroom repr_items find_cover
              lib mf e Hentry) as (data & g0 & -> & Hgame & Hid).
  pose proof (scan_libraries_key unicode_escape limit' repr_items find_cover fs
                _ lib data g0 Hlib Hdir Hmf Hgame (σ, [])) as Hkey.
  fold (parse_installed_games unicode_escape limit' repr_items find_cover fs σ
          (discover_library_paths unicode_escape limit' fs steam_root)) in Hkey.
  fold r in Hkey. rewrite Hid in Hkey.
  destruct (idict_get (e_appid e) r.2) as [l|] eqn:Hget.
  - destruct (parse_installed_games_ok unicode_escape limit' repr_items
                find_cover fs σ
                (discover_library_paths unicode_escape limit' fs steam_root))
      as (_ & _ & Hobj).
    destruct (Hobj _ _ (idict_get_elem _ _ _ Hget)) as (g & Hg & Ha & Hinst).
    by exists l, g.
  - by apply idict_get_None in Hget.
Qed.

(** X18 at a library with the manifest of app 440, of which 300 bytes are
    still to be downloaded. *)
Lemma X18_witness :
  let m440 := unwords [quoted "AppState"; "{"; quoted "appid"; quoted "440";
                       quoted "name"; quoted "Team Fortress 2";
                       quoted "BytesDownloaded"; quoted "100";
                       quoted "BytesToDownload"; quoted "300"; "}"] in
  let fs := {|
    path_of := fun p => p;
    expanduser := fun p => p;
    has_steamapps := fun p => String.eqb p "/steam";
    libraryfolders_vdf := fun _ => Missing;
    manifests := fun p => if String.eqb p "/steam" then [Content m440] else [];
    resolved := fun p => p
  |} in
  let r := parse_installed_games escape_simple 992 (fun _ => "")
             (fun _ => "") fs []
             (discover_library_paths escape_simple 992 fs "/steam") in
  exists (l : nat) (g : Game),
    idict_get 440 r.2 = Some l /\ r.1 !! l = Some g
    /\ appid g = 440 /\ installed g = true.
Proof.
  intros m440 fs r.
  refine (X18_download_entry_is_an_installed_game escape_simple 990 992
            (fun _ => "") casefold_ascii (fun _ => "") fs "/steam" []
            [mkEntry 440 "Team Fortress 2" "/steam" 100 300 0 400
               (S754_finite false 4503599627370496 (-54)) 0]
            (mkEntry 440 "Team Fortress 2" "/steam" 100 300 0 400
               (S754_finite false 4503599627370496 (-54)) 0) _ _ _).
  - lia.
  - by vm_compute.
  - left.
Defined.
